(** * PyramidSolverGO: a shallow embedding of [PyramidSolver.go]

    Go strings are byte sequences and are modelled by [string]; a Go [int]
    that holds a card value or a count of pyramid slots is a [Z] (a value is
    at most 13 and a count at most the number of slots, so no wrap-around is
    written); slice indices and loop counters are [nat].  A run-time panic
    (index out of range) is [None], or [Panic] in the solver, whose recursion
    carries fuel.  Slices are immutable lists: the deep copies of
    [cloneState] make every child state independent of its parent, and the
    visited table, the one object the recursion shares, is passed along. *)

From Stdlib Require Import ZArith Ascii String Lia Sorted.
From stdpp Require Import base option list gmap strings pretty.

Local Open Scope Z_scope.

(** ** The Go library functions the program calls *)

Module Go.

(** [c < utf8.RuneSelf] *)
Definition isASCIIByte (c : ascii) : bool := (N_of_ascii c <? 128)%N.

Fixpoint isASCII (s : string) : bool :=
  match s with
  | EmptyString => true
  | String c s' => isASCIIByte c && isASCII s'
  end.

(** ['A' <= c && c <= 'Z'], then [c += 'a' - 'A'] *)
Definition lowerByte (c : ascii) : ascii :=
  let n := N_of_ascii c in
  if ((65 <=? n) && (n <=? 90))%N then ascii_of_N (n + 32) else c.

Fixpoint lowerASCII (s : string) : string :=
  match s with
  | EmptyString => EmptyString
  | String c s' => String (lowerByte c) (lowerASCII s')
  end.

(** [string(b)] for a byte [b]: the UTF-8 encoding of the code point [b],
    one byte below 0x80 and two bytes from 0x80 on. *)
Definition stringOfByte (b : ascii) : string :=
  let n := N_of_ascii b in
  if (n <? 128)%N then String b EmptyString
  else String (ascii_of_N (192 + n / 64))
         (String (ascii_of_N (128 + n mod 64)) EmptyString).

(** [strings.HasPrefix(s, prefix)] *)
Definition HasPrefix (s pre : string) : bool := String.prefix pre s.

(** [strings.Join(elems, sep)] *)
Fixpoint Join (elems : list string) (sep : string) : string :=
  match elems with
  | [] => EmptyString
  | [e] => e
  | e :: rest => e +:+ sep +:+ Join rest sep
  end.

(** The last byte [s[len(s)-1]] of a non-empty string. *)
Fixpoint lastByte (c : ascii) (s : string) : ascii :=
  match s with
  | EmptyString => c
  | String c' s' => lastByte c' s'
  end.

(** [%d] of a slice index. *)
Definition fmtNat (n : nat) : string := pretty n.

(** [%d] of an [int]. *)
Definition fmtInt (z : Z) : string := pretty z.

End Go.

(** ** Data model *)

Record ExposedCard := mkExposed {
  row : nat;
  col : nat;
  card : string;
  value : Z
}.

Record GameState := mkState {
  Pyramid : list (list string);
  Deck : list string;
  Waste : list string;
  Moves : list string
}.

(** [Result.Moves] is named [ResultMoves]: the name [Moves] is taken by
    the field of [GameState]. *)
Record Result := mkResult {
  ResultMoves : list string;
  RemovedCount : Z
}.

(** A Go [error]: [nil] (here [NilError]), or the message given to [fmt.Errorf]. *)
Inductive error := NilError | Errorf (msg : string).

(** How a block ends: it falls through with [bestResult], or it executes
    [return bestResult]. *)
Inductive flow := Continue (bestResult : Result) | Return (bestResult : Result).

(** What a run gives: a value, a run-time panic, or no answer within the
    fuel. *)
Inductive outcome (A : Type) := Done (a : A) | Panic | OutOfFuel.
Arguments Done {A} a.
Arguments Panic {A}.
Arguments OutOfFuel {A}.

(** ** Sample inputs *)

(** The Unicode path of [strings.ToLower] for inputs of ASCII bytes, on which
    it is never taken. *)
Definition noUnicode (s : string) : string := s.

(** The deal of [main]. *)
Definition mainDeck : list string :=
  ["jd"; "6h"; "4c"; "6c"; "ac"; "3h"; "7c"; "2h"; "jh"; "10s"; "8c"; "ah";
   "qh"; "3d"; "qd"; "2d"; "8s"; "qc"; "jc"; "4h"; "5s"; "js"; "2s"; "3c";
   "4d"; "7h"; "9c"; "5h"; "8h"; "as"; "6d"; "kd"; "5c"; "kc"; "10d"; "8d";
   "3s"; "9h"; "ad"; "kh"; "9d"; "qs"; "7d"; "4s"; "9s"; "10h"; "10c"; "ks";
   "6s"; "5d"; "7s"; "2c"].

(** A valid deal on which nothing can ever be removed: the bottom row holds
    Aces and Twos, and every Queen and Jack lies above it. *)
Definition stuckDeck : list string :=
  ["qs"; "qc"; "qd"; "qh"; "js"; "jc"; "jd"; "jh"; "3s"; "3c"; "3d"; "3h";
   "4s"; "4c"; "4d"; "4h"; "5s"; "5c"; "5d"; "5h"; "6s";
   "as"; "ac"; "ad"; "ah"; "2s"; "2c"; "2d";
   "2h"; "6c"; "6d"; "6h"; "7s"; "7c"; "7d"; "7h"; "8s"; "8c"; "8d"; "8h";
   "9s"; "9c"; "9d"; "9h"; "10s"; "10c"; "10d"; "10h"; "ks"; "kc"; "kd"; "kh"].

(** A valid deal that clears row by row: every row of the pyramid is made
    of Kings and of pairs that sum to 13. *)
Definition clearDeck : list string :=
  ["kh"; "6s"; "7s"; "kd"; "3s"; "10s"; "4s"; "9s"; "5s"; "8s";
   "ks"; "as"; "qs"; "2s"; "js"; "4c"; "9c"; "5c"; "8c"; "6c"; "7c";
   "kc"; "ac"; "qc"; "2c"; "jc"; "3c"; "10c";
   "ad"; "ah"; "qd"; "qh"; "2d"; "2h"; "jd"; "jh"; "3d"; "3h"; "10d"; "10h";
   "4d"; "4h"; "9d"; "9h"; "5d"; "5h"; "8d"; "8h"; "6d"; "6h"; "7d"; "7h"].

(** A small state: a King on top of the deck, two cards on the waste. *)
Definition kingOnDeck : GameState :=
  mkState [["kh"]; ["2c"; "jd"]] ["ks"; "ah"] ["3d"; "9c"] ["Draw card from deck: 9 of Clubs"].

(** A state to recycle: the deck is empty, the waste holds two cards. *)
Definition toRecycle : GameState := mkState [["kh"]] [] ["2c"; "3d"] [].

(** A pyramid with the left slot of its last row already empty. *)
Definition holed : list (list string) := [["kh"]; [""; "jd"]].

(** The deal of [main] with an upper-case Ace of clubs in the place of its
    first card, the Jack of diamonds: 52 cards, one name twice, one missing. *)
Definition twoAces : list string := "AC" :: tail mainDeck.

(** A board of two rows, nothing in the deck or on the waste; what the
    search returns from it, and the visited table it leaves. *)
Definition twoRows : GameState := mkState [["kh"]; ["2c"; "jd"]] [] [] [].

Definition twoRowsResult : Result :=
  mkResult
    ["Remove pair from pyramid: 2 of Clubs at (1,0) and Jack of Diamonds at (1,1)";
     "Remove King of Hearts from pyramid at (0,0)"]
    3.

Definition twoRowsVisited : gmap string Z :=
  <["kh;XX,XX||" := 2]> (<["kh;2c,jd||" := 0]> ∅).

(** [kingOnDeck] after the draw of its King. *)
Definition kingDrawn : GameState :=
  mkState [["kh"]; ["2c"; "jd"]] ["ah"] ["3d"; "9c"]
    ["Draw card from deck: 9 of Clubs";
     "Draw and remove King from deck: King of Spades"].

(** A pyramid with a card spelled like the text of an empty slot. *)
Definition spelledXX : list (list string) := [["kh"]; ["XX"; "jd"]].

Section Solver.

(** [strings.ToLower] has two paths: strings of ASCII bytes are lowered
    byte by byte; any other string goes through [strings.Map] with
    [unicode.ToLower], the Unicode tables, which stay a parameter here. *)
Variable unicodeLower : string -> string.

Definition ToLower (s : string) : string :=
  if Go.isASCII s then Go.lowerASCII s else unicodeLower s.

(** ** Cards *)

(** The [switch] of [getCardValue] on the lowered first character. *)
Definition rankValue (rank : string) : Z :=
  if String.eqb rank "a" then 1
  else if String.eqb rank "2" then 2
  else if String.eqb rank "3" then 3
  else if String.eqb rank "4" then 4
  else if String.eqb rank "5" then 5
  else if String.eqb rank "6" then 6
  else if String.eqb rank "7" then 7
  else if String.eqb rank "8" then 8
  else if String.eqb rank "9" then 9
  else if String.eqb rank "j" then 11
  else if String.eqb rank "q" then 12
  else if String.eqb rank "k" then 13
  else 0.

(** [getCardValue]; [None] is the panic of [card[0]] on the empty string. *)
Definition getCardValue (card : string) : option Z :=
  if Go.HasPrefix card "10" then Some 10
  else match card with
       | EmptyString => None
       | String c0 _ => Some (rankValue (ToLower (Go.stringOfByte c0)))
       end.

Definition rankName (rank : string) : string :=
  if String.eqb rank "a" then "Ace"
  else if String.eqb rank "2" then "2"
  else if String.eqb rank "3" then "3"
  else if String.eqb rank "4" then "4"
  else if String.eqb rank "5" then "5"
  else if String.eqb rank "6" then "6"
  else if String.eqb rank "7" then "7"
  else if String.eqb rank "8" then "8"
  else if String.eqb rank "9" then "9"
  else if String.eqb rank "10" then "10"
  else if String.eqb rank "j" then "Jack"
  else if String.eqb rank "q" then "Queen"
  else if String.eqb rank "k" then "King"
  else rank.

Definition suitName (suitChar : string) : string :=
  let l := ToLower suitChar in
  if String.eqb l "c" then "Clubs"
  else if String.eqb l "d" then "Diamonds"
  else if String.eqb l "h" then "Hearts"
  else if String.eqb l "s" then "Spades"
  else suitChar.

(** [formatCard]: the empty card is answered before any byte is read, so
    there is no panic here. *)
Definition formatCard (card : string) : string :=
  if String.eqb card "" || String.eqb card "XX" then "Empty"
  else
    let '(rank, suitChar) :=
      if Go.HasPrefix card "10" then
        ("10", match card with
               | String _ (String _ (String c2 _)) => Go.stringOfByte c2
               | _ => ""
               end)
      else
        match card with
        | EmptyString => ("", "")
        | String c0 rest =>
            (ToLower (Go.stringOfByte c0),
             Go.stringOfByte (Go.lastByte c0 rest))
        end in
    rankName rank +:+ " of " +:+ suitName suitChar.

(** ** Deck validation *)

(** The first loop of [checkDeck]: [cardCount[cLower]++] for every card,
    a missing key reading as 0. *)
Definition countCards (cards : list string) : gmap string Z :=
  foldl (fun cardCount card =>
           let cLower := ToLower card in
           <[cLower := default 0 (cardCount !! cLower) + 1]> cardCount)
        ∅ cards.

Definition ranks : list string :=
  ["a"; "2"; "3"; "4"; "5"; "6"; "7"; "8"; "9"; "10"; "j"; "q"; "k"].
Definition suits : list string := ["c"; "d"; "h"; "s"].

(** The body of the inner loop of [checkDeck]. *)
Definition checkCard (cardCount : gmap string Z) (rank suit : string) : error :=
  let card := rank +:+ suit in
  match cardCount !! card with
  | None => Errorf ("missing card: " +:+ formatCard card)
  | Some count =>
      if 1 <? count then
        Errorf ("duplicate card: " +:+ formatCard card +:+ " (appears "
                  +:+ Go.fmtInt count +:+ " times)")
      else NilError
  end.

(** A [for ... range] loop whose body may [return] an error. *)
Fixpoint firstError {A} (body : A -> error) (l : list A) : error :=
  match l with
  | [] => NilError
  | x :: l' => match body x with
               | NilError => firstError body l'
               | e => e
               end
  end.

Definition checkDeck (cards : list string) : error :=
  if negb (length cards =? 52)%nat then
    Errorf ("deck must contain 52 cards, but found "
              +:+ Go.fmtNat (length cards))
  else
    let cardCount := countCards cards in
    firstError (fun rank =>
      firstError (fun suit => checkCard cardCount rank suit) suits) ranks.

(** ** The pyramid *)

(** One row of [buildPyramid]: [pyramid[row][col] = cards[index]] for
    [col] in [0..row]; [None] when [cards] is too short. *)
Definition buildRow (cards : list string) (index rowIx : nat)
  : option (list string) :=
  mapM (fun colIx => cards !! (index + colIx)%nat) (seq 0 (S rowIx)).

Fixpoint buildRows (cards : list string) (index rowIx n : nat)
  : option (list (list string)) :=
  match n with
  | O => Some []
  | S n' =>
      r ← buildRow cards index rowIx;
      rest ← buildRows cards (index + S rowIx) (S rowIx) n';
      Some (r :: rest)
  end.

Definition buildPyramid (cards : list string) : option (list (list string)) :=
  buildRows cards 0 0 7.

(** [pyramid[r][c]], [None] out of range. *)
Definition slot (pyramid : list (list string)) (r c : nat) : option string :=
  pyramid !! r ≫= fun rowv => rowv !! c.

(** The body of the inner loop of [getExposedCards] at [(r, c)], [card]
    being [pyramid[r][c]]: the list of what it appends.  The [||] and [&&]
    of the source short-circuit, so the slots beneath are read only when
    needed. *)
Definition exposedAt (pyramid : list (list string)) (r c : nat) (card : string)
  : option (list ExposedCard) :=
  if String.eqb card "" then Some []
  else
    isExposed ←
      (if (r =? length pyramid - 1)%nat then Some true
       else
         below ← slot pyramid (r + 1) c;
         if String.eqb below "" then
           belowRight ← slot pyramid (r + 1) (c + 1);
           Some (String.eqb belowRight "")
         else Some false);
    if isExposed : bool then
      v ← getCardValue card;
      Some [mkExposed r c card v]
    else Some [].

(** A loop that appends to a slice and may panic. *)
Fixpoint collect {A B} (body : nat -> A -> option (list B)) (i : nat) (l : list A)
  : option (list B) :=
  match l with
  | [] => Some []
  | x :: l' =>
      here ← body i x;
      rest ← collect body (S i) l';
      Some (here ++ rest)
  end.

Definition getExposedCards (pyramid : list (list string))
  : option (list ExposedCard) :=
  collect (fun r rowv => collect (fun c card => exposedAt pyramid r c card) 0 rowv)
          0 pyramid.

Definition isPyramidEmpty (pyramid : list (list string)) : bool :=
  forallb (fun rowv => forallb (fun card => String.eqb card "") rowv) pyramid.

Definition countRemoved (pyramid : list (list string)) : Z :=
  foldl (fun count rowv =>
           foldl (fun count card =>
                    if String.eqb card "" then count + 1 else count)
                 count rowv)
        0 pyramid.

(** Values are immutable here, so the deep copies are the identity. *)
Definition clonePyramid (pyramid : list (list string)) : list (list string) :=
  map (fun rowv => rowv) pyramid.

Definition cloneState (state : GameState) : GameState :=
  mkState (clonePyramid (Pyramid state)) (Deck state) (Waste state) (Moves state).

(** ** The key of the visited table *)

Fixpoint writeRow (rowv : list string) : string :=
  match rowv with
  | [] => ""
  | card :: rest =>
      (if String.eqb card "" then "XX" else card)
        +:+ (match rest with [] => "" | _ => "," end)
        +:+ writeRow rest
  end.

Fixpoint writePyramid (pyramid : list (list string)) : string :=
  match pyramid with
  | [] => ""
  | rowv :: rest =>
      writeRow rowv
        +:+ (match rest with [] => "" | _ => ";" end)
        +:+ writePyramid rest
  end.

Definition serializeState (state : GameState) : string :=
  writePyramid (Pyramid state)
    +:+ "|" +:+ Go.Join (Deck state) ","
    +:+ "|" +:+ Go.Join (Waste state) ",".

(** ** The search *)

(** [sort.Slice]: on the short slices of this program (a pyramid of seven
    rows exposes at most seven cards) Go sorts by insertion,
    [for j := i; j > a && less(j, j-1); j-- { swap(j, j-1) }].
    [sortedRev] is the sorted prefix, last element first. *)
Fixpoint insertBack {A} (less : A -> A -> bool) (x : A) (sortedRev : list A)
  : list A :=
  match sortedRev with
  | [] => [x]
  | y :: ys => if less x y then y :: insertBack less x ys else x :: y :: ys
  end.

Definition sortSlice {A} (less : A -> A -> bool) (l : list A) : list A :=
  reverse (foldl (fun sortedRev x => insertBack less x sortedRev) [] l).

(** [exposed[i].row > exposed[j].row] *)
Definition lowerRowFirst (a b : ExposedCard) : bool := (row b <? row a)%nat.

(** [pyramid[r][c] = ""], [None] out of range. *)
Definition removeAt (pyramid : list (list string)) (r c : nat)
  : option (list (list string)) :=
  rowv ← pyramid !! r;
  if decide (c < length rowv)%nat
  then Some (<[r := <[c := ""]> rowv]> pyramid)
  else None.

(** The texts of the six moves. *)
Definition textRemoveKing (exp : ExposedCard) : string :=
  "Remove " +:+ formatCard (card exp) +:+ " from pyramid at ("
    +:+ Go.fmtNat (row exp) +:+ "," +:+ Go.fmtNat (col exp) +:+ ")".

Definition textRemovePair (a b : ExposedCard) : string :=
  "Remove pair from pyramid: " +:+ formatCard (card a) +:+ " at ("
    +:+ Go.fmtNat (row a) +:+ "," +:+ Go.fmtNat (col a) +:+ ") and "
    +:+ formatCard (card b) +:+ " at ("
    +:+ Go.fmtNat (row b) +:+ "," +:+ Go.fmtNat (col b) +:+ ")".

Definition textRemoveWaste (topWaste : string) (exp : ExposedCard) : string :=
  "Remove waste card " +:+ formatCard topWaste +:+ " and pyramid card "
    +:+ formatCard (card exp) +:+ " at ("
    +:+ Go.fmtNat (row exp) +:+ "," +:+ Go.fmtNat (col exp) +:+ ")".

Definition textDrawKing (drawn : string) : string :=
  "Draw and remove King from deck: " +:+ formatCard drawn.

Definition textDraw (drawn : string) : string :=
  "Draw card from deck: " +:+ formatCard drawn.

Definition textRecycle : string := "Recycle waste into deck".

(** The child states, one definition per block of [solveState]; [None]
    is a panic while the child is built. *)

(** 1a. *)
Definition kingChild (state : GameState) (exp : ExposedCard) : option GameState :=
  let newState := cloneState state in
  p ← removeAt (Pyramid newState) (row exp) (col exp);
  Some (mkState p (Deck newState) (Waste newState)
          (Moves newState ++ [textRemoveKing exp])).

(** 1b. *)
Definition pairChild (state : GameState) (ab : ExposedCard * ExposedCard)
  : option GameState :=
  let newState := cloneState state in
  p ← removeAt (Pyramid newState) (row ab.1) (col ab.1);
  p' ← removeAt p (row ab.2) (col ab.2);
  Some (mkState p' (Deck newState) (Waste newState)
          (Moves newState ++ [textRemovePair ab.1 ab.2])).

(** 2. [newState.Waste[:len(newState.Waste)-1]] drops the top. *)
Definition wasteChild (state : GameState) (topWaste : string) (exp : ExposedCard)
  : option GameState :=
  let newState := cloneState state in
  let waste := take (length (Waste newState) - 1) (Waste newState) in
  p ← removeAt (Pyramid newState) (row exp) (col exp);
  Some (mkState p (Deck newState) waste
          (Moves newState ++ [textRemoveWaste topWaste exp])).

(** 3. *)
Definition drawChild (state : GameState) (drawn : string) (rest : list string)
  : option GameState :=
  let newState := cloneState state in
  v ← getCardValue drawn;
  if v =? 13 then
    Some (mkState (Pyramid newState) rest (Waste newState)
            (Moves newState ++ [textDrawKing drawn]))
  else
    Some (mkState (Pyramid newState) rest (Waste newState ++ [drawn])
            (Moves newState ++ [textDraw drawn])).

(** 4. [newDeck[len(newState.Waste)-1-i] = card] *)
Definition recycleChild (state : GameState) : GameState :=
  let newState := cloneState state in
  mkState (Pyramid newState) (reverse (Waste newState)) []
    (Moves newState ++ [textRecycle]).

(** The pairs [(l[i], l[j])], [i < j], in the order of the nested loops. *)
Fixpoint pairsOf {A} (l : list A) : list (A * A) :=
  match l with
  | [] => []
  | x :: l' => map (pair x) l' ++ pairsOf l'
  end.

(** The children each block recurses into, in order. *)
Definition kingMoves (state : GameState) (exposed : list ExposedCard)
  : list (option GameState) :=
  map (kingChild state) (filter (fun exp => value exp = 13) exposed).

Definition pairMoves (state : GameState) (exposed : list ExposedCard)
  : list (option GameState) :=
  map (pairChild state)
    (filter (fun ab => value ab.1 + value ab.2 = 13) (pairsOf exposed)).

(** The outer [None] is the panic of [getCardValue(topWaste)]. *)
Definition wasteMoves (state : GameState) (exposed : list ExposedCard)
  : option (list (option GameState)) :=
  match last (Waste state) with
  | None => Some []
  | Some topWaste =>
      wasteValue ← getCardValue topWaste;
      Some (map (wasteChild state topWaste)
              (filter (fun exp => wasteValue + value exp = 13) exposed))
  end.

Definition drawMoves (state : GameState) : list (option GameState) :=
  match Deck state with
  | [] => []
  | drawn :: rest => [drawChild state drawn rest]
  end.

Definition recycleMoves (state : GameState) : list (option GameState) :=
  match Deck state, Waste state with
  | [], _ :: _ => [Some (recycleChild state)]
  | _, _ => []
  end.

(** The lines after each recursive call:
    [if res.RemovedCount > bestResult.RemovedCount { bestResult = res }]
    [if bestResult.RemovedCount == 28 { return bestResult }]. *)
Definition compare (res bestResult : Result) : flow :=
  let bestResult :=
    if RemovedCount bestResult <? RemovedCount res then res else bestResult in
  if RemovedCount bestResult =? 28 then Return bestResult
  else Continue bestResult.

(** One block: recurse into each child in turn. *)
Fixpoint explore (solve : GameState -> gmap string Z -> outcome (Result * gmap string Z))
    (children : list (option GameState))
    (bestResult : Result) (visited : gmap string Z)
  : outcome (flow * gmap string Z) :=
  match children with
  | [] => Done (Continue bestResult, visited)
  | None :: _ => Panic
  | Some newState :: rest =>
      match solve newState visited with
      | Done (res, visited) =>
          match compare res bestResult with
          | Return bestResult => Done (Return bestResult, visited)
          | Continue bestResult => explore solve rest bestResult visited
          end
      | Panic => Panic
      | OutOfFuel => OutOfFuel
      end
  end.

(** The next block, entered only when the blocks before fell through. *)
Definition andThen (before : outcome (flow * gmap string Z))
    (block : Result -> gmap string Z -> outcome (flow * gmap string Z))
  : outcome (flow * gmap string Z) :=
  match before with
  | Done (Continue bestResult, visited) => block bestResult visited
  | other => other
  end.

(** [if val, ok := visited[key]; ok && val >= curRemoved] *)
Definition alreadySeen (visited : gmap string Z) (key : string) (curRemoved : Z)
  : bool :=
  match visited !! key with
  | Some val => curRemoved <=? val
  | None => false
  end.

(** The part of [solveState] after the visited table is written: the
    blocks 1a, 1b, 2, 3 and 4 in turn, and the final [return bestResult]. *)
Definition expand
    (solve : GameState -> gmap string Z -> outcome (Result * gmap string Z))
    (state : GameState) (bestResult : Result) (visited : gmap string Z)
  : outcome (Result * gmap string Z) :=
  match getExposedCards (Pyramid state) with
  | None => Panic
  | Some exposed =>
      let exposed := sortSlice lowerRowFirst exposed in
      let blocks :=
        andThen (andThen (andThen (andThen
          (explore solve (kingMoves state exposed) bestResult visited)
          (explore solve (pairMoves state exposed)))
          (fun bestResult visited =>
             match wasteMoves state exposed with
             | None => Panic
             | Some children => explore solve children bestResult visited
             end))
          (explore solve (drawMoves state)))
          (explore solve (recycleMoves state)) in
      match blocks with
      | Done (Continue bestResult, visited)
      | Done (Return bestResult, visited) => Done (bestResult, visited)
      | Panic => Panic
      | OutOfFuel => OutOfFuel
      end
  end.

Fixpoint solveState (fuel : nat) (state : GameState) (visited : gmap string Z)
  : outcome (Result * gmap string Z) :=
  match fuel with
  | O => OutOfFuel
  | S fuel =>
      let curRemoved := countRemoved (Pyramid state) in
      let bestResult := mkResult (Moves state) curRemoved in
      if isPyramidEmpty (Pyramid state) then Done (bestResult, visited)
      else
        let key := serializeState state in
        if alreadySeen visited key curRemoved then Done (bestResult, visited)
        else
          let visited := <[key := curRemoved]> visited in
          expand (solveState fuel) state bestResult visited
  end.

(** [solvePyramidSolitaire]; [cards[28:]] panics on fewer than 28 cards,
    as [buildPyramid] does before it. *)
Definition solvePyramidSolitaire (fuel : nat) (cards : list string)
  : outcome Result :=
  match buildPyramid cards with
  | None => Panic
  | Some pyramid =>
      let deck := drop 28 cards in
      let initialState := mkState pyramid deck [] [] in
      match solveState fuel initialState ∅ with
      | Done (res, _) => Done res
      | Panic => Panic
      | OutOfFuel => OutOfFuel
      end
  end.

(** ** Specification-side definitions *)

(** Exposure as the specification words it: the slot is occupied, and it
    is on the last row or both slots beneath it are empty. *)
Definition occupied (pyramid : list (list string)) (r c : nat) : bool :=
  match slot pyramid r c with
  | Some card => negb (String.eqb card "")
  | None => false
  end.

Definition emptySlot (pyramid : list (list string)) (r c : nat) : bool :=
  match slot pyramid r c with
  | Some card => String.eqb card ""
  | None => false
  end.

Definition exposedSlot (pyramid : list (list string)) (r c : nat) : bool :=
  occupied pyramid r c
  && ((r =? length pyramid - 1)%nat
      || (emptySlot pyramid (r + 1) c && emptySlot pyramid (r + 1) (c + 1))).

(** The search with the pruning removed: [solveState] without the test
    [if val, ok := visited[key]; ok && val >= curRemoved { return }]. *)
Fixpoint solveStateUnpruned (fuel : nat) (state : GameState)
    (visited : gmap string Z) : outcome (Result * gmap string Z) :=
  match fuel with
  | O => OutOfFuel
  | S fuel =>
      let curRemoved := countRemoved (Pyramid state) in
      let bestResult := mkResult (Moves state) curRemoved in
      if isPyramidEmpty (Pyramid state) then Done (bestResult, visited)
      else
        let key := serializeState state in
        let visited := <[key := curRemoved]> visited in
        expand (solveStateUnpruned fuel) state bestResult visited
  end.

Definition solvePyramidSolitaireUnpruned (fuel : nat) (cards : list string)
  : outcome Result :=
  match buildPyramid cards with
  | None => Panic
  | Some pyramid =>
      let initialState := mkState pyramid (drop 28 cards) [] [] in
      match solveStateUnpruned fuel initialState ∅ with
      | Done (res, _) => Done res
      | Panic => Panic
      | OutOfFuel => OutOfFuel
      end
  end.

(** The state [solvePyramidSolitaire] starts from. *)
Definition initialState (cards : list string) : option GameState :=
  pyramid ← buildPyramid cards;
  Some (mkState pyramid (drop 28 cards) [] []).

(** All the children of a state, block after block; [None] when building
    them panics. *)
Definition allMoves (state : GameState) : option (list (option GameState)) :=
  exposed ← getExposedCards (Pyramid state);
  let exposed := sortSlice lowerRowFirst exposed in
  children ← wasteMoves state exposed;
  Some ((((kingMoves state exposed ++ pairMoves state exposed)
            ++ children) ++ drawMoves state) ++ recycleMoves state).

(** One move of the search, and the states it can reach. *)
Definition step (state child : GameState) : Prop :=
  exists children, allMoves state = Some children /\ Some child ∈ children.

Definition reachable : GameState -> GameState -> Prop := rtc step.

(** What [solveState] starts from at [state]. *)
Definition best (state : GameState) : Result :=
  mkResult (Moves state) (countRemoved (Pyramid state)).

(** ** The runs of the search *)

(** The result a block ends with. *)
Definition flowResult (f : flow) : Result :=
  match f with
  | Continue bestResult | Return bestResult => bestResult
  end.

(** The runs of a block over the children [cs], when each recursive call
    is known to satisfy [Q]: from [bestResult] and [visited] the block
    ends in a flow and a visited table. *)
Inductive Loop (Q : GameState -> gmap string Z -> Result -> gmap string Z -> Prop)
  : list GameState -> Result -> gmap string Z -> flow -> gmap string Z -> Prop :=
| Loop_done bestResult visited :
    Loop Q [] bestResult visited (Continue bestResult) visited
| Loop_return c cs bestResult visited res visited' bestResult' :
    Q c visited res visited' ->
    compare res bestResult = Return bestResult' ->
    Loop Q (c :: cs) bestResult visited (Return bestResult') visited'
| Loop_continue c cs bestResult visited res visited' bestResult' f visited'' :
    Q c visited res visited' ->
    compare res bestResult = Continue bestResult' ->
    Loop Q cs bestResult' visited' f visited'' ->
    Loop Q (c :: cs) bestResult visited f visited''.

(** ** The states of one deal *)

(** Each row is shorter than the next, as in the triangle: the two slots
    beneath a slot exist. *)
Fixpoint regular (pyramid : list (list string)) : Prop :=
  match pyramid with
  | r1 :: ((r2 :: _) as rest) => (length r1 < length r2)%nat /\ regular rest
  | _ => True
  end.

(** [pyramid] is [pyramid0] with some slots emptied. *)
Definition masked (pyramid0 pyramid : list (list string)) : Prop :=
  Forall2 (Forall2 (fun c0 c => c = c0 \/ c = "")) pyramid0 pyramid.

(** The states of the deal of [pyramid0] and [deck0]: slots are only ever
    emptied, and deck and waste hold cards of [deck0], no more than it
    had. *)
Definition inDeal (pyramid0 : list (list string)) (deck0 : list string)
    (state : GameState) : Prop :=
  masked pyramid0 (Pyramid state)
  /\ Forall (fun c => c ∈ deck0) (Deck state)
  /\ Forall (fun c => c ∈ deck0) (Waste state)
  /\ (length (Deck state) + length (Waste state) <= length deck0)%nat.

(** The number of slots. *)
Definition slots (pyramid : list (list string)) : nat :=
  sum_list (length <$> pyramid).

(** Every way to empty slots of a row, and of a pyramid. *)
Fixpoint maskings (rowv : list string) : list (list string) :=
  match rowv with
  | [] => [[]]
  | c :: rest => l ← maskings rest; [c :: l; "" :: l]
  end.

Fixpoint maskedPyramids (pyramid0 : list (list string))
  : list (list (list string)) :=
  match pyramid0 with
  | [] => [[]]
  | rowv :: rest => r ← maskings rowv; p ← maskedPyramids rest; [r :: p]
  end.

(** Every list of at most [n] cards of [deck0]. *)
Fixpoint listsUpTo (n : nat) (deck0 : list string) : list (list string) :=
  match n with
  | O => [[]]
  | S n' => [] :: (c ← deck0; l ← listsUpTo n' deck0; [c :: l])
  end.

(** The keys of all states of the deal. *)
Definition dealKeys (pyramid0 : list (list string)) (deck0 : list string)
  : list string :=
  p ← maskedPyramids pyramid0;
  d ← listsUpTo (length deck0) deck0;
  w ← listsUpTo (length deck0) deck0;
  [serializeState (mkState p d w [])].

(** How far the entry of a key has climbed: 0 without an entry, one more
    than the count it records otherwise. *)
Definition level (visited : gmap string Z) (key : string) : nat :=
  match visited !! key with
  | None => O
  | Some val => S (Z.to_nat val)
  end.

(** How much the entries of [keys] can still climb, counts being at most
    [n]: the measure that bounds the recursion. *)
Definition room (n : nat) (keys : list string) (visited : gmap string Z) : nat :=
  sum_list ((fun key => S n - level visited key)%nat <$> keys).

(** The recorded counts are not negative. *)
Definition countsOK (visited : gmap string Z) : Prop :=
  map_Forall (fun _ val => 0 <= val) visited.

(** The moves of the game, and their replay. *)
Inductive Move :=
| RemoveKing (r c : nat)
| RemovePair (r1 c1 r2 c2 : nat)
| RemoveWaste (r c : nat)
| DrawCard
| Recycle.

(** The value of the card on a slot. *)
Definition valueAt (pyramid : list (list string)) (r c : nat) : option Z :=
  slot pyramid r c ≫= getCardValue.

(** The slot as [getExposedCards] would report it. *)
Definition exposedAs (pyramid : list (list string)) (r c : nat)
  : option ExposedCard :=
  cardv ← slot pyramid r c;
  v ← getCardValue cardv;
  Some (mkExposed r c cardv v).

(** Both cards have a value, and the two values add up to 13. *)
Definition sumsTo13 (a b : option Z) : bool :=
  match a, b with
  | Some x, Some y => x + y =? 13
  | _, _ => false
  end.

(** Whether the rules allow the move: a removal takes occupied, exposed
    slots only (two different ones for a pair), a pair and a pairing with
    the waste top sum to 13, a card removed alone is a King; a draw needs
    a card in the deck; a recycle needs an empty deck and a waste. *)
Definition legal (state : GameState) (m : Move) : bool :=
  let p := Pyramid state in
  match m with
  | RemoveKing r c =>
      exposedSlot p r c && bool_decide (valueAt p r c = Some 13)
  | RemovePair r1 c1 r2 c2 =>
      exposedSlot p r1 c1 && exposedSlot p r2 c2
      && bool_decide ((r1, c1) <> (r2, c2))
      && sumsTo13 (valueAt p r1 c1) (valueAt p r2 c2)
  | RemoveWaste r c =>
      exposedSlot p r c
      && sumsTo13 (last (Waste state) ≫= getCardValue) (valueAt p r c)
  | DrawCard => bool_decide (Deck state <> [])
  | Recycle => bool_decide (Deck state = [] /\ Waste state <> [])
  end.

(** What the move does to a state, the line it adds to the log included. *)
Definition applyMove (state : GameState) (m : Move) : option GameState :=
  match m with
  | RemoveKing r c =>
      exp ← exposedAs (Pyramid state) r c; kingChild state exp
  | RemovePair r1 c1 r2 c2 =>
      a ← exposedAs (Pyramid state) r1 c1;
      b ← exposedAs (Pyramid state) r2 c2;
      pairChild state (a, b)
  | RemoveWaste r c =>
      topWaste ← last (Waste state);
      exp ← exposedAs (Pyramid state) r c;
      wasteChild state topWaste exp
  | DrawCard =>
      match Deck state with
      | drawn :: rest => drawChild state drawn rest
      | [] => None
      end
  | Recycle => Some (recycleChild state)
  end.

Definition replayMove (state : GameState) (m : Move) : option GameState :=
  if legal state m then applyMove state m else None.

Fixpoint replay (state : GameState) (ms : list Move) : option GameState :=
  match ms with
  | [] => Some state
  | m :: ms' => replayMove state m ≫= fun state' => replay state' ms'
  end.

(** The 52 card names, rank then suit, as [checkDeck] enumerates them. *)
Definition standardDeck : list string :=
  rank ← ranks; suit ← suits; [rank +:+ suit].

(** The value of each rank, as the specification lists them. *)
Definition rankTable : list (string * Z) :=
  [("a", 1); ("2", 2); ("3", 3); ("4", 4); ("5", 5); ("6", 6); ("7", 7);
   ("8", 8); ("9", 9); ("10", 10); ("j", 11); ("q", 12); ("k", 13)].

(** A well-formed card token: a rank and a suit, in either case. *)
Definition cardToken (card rank suit : string) : Prop :=
  Go.isASCII card = true /\ Go.lowerASCII card = rank +:+ suit
  /\ rank ∈ ranks /\ suit ∈ suits.

(** The first byte is a rank character, in either case. *)
Definition rankByte (c : ascii) : bool :=
  bool_decide (String (Go.lowerByte c) "" ∈ ranks).

(** How often the name [name] occurs among the lowered cards. *)
Definition occurrences (name : string) (cards : list string) : nat :=
  length (filter (fun c => c = name) (ToLower <$> cards)).

(** Drawing [n] times in a row: the draw block of [solveState], followed
    along its single child. *)
Fixpoint drawOut (n : nat) (state : GameState) : option GameState :=
  match n with
  | O => Some state
  | S n' =>
      match drawMoves state with
      | [child] => child ≫= drawOut n'
      | _ => Some state
      end
  end.

(** Drawing the whole deck back out. *)
Definition drawWholeDeck (state : GameState) : option GameState :=
  drawOut (length (Deck state)) state.

(** A card that a draw puts on the waste: it has a value, and is no King. *)
Definition staysInWaste (card : string) : Prop :=
  exists v, getCardValue card = Some v /\ v <> 13.

(** The byte [c] occurs in [s]. *)
Fixpoint occursIn (c : ascii) (s : string) : bool :=
  match s with
  | EmptyString => false
  | String c' s' => Ascii.eqb c c' || occursIn c s'
  end.

(** What the key needs of a card: it is not empty, it is not the text
    written for an empty slot, and it holds none of the three separators. *)
Definition plainToken (t : string) : Prop :=
  t <> "" /\ t <> "XX"
  /\ occursIn "," t = false /\ occursIn ";" t = false
  /\ occursIn "|" t = false.

Definition plainState (state : GameState) : Prop :=
  Forall (fun rowv => rowv <> []
                      /\ Forall (fun c => c = "" \/ plainToken c) rowv)
         (Pyramid state)
  /\ Forall plainToken (Deck state) /\ Forall plainToken (Waste state).

(** A card, in the sense of [cardToken]. *)
Definition isCard (t : string) : Prop := exists rank suit, cardToken t rank suit.

(** A state of cards: no row of the pyramid is without slots (the rows of
    the game have 1 to 7), every slot is empty or holds a card, and the
    deck and the waste hold cards. *)
Definition cardState (state : GameState) : Prop :=
  Forall (fun rowv => rowv <> [] /\ Forall (fun c => c = "" \/ isCard c) rowv)
         (Pyramid state)
  /\ Forall isCard (Deck state) /\ Forall isCard (Waste state).

(** What [writeRow] writes for one slot. *)
Definition slotText (c : string) : string :=
  if String.eqb c "" then "XX" else c.

(** A name that can stand in a key: used on the 52 names. *)
Definition plainName (name : string) : bool :=
  negb (String.eqb name "") && negb (String.eqb name "xx")
  && negb (occursIn "," name) && negb (occursIn ";" name)
  && negb (occursIn "|" name).

(** The result of a run is what the search starts from at one of the
    states the moves reach. *)
Definition fromReachable (state : GameState) (_ : gmap string Z)
    (res : Result) (_ : gmap string Z) : Prop :=
  exists final, reachable state final /\ res = best final.

(** A run only adds to the visited table: counts stay non-negative and no
    entry falls. *)
Definition climbs (_ : GameState) (visited : gmap string Z)
    (_ : Result) (visited' : gmap string Z) : Prop :=
  countsOK visited ->
  countsOK visited' /\ forall key, (level visited key <= level visited' key)%nat.

(** The empty slots of a row. *)
Definition empties (rowv : list string) : nat :=
  length (filter (fun c => c = "") rowv).

(** Two states with one pyramid, deck and waste: they differ in their
    logs at most. *)
Definition sameBoard (s t : GameState) : Prop :=
  Pyramid s = Pyramid t /\ Deck s = Deck t /\ Waste s = Waste t.

Definition sameChild (a b : option GameState) : Prop :=
  option_Forall2 sameBoard a b.

(** The key of the state has an entry in the visited table. *)
Definition seen (visited : gmap string Z) (state : GameState) : Prop :=
  is_Some (visited !! serializeState state).

(** What a run of the pruned search achieves for the states of a deal
    with at most [n] slots: the table only grows, the result counts at
    least the state's own removed cards, and either the result is a full
    clear, or the state is in the table and every state that entered the
    table during the run is counted in the result and has all its
    children in the table. *)
Definition covers (pyramid0 : list (list string)) (deck0 : list string)
    (state : GameState) (visited : gmap string Z)
    (res : Result) (visited' : gmap string Z) : Prop :=
  (forall t, seen visited t -> seen visited' t)
  /\ countRemoved (Pyramid state) <= RemovedCount res
  /\ (Z.of_nat (slots pyramid0) <= RemovedCount res
      \/ (seen visited' state
          /\ forall t, inDeal pyramid0 deck0 t ->
                       seen visited' t -> ~ seen visited t ->
                       countRemoved (Pyramid t) <= RemovedCount res
                       /\ forall c, step t c -> seen visited' c)).

(** What a run of the unpruned search achieves, when it returns: a full
    clear, or a count that no reachable state exceeds. *)
Definition exhausts (pyramid0 : list (list string))
    (state : GameState) (_ : gmap string Z)
    (res : Result) (_ : gmap string Z) : Prop :=
  countRemoved (Pyramid state) <= RemovedCount res
  /\ (Z.of_nat (slots pyramid0) <= RemovedCount res
      \/ forall t, reachable state t ->
                   countRemoved (Pyramid t) <= RemovedCount res).

(** A child the blocks build is the replay of a legal move. *)
Definition replayed (state : GameState) (child : option GameState) : Prop :=
  exists c m, child = Some c /\ replayMove state m = Some c.

(** How many pyramid cards a move removes. *)
Definition removedBy (m : Move) : Z :=
  match m with
  | RemoveKing _ _ | RemoveWaste _ _ => 1
  | RemovePair _ _ _ _ => 2
  | DrawCard | Recycle => 0
  end.
(** What a run leaves in the visited table: no entry falls, and the key of
    the state, unless its pyramid is empty, has an entry of at least the
    count of the state. *)
Definition records (state : GameState) (visited : gmap string Z)
    (_ : Result) (visited' : gmap string Z) : Prop :=
  countsOK visited ->
  countsOK visited'
  /\ (forall key, (level visited key <= level visited' key)%nat)
  /\ (isPyramidEmpty (Pyramid state) = false ->
      (Z.to_nat (countRemoved (Pyramid state))
       < level visited' (serializeState state))%nat).
(** The same board with the lines [pre] put before the log, and the same
    for a result, a flow and a run. *)
Definition relog (pre : list string) (state : GameState) : GameState :=
  mkState (Pyramid state) (Deck state) (Waste state) (pre ++ Moves state).

Definition relogResult (pre : list string) (res : Result) : Result :=
  mkResult (pre ++ ResultMoves res) (RemovedCount res).

Definition relogFlow (pre : list string) (f : flow) : flow :=
  match f with
  | Continue bestResult => Continue (relogResult pre bestResult)
  | Return bestResult => Return (relogResult pre bestResult)
  end.

Definition relogRun {A} (g : A -> A) (o : outcome (A * gmap string Z))
  : outcome (A * gmap string Z) :=
  match o with
  | Done (a, visited) => Done (g a, visited)
  | Panic => Panic
  | OutOfFuel => OutOfFuel
  end.

(** ** Theorems *)

(** *** getCardValue *)

Lemma ToLower_ascii_byte c :
  Go.isASCIIByte c = true ->
  ToLower (Go.stringOfByte c) = String (Go.lowerByte c) "".
Proof.
  intros Hc. unfold Go.stringOfByte. unfold Go.isASCIIByte in Hc.
  rewrite Hc. unfold ToLower. simpl. unfold Go.isASCIIByte. now rewrite Hc.
Qed.

Lemma getCardValue_cons c rest :
  getCardValue (String c rest) =
    if Go.HasPrefix (String c rest) "10" then Some 10
    else Some (rankValue (ToLower (Go.stringOfByte c))).
Proof. reflexivity. Qed.

Lemma HasPrefix_10_head c rest :
  Go.HasPrefix (String c rest) "10" = true -> c = "1"%char.
Proof.
  unfold Go.HasPrefix. cbn [String.prefix].
  destruct (ascii_dec "1" c); [congruence | discriminate].
Qed.

Lemma rankValue_range rank : 0 <= rankValue rank <= 13.
Proof.
  unfold rankValue.
  repeat match goal with |- context [if ?b then _ else _] => destruct b end; lia.
Qed.

Lemma getCardValue_total card :
  card <> "" -> exists v, getCardValue card = Some v /\ 0 <= v <= 13.
Proof.
  destruct card as [|c rest]; [congruence | intros _].
  rewrite getCardValue_cons. destruct (Go.HasPrefix _ _).
  - exists 10. split; [reflexivity | lia].
  - eexists. split; [reflexivity | apply rankValue_range].
Qed.

(** C10: the panic of [card[0]] is reached on the empty string and on no
    other input. *)
Theorem getCardValue_panics_only_on_empty card :
  getCardValue card = None <-> card = "".
Proof.
  split.
  - intros H. destruct card as [|c rest]; [reflexivity | exfalso].
    destruct (getCardValue_total (String c rest)) as (v & Hv & _); congruence.
  - intros ->. reflexivity.
Qed.

Lemma lowerByte_digit c d :
  Go.lowerByte c = d -> (N_of_ascii d < 97)%N -> c = d.
Proof.
  unfold Go.lowerByte. intros H Hd.
  destruct (_ && _)%N eqn:E; [| exact H].
  apply andb_prop in E as [E1 E2].
  apply N.leb_le in E1. apply N.leb_le in E2.
  subst d. rewrite N_ascii_embedding in Hd; lia.
Qed.

Lemma lowerASCII_app_inv s a b :
  Go.lowerASCII s = String a b ->
  exists c rest, s = String c rest /\ Go.lowerByte c = a /\ Go.lowerASCII rest = b.
Proof.
  destruct s as [|c rest]; simpl; [discriminate |].
  intros [= <- <-]. eauto.
Qed.

Lemma cardToken_value card rank suit v :
  cardToken card rank suit -> (rank, v) ∈ rankTable ->
  getCardValue card = Some v.
Proof.
  intros (Hascii & Hlow & Hrank & Hsuit) Hv.
  unfold rankTable in Hv.
  assert (Hone : forall a, rank = String a "" -> a <> "1"%char ->
                 rankValue (String a "") = v ->
                 getCardValue card = Some v).
  { intros a -> Ha Hval.
    apply lowerASCII_app_inv in Hlow as (c & rest & -> & Hc & _).
    rewrite getCardValue_cons.
    assert (Go.HasPrefix (String c rest) "10" = false) as ->.
    { destruct (Go.HasPrefix _ _) eqn:E; [| reflexivity].
      apply HasPrefix_10_head in E as ->. exfalso. apply Ha. now rewrite <- Hc. }
    simpl in Hascii. apply andb_prop in Hascii as [Hc0 _].
    rewrite (ToLower_ascii_byte _ Hc0), Hc. now rewrite Hval. }
  repeat (apply elem_of_cons in Hv as [Hv | Hv];
          [injection Hv as -> ->;
           first [ eapply Hone; [reflexivity | discriminate | reflexivity] | idtac ] |]);
    [| now apply elem_of_nil in Hv].
  (* rank "10" *)
  apply lowerASCII_app_inv in Hlow as (c & rest & -> & Hc & Hrest).
  apply lowerASCII_app_inv in Hrest as (c' & rest' & -> & Hc' & _).
  apply lowerByte_digit in Hc; [| vm_compute; reflexivity].
  apply lowerByte_digit in Hc'; [| vm_compute; reflexivity].
  subst. rewrite getCardValue_cons.
  now assert (Go.HasPrefix (String "1" (String "0" rest')) "10" = true) as ->
    by (destruct rest'; reflexivity).
Qed.

Lemma getCardValue_no_rank c rest :
  Go.HasPrefix (String c rest) "10" = false ->
  Go.isASCIIByte c = true -> rankByte c = false ->
  getCardValue (String c rest) = Some 0.
Proof.
  intros Hp Hc Hr. rewrite getCardValue_cons, Hp, (ToLower_ascii_byte _ Hc).
  f_equal. unfold rankByte in Hr. apply bool_decide_eq_false in Hr.
  unfold rankValue.
  repeat match goal with
  | |- context [String.eqb ?a ?b] =>
      destruct (String.eqb_spec a b) as [E|_];
      [exfalso; apply Hr; rewrite E; unfold ranks; set_solver |]
  end.
  reflexivity.
Qed.

Lemma stringOfByte_not_ascii c :
  Go.isASCIIByte c = false -> Go.isASCII (Go.stringOfByte c) = false.
Proof.
  destruct c as [[] [] [] [] [] [] [] []]; intros Hc; try discriminate Hc;
    reflexivity.
Qed.

Lemma rankValue_not_ascii rank :
  Go.isASCII rank = false -> rankValue rank = 0.
Proof.
  intros Hrank. unfold rankValue.
  repeat match goal with
  | |- context [String.eqb ?a ?b] =>
      destruct (String.eqb_spec a b) as [E|_];
      [rewrite E in Hrank; discriminate Hrank |]
  end.
  reflexivity.
Qed.

Lemma rankByte_not_ascii c : Go.isASCIIByte c = false -> rankByte c = false.
Proof.
  destruct c as [[] [] [] [] [] [] [] []]; intros Hc; try discriminate Hc;
    reflexivity.
Qed.

(** A first byte from 0x80 on: [string(card[0])] is the two-byte text of a
    character between U+0080 and U+00FF, and its lowering goes through the
    Unicode path.  When that path answers with a text that is not made of
    ASCII bytes, no [case] of the [switch] matches. *)
Lemma getCardValue_high_byte c rest :
  (forall b, Go.isASCIIByte b = false ->
             Go.isASCII (unicodeLower (Go.stringOfByte b)) = false) ->
  Go.isASCIIByte c = false ->
  getCardValue (String c rest) = Some 0.
Proof.
  intros Hlower Hc. rewrite getCardValue_cons.
  destruct (Go.HasPrefix (String c rest) "10") eqn:Hp.
  - apply HasPrefix_10_head in Hp. subst c. discriminate Hc.
  - f_equal. apply rankValue_not_ascii. unfold ToLower.
    rewrite (stringOfByte_not_ascii _ Hc). now apply Hlower.
Qed.

(** C7 (amended): a well-formed card token, in either case, has the value
    of its rank; a non-empty input whose first byte is an ASCII byte that
    starts no rank has value 0; the value is that of the rank the input
    starts with, whatever follows it; and, Go's [unicode.ToLower] taking a
    character between U+0080 and U+00FF to a character outside ASCII, every
    non-empty input that starts with no rank has value 0, whatever its first
    byte: a first byte from 0x80 on starts no rank. *)
Theorem getCardValue_by_rank :
  (forall card rank suit v,
      cardToken card rank suit -> (rank, v) ∈ rankTable ->
      getCardValue card = Some v)
  /\ (forall c rest,
        Go.HasPrefix (String c rest) "10" = false ->
        Go.isASCIIByte c = true -> rankByte c = false ->
        getCardValue (String c rest) = Some 0)
  /\ (forall c rest rest',
        Go.HasPrefix (String c rest) "10" = Go.HasPrefix (String c rest') "10" ->
        getCardValue (String c rest) = getCardValue (String c rest'))
  /\ ((forall b, Go.isASCIIByte b = false ->
                 Go.isASCII (unicodeLower (Go.stringOfByte b)) = false) ->
      (forall c rest,
          Go.HasPrefix (String c rest) "10" = false -> rankByte c = false ->
          getCardValue (String c rest) = Some 0)
      /\ (forall c rest,
            Go.isASCIIByte c = false ->
            rankByte c = false /\ getCardValue (String c rest) = Some 0)).
Proof.
  split; [apply cardToken_value | split; [apply getCardValue_no_rank |]].
  split; [intros c rest rest' H; now rewrite !getCardValue_cons, H |].
  intros Hlower. split.
  - intros c rest Hp Hr. destruct (Go.isASCIIByte c) eqn:Hc.
    + exact (getCardValue_no_rank _ _ Hp Hc Hr).
    + exact (getCardValue_high_byte _ _ Hlower Hc).
  - intros c rest Hc. split; [exact (rankByte_not_ascii _ Hc) |].
    exact (getCardValue_high_byte _ _ Hlower Hc).
Qed.

(** *** checkDeck *)

Lemma occurrences_cons name c cards :
  occurrences name (c :: cards) =
    if decide (ToLower c = name) then S (occurrences name cards)
    else occurrences name cards.
Proof.
  unfold occurrences. rewrite fmap_cons, filter_cons.
  destruct (decide (ToLower c = name)); reflexivity.
Qed.

Lemma countCards_step cards : forall (m : gmap string Z) name,
  foldl (fun cardCount card =>
           let cLower := ToLower card in
           <[cLower := default 0 (cardCount !! cLower) + 1]> cardCount)
        m cards !! name =
    if decide (occurrences name cards = 0%nat) then m !! name
    else Some (default 0 (m !! name) + Z.of_nat (occurrences name cards)).
Proof.
  induction cards as [|c cards IH]; intros m name; [reflexivity |].
  cbn [foldl]. rewrite IH, occurrences_cons.
  destruct (decide (ToLower c = name)) as [->|Hne].
  - rewrite lookup_insert_eq. cbn [default].
    destruct (decide (occurrences name cards = 0%nat)) as [E|E].
    + rewrite E. rewrite decide_False by lia. do 2 f_equal.
    + rewrite decide_False by lia. f_equal. unfold id. lia.
  - rewrite lookup_insert_ne by exact Hne. reflexivity.
Qed.

Lemma countCards_lookup cards name :
  countCards cards !! name =
    if decide (occurrences name cards = 0%nat) then None
    else Some (Z.of_nat (occurrences name cards)).
Proof.
  unfold countCards. rewrite countCards_step, lookup_empty.
  destruct (decide _); [reflexivity |]. cbn [default]. f_equal.
Qed.

Lemma firstError_nil {A} (body : A -> error) l :
  firstError body l = NilError <-> Forall (fun x => body x = NilError) l.
Proof.
  induction l as [|x l IH]; cbn [firstError].
  - split; [constructor | reflexivity].
  - rewrite Forall_cons. destruct (body x) eqn:E.
    + rewrite IH. tauto.
    + split; [discriminate | intros [? _]; discriminate].
Qed.

Lemma checkCard_nil cards rank suit :
  checkCard (countCards cards) rank suit = NilError
  <-> occurrences (rank +:+ suit) cards = 1%nat.
Proof.
  unfold checkCard. rewrite countCards_lookup.
  destruct (decide _) as [E|E].
  - split; [discriminate | lia].
  - destruct (Z.ltb_spec 1 (Z.of_nat (occurrences (rank +:+ suit) cards))).
    + split; [discriminate | lia].
    + split; [lia | reflexivity].
Qed.

Lemma checkDeck_nil_spec cards :
  checkDeck cards = NilError
  <-> length cards = 52%nat
      /\ forall name, name ∈ standardDeck -> occurrences name cards = 1%nat.
Proof.
  unfold checkDeck. destruct (Nat.eqb_spec (length cards) 52) as [Hl|Hl];
    cbn [negb].
  - rewrite firstError_nil. split.
    + intros H. split; [exact Hl |]. intros name Hin.
      unfold standardDeck in Hin.
      apply list_elem_of_bind in Hin as (rank & Hin & Hrank).
      apply list_elem_of_bind in Hin as (suit & Hin & Hsuit).
      apply list_elem_of_singleton in Hin as ->.
      rewrite Forall_forall in H. specialize (H rank Hrank).
      rewrite firstError_nil, Forall_forall in H.
      now apply checkCard_nil, H.
    + intros [_ H]. apply Forall_forall. intros rank Hrank.
      apply firstError_nil, Forall_forall. intros suit Hsuit.
      apply checkCard_nil, H. unfold standardDeck.
      apply list_elem_of_bind. exists rank. split; [| exact Hrank].
      apply list_elem_of_bind. exists suit. split; [| exact Hsuit].
      now apply list_elem_of_singleton.
  - split; [discriminate | intros [? _]; contradiction].
Qed.

Lemma standardDeck_elem rank suit :
  rank ∈ ranks -> suit ∈ suits -> rank +:+ suit ∈ standardDeck.
Proof.
  intros Hr Hs. unfold standardDeck.
  apply list_elem_of_bind. exists rank. split; [| exact Hr].
  apply list_elem_of_bind. exists suit. split; [| exact Hs].
  now apply list_elem_of_singleton.
Qed.

Lemma firstError_Errorf {A} (body : A -> error) l msg :
  firstError body l = Errorf msg -> exists x, x ∈ l /\ body x = Errorf msg.
Proof.
  induction l as [|x l IH]; cbn [firstError]; [discriminate |].
  destruct (body x) eqn:E.
  - intros H. destruct (IH H) as (y & Hy & Hb). exists y. split; [now right | exact Hb].
  - intros [= <-]. exists x. split; [now left | exact E].
Qed.

Lemma checkCard_Errorf cards rank suit msg :
  checkCard (countCards cards) rank suit = Errorf msg ->
  (occurrences (rank +:+ suit) cards = 0%nat
   /\ msg = "missing card: " +:+ formatCard (rank +:+ suit))
  \/ ((1 < occurrences (rank +:+ suit) cards)%nat
      /\ msg = "duplicate card: " +:+ formatCard (rank +:+ suit) +:+ " (appears "
                 +:+ Go.fmtInt (Z.of_nat (occurrences (rank +:+ suit) cards))
                 +:+ " times)").
Proof.
  unfold checkCard. rewrite countCards_lookup.
  destruct (decide _) as [E|E].
  - intros [= <-]. now left.
  - destruct (Z.ltb_spec 1 (Z.of_nat (occurrences (rank +:+ suit) cards)));
      [| discriminate].
    intros [= <-]. right. split; [lia | reflexivity].
Qed.

(** C9: [checkDeck] returns [nil] exactly when there are 52 cards and each
    of the 52 names occurs once among the lowered cards; in every other
    case it returns an error: of the length when that is not 52, and
    otherwise of a name that is missing or of a name that occurs more than
    once. *)
Theorem checkDeck_nil_iff cards :
  (checkDeck cards = NilError
   <-> length cards = 52%nat
       /\ forall name, name ∈ standardDeck -> occurrences name cards = 1%nat)
  /\ (length cards <> 52%nat ->
      checkDeck cards = Errorf ("deck must contain 52 cards, but found "
                                  +:+ Go.fmtNat (length cards)))
  /\ (length cards = 52%nat -> checkDeck cards <> NilError ->
      exists name,
        name ∈ standardDeck
        /\ ((occurrences name cards = 0%nat
             /\ checkDeck cards = Errorf ("missing card: " +:+ formatCard name))
            \/ ((1 < occurrences name cards)%nat
                /\ checkDeck cards
                   = Errorf ("duplicate card: " +:+ formatCard name +:+ " (appears "
                               +:+ Go.fmtInt (Z.of_nat (occurrences name cards))
                               +:+ " times)")))).
Proof.
  split; [apply checkDeck_nil_spec | split].
  - intros Hlen. unfold checkDeck.
    now destruct (Nat.eqb_spec (length cards) 52).
  - intros Hlen Herr. unfold checkDeck in Herr |- *.
    destruct (Nat.eqb_spec (length cards) 52); [| contradiction]. cbn [negb] in *.
    destruct (firstError _ ranks) as [|msg] eqn:Hrun; [contradiction |].
    apply firstError_Errorf in Hrun as (rank & Hrank & Hrun).
    apply firstError_Errorf in Hrun as (suit & Hsuit & Hrun).
    exists (rank +:+ suit). split; [now apply standardDeck_elem |].
    apply checkCard_Errorf in Hrun as [[H0 ->]|[H1 ->]]; auto.
Qed.

(** *** The draw and recycle blocks *)

Lemma clonePyramid_id pyramid : clonePyramid pyramid = pyramid.
Proof. unfold clonePyramid. apply map_id. Qed.

Lemma cloneState_id state : cloneState state = state.
Proof. unfold cloneState. rewrite clonePyramid_id. now destruct state. Qed.

(** C4: when the front card of the deck is a King, the draw block has one
    child: the card is popped from the deck, the waste and the pyramid are
    those of the parent, and so is the count of removed pyramid cards. *)
Theorem draw_king_vanishes state drawn rest :
  Deck state = drawn :: rest -> getCardValue drawn = Some 13 ->
  exists child,
    drawMoves state = [Some child]
    /\ Deck child = rest
    /\ Waste child = Waste state
    /\ Pyramid child = Pyramid state
    /\ countRemoved (Pyramid child) = countRemoved (Pyramid state)
    /\ Moves child = Moves state ++ [textDrawKing drawn].
Proof.
  intros Hd Hv. unfold drawMoves, drawChild. rewrite Hd, Hv, cloneState_id.
  cbn. eexists. split; [reflexivity |]. cbn. repeat split.
Qed.

Lemma drawMoves_stays state drawn rest :
  Deck state = drawn :: rest -> staysInWaste drawn ->
  drawMoves state =
    [Some (mkState (Pyramid state) rest (Waste state ++ [drawn])
             (Moves state ++ [textDraw drawn]))].
Proof.
  intros Hd (v & Hv & Hk). unfold drawMoves, drawChild.
  rewrite Hd, Hv, cloneState_id. cbn.
  destruct (Z.eqb_spec v 13); [contradiction | reflexivity].
Qed.

Lemma drawOut_all deck : forall state,
  Deck state = deck -> Forall staysInWaste deck ->
  exists final,
    drawOut (length deck) state = Some final
    /\ Deck final = [] /\ Waste final = Waste state ++ deck
    /\ Pyramid final = Pyramid state.
Proof.
  induction deck as [|drawn rest IH]; intros state Hd Hall.
  - exists state. cbn. rewrite app_nil_r. auto.
  - apply Forall_cons in Hall as [Hdrawn Hrest]. cbn [length drawOut].
    rewrite (drawMoves_stays _ _ _ Hd Hdrawn). cbn [mbind option_bind].
    edestruct IH as (final & Hrun & Hdeck & Hwaste & Hpyr);
      [| exact Hrest | exists final; split; [exact Hrun |]]; [reflexivity |].
    cbn in Hwaste, Hpyr. rewrite Hwaste, <- app_assoc. auto.
Qed.

(** C5 (amended): the recycle block has a child only when the deck is empty
    and the waste is not; the child's deck is the waste reversed and its
    waste is empty; drawing that whole deck back out leaves the waste
    reversed, and a second recycle and drawing out gives the waste back. *)
Theorem recycle_reverses state :
  (recycleMoves state =
     if bool_decide (Deck state = [] /\ Waste state <> [])
     then [Some (recycleChild state)] else [])
  /\ Deck (recycleChild state) = reverse (Waste state)
  /\ Waste (recycleChild state) = []
  /\ Pyramid (recycleChild state) = Pyramid state
  /\ (Forall staysInWaste (Waste state) ->
      exists once twice,
        drawWholeDeck (recycleChild state) = Some once
        /\ Deck once = [] /\ Waste once = reverse (Waste state)
        /\ drawWholeDeck (recycleChild once) = Some twice
        /\ Deck twice = [] /\ Waste twice = Waste state).
Proof.
  split; [| split; [| split; [| split]]].
  - unfold recycleMoves. case_bool_decide as H.
    + destruct H as [-> H]. now destruct (Waste state).
    + destruct (Deck state), (Waste state); try reflexivity.
      exfalso. apply H. split; congruence.
  - unfold recycleChild. now rewrite cloneState_id.
  - reflexivity.
  - unfold recycleChild. now rewrite cloneState_id.
  - intros Hall. unfold drawWholeDeck.
    assert (Hrev : Forall staysInWaste (reverse (Waste state)))
      by now apply Forall_reverse.
    destruct (drawOut_all (reverse (Waste state)) (recycleChild state))
      as (once & Hrun & Hdeck & Hwaste & _);
      [unfold recycleChild; now rewrite cloneState_id | exact Hrev |].
    cbn in Hwaste.
    assert (Hd1 : Deck (recycleChild state) = reverse (Waste state))
      by (unfold recycleChild; now rewrite cloneState_id).
    assert (Hd2 : Deck (recycleChild once) = reverse (Waste once))
      by (unfold recycleChild; now rewrite cloneState_id).
    destruct (drawOut_all (reverse (Waste once)) (recycleChild once))
      as (twice & Hrun2 & Hdeck2 & Hwaste2 & _);
      [exact Hd2 | rewrite Hwaste, reverse_involutive; exact Hall |].
    exists once, twice. rewrite Hd1, Hrun, Hd2, Hrun2.
    cbn in Hwaste2. rewrite Hwaste2, Hwaste, reverse_involutive. auto 10.
Qed.

(** *** Exposed cards and removal *)

Lemma collect_elem {A B} (body : nat -> A -> option (list B)) l :
  forall i out x,
    collect body i l = Some out -> x ∈ out ->
    exists j a o, l !! j = Some a /\ body (i + j)%nat a = Some o /\ x ∈ o.
Proof.
  induction l as [|a l IH]; intros i out x Hrun Hx; cbn [collect] in Hrun.
  - injection Hrun as <-. now apply elem_of_nil in Hx.
  - destruct (body i a) as [here|] eqn:Hhere; [| discriminate].
    cbn in Hrun.
    destruct (collect body (S i) l) as [rest|] eqn:Hrest; [| discriminate].
    injection Hrun as <-. apply elem_of_app in Hx as [Hx|Hx].
    + exists 0%nat, a, here. rewrite Nat.add_0_r. auto.
    + destruct (IH _ _ _ Hrest Hx) as (j & a' & o & Hj & Ho & Hin).
      exists (S j), a', o. rewrite Nat.add_succ_r. auto.
Qed.

Lemma collect_total {A B} (body : nat -> A -> option (list B)) l :
  forall i,
    (forall j a, l !! j = Some a -> is_Some (body (i + j)%nat a)) ->
    is_Some (collect body i l).
Proof.
  induction l as [|a l IH]; intros i Hbody; cbn [collect]; [eauto |].
  destruct (Hbody 0%nat a eq_refl) as [here Hhere].
  rewrite Nat.add_0_r in Hhere. rewrite Hhere. cbn.
  destruct (IH (S i)) as [rest Hrest].
  - intros j a' Hj. specialize (Hbody (S j) a' Hj).
    now rewrite Nat.add_succ_r in Hbody.
  - rewrite Hrest. cbn. eauto.
Qed.

Lemma exposedAt_elem pyramid r c card o e :
  slot pyramid r c = Some card ->
  exposedAt pyramid r c card = Some o -> e ∈ o ->
  e = mkExposed r c card (value e)
  /\ exposedSlot pyramid r c = true
  /\ getCardValue card = Some (value e).
Proof.
  intros Hslot Hrun He. unfold exposedAt in Hrun.
  unfold exposedSlot, occupied, emptySlot. rewrite Hslot.
  destruct (String.eqb card "") eqn:Hcard.
  { injection Hrun as <-. now apply elem_of_nil in He. }
  cbn [negb andb].
  destruct (r =? length pyramid - 1)%nat eqn:Hlast; cbn in Hrun |- *.
  - destruct (getCardValue card) as [v|] eqn:Hv; [| discriminate].
    injection Hrun as <-. apply list_elem_of_singleton in He as ->. auto.
  - destruct (slot pyramid (r + 1) c) as [l|]; [| discriminate]. cbn in Hrun.
    destruct (String.eqb l ""); cbn in Hrun.
    + destruct (slot pyramid (r + 1) (c + 1)) as [l'|]; [| discriminate].
      cbn in Hrun. destruct (String.eqb l' ""); cbn in Hrun.
      * destruct (getCardValue card) as [v|] eqn:Hv; [| discriminate].
        injection Hrun as <-. apply list_elem_of_singleton in He as ->. auto.
      * injection Hrun as <-. now apply elem_of_nil in He.
    + injection Hrun as <-. now apply elem_of_nil in He.
Qed.

Lemma getExposedCards_elem pyramid exposed e :
  getExposedCards pyramid = Some exposed -> e ∈ exposed ->
  slot pyramid (row e) (col e) = Some (card e)
  /\ exposedSlot pyramid (row e) (col e) = true
  /\ getCardValue (card e) = Some (value e).
Proof.
  intros Hrun He. unfold getExposedCards in Hrun.
  destruct (collect_elem _ _ _ _ _ Hrun He) as (r & rowv & o & Hr & Ho & Hin).
  destruct (collect_elem _ _ _ _ _ Ho Hin) as (c & cardv & o' & Hc & Ho' & Hin').
  cbn in Ho'.
  assert (Hslot : slot pyramid r c = Some cardv)
    by (unfold slot; rewrite Hr; exact Hc).
  destruct (exposedAt_elem _ _ _ _ _ _ Hslot Ho' Hin') as (-> & Hexp & Hv).
  cbn. auto.
Qed.

Lemma occupied_slot pyramid r c :
  occupied pyramid r c = true <->
  exists card, slot pyramid r c = Some card /\ card <> "".
Proof.
  unfold occupied. destruct (slot pyramid r c) as [card|].
  - destruct (String.eqb_spec card ""); cbn.
    + split; [discriminate | intros (? & [= <-] & ?); contradiction].
    + split; eauto.
  - split; [discriminate | intros (? & ? & _); discriminate].
Qed.

Lemma removeAt_None pyramid r c :
  removeAt pyramid r c = None <-> slot pyramid r c = None.
Proof.
  unfold removeAt, slot. destruct (pyramid !! r) as [rowv|]; cbn; [| tauto].
  destruct (decide (c < length rowv)%nat) as [Hc|Hc].
  - apply lookup_lt_is_Some in Hc as [x Hx]. rewrite Hx. split; discriminate.
  - split; [intros _ | reflexivity]. apply lookup_ge_None. lia.
Qed.

Lemma removeAt_Some pyramid r c card :
  slot pyramid r c = Some card ->
  exists rowv, pyramid !! r = Some rowv /\ rowv !! c = Some card
               /\ removeAt pyramid r c = Some (<[r := <[c := ""]> rowv]> pyramid).
Proof.
  unfold removeAt, slot. destruct (pyramid !! r) as [rowv|]; cbn; [| discriminate].
  intros Hc. exists rowv. repeat split; [exact Hc |].
  rewrite decide_True; [reflexivity | now apply lookup_lt_Some in Hc].
Qed.

Lemma removeAt_empty pyramid r c :
  slot pyramid r c = Some "" -> removeAt pyramid r c = Some pyramid.
Proof.
  intros H. destruct (removeAt_Some _ _ _ _ H) as (rowv & Hr & Hc & ->).
  f_equal. rewrite (list_insert_id rowv c "" Hc).
  now apply list_insert_id.
Qed.

(** C8 (amended): a removal is the assignment [pyramid[row][col] = ""]; it
    fails exactly when the position is out of bounds, and on a slot that is
    already empty it succeeds and leaves the pyramid as it was; the
    positions [getExposedCards] returns are in bounds and occupied. *)
Theorem removeAt_fails_only_out_of_bounds pyramid r c :
  (removeAt pyramid r c = None <-> slot pyramid r c = None)
  /\ (slot pyramid r c = Some "" -> removeAt pyramid r c = Some pyramid)
  /\ (forall exposed e,
        getExposedCards pyramid = Some exposed -> e ∈ exposed ->
        occupied pyramid (row e) (col e) = true
        /\ is_Some (removeAt pyramid (row e) (col e))).
Proof.
  split; [apply removeAt_None | split; [apply removeAt_empty |]].
  intros exposed e Hrun He.
  destruct (getExposedCards_elem _ _ _ Hrun He) as (Hslot & Hexp & _).
  unfold exposedSlot in Hexp. apply andb_prop in Hexp as [Hocc _].
  split; [exact Hocc |].
  destruct (removeAt_Some _ _ _ _ Hslot) as (? & _ & _ & ->). eauto.
Qed.

(** *** The key of the visited table *)

Lemma append_cons c a b : String c a +:+ b = String c (a +:+ b).
Proof. reflexivity. Qed.

Lemma append_nil_l b : "" +:+ b = b.
Proof. reflexivity. Qed.

Lemma append_nil_r a : a +:+ "" = a.
Proof. induction a as [|x a IH]; [reflexivity |]. now rewrite append_cons, IH. Qed.

Lemma occursIn_app c a b : occursIn c (a +:+ b) = occursIn c a || occursIn c b.
Proof.
  induction a as [|x a IH]; [reflexivity |].
  rewrite append_cons. cbn [occursIn]. now rewrite IH, orb_assoc.
Qed.

Lemma occursIn_head c b : occursIn c (String c b) = true.
Proof. cbn. now rewrite Ascii.eqb_refl. Qed.

Lemma append_split_unique c a1 : forall a2 b1 b2,
  occursIn c a1 = false -> occursIn c a2 = false ->
  a1 +:+ String c b1 = a2 +:+ String c b2 -> a1 = a2 /\ b1 = b2.
Proof.
  induction a1 as [|x a1 IH]; intros [|y a2] b1 b2 H1 H2 E;
    rewrite ?append_cons, ?append_nil_l in E.
  - now injection E as ->.
  - injection E as <- _. now rewrite occursIn_head in H2.
  - injection E as -> _. now rewrite occursIn_head in H1.
  - injection E as -> E. cbn in H1, H2.
    apply orb_false_elim in H1 as [_ H1]. apply orb_false_elim in H2 as [_ H2].
    destruct (IH _ _ _ H1 H2 E) as [-> ->]. auto.
Qed.

Lemma Join_cons e e' rest sep :
  Go.Join (e :: e' :: rest) sep = e +:+ sep +:+ Go.Join (e' :: rest) sep.
Proof. reflexivity. Qed.

Lemma append_empty a b : a +:+ b = "" -> a = "" /\ b = "".
Proof. destruct a; [now rewrite append_nil_l | discriminate]. Qed.

Lemma Join_empty l sep :
  Forall (fun e => e <> "") l -> Go.Join l sep = "" -> l = [].
Proof.
  destruct l as [|e [|e' rest]]; [reflexivity | |]; intros Hall E;
    apply Forall_cons in Hall as [He _].
  - contradiction.
  - rewrite Join_cons in E. apply append_empty in E as [-> _]. contradiction.
Qed.

Lemma occursIn_Join c sepc l :
  c <> sepc -> Forall (fun e => occursIn c e = false) l ->
  occursIn c (Go.Join l (String sepc "")) = false.
Proof.
  intros Hne. induction l as [|e [|e' rest] IH]; intros Hall; [reflexivity | |];
    apply Forall_cons in Hall as [He Hrest].
  - exact He.
  - rewrite Join_cons, !occursIn_app, He, (IH Hrest). cbn.
    destruct (Ascii.eqb_spec c sepc); [contradiction | reflexivity].
Qed.

Lemma Join_inj sepc l1 : forall l2,
  Forall (fun e => e <> "" /\ occursIn sepc e = false) l1 ->
  Forall (fun e => e <> "" /\ occursIn sepc e = false) l2 ->
  Go.Join l1 (String sepc "") = Go.Join l2 (String sepc "") -> l1 = l2.
Proof.
  assert (Hne : forall l, Forall (fun e => e <> "" /\ occursIn sepc e = false) l ->
                          Forall (fun e => e <> "") l).
  { intros l Hl. eapply Forall_impl; [exact Hl | now intros e [? _]]. }
  induction l1 as [|e l1 IH]; intros l2 H1 H2 E.
  - symmetry in E. apply Join_empty in E; auto.
  - destruct l2 as [|e' l2]; [apply Join_empty in E; auto |].
    apply Forall_cons in H1 as [[_ He] H1]. apply Forall_cons in H2 as [[_ He'] H2].
    destruct l1 as [|x l1], l2 as [|y l2]; rewrite ?Join_cons in E.
    + cbn in E. now subst.
    + cbn [Go.Join] in E. subst e.
      now rewrite occursIn_app, append_cons, occursIn_head, orb_true_r in He.
    + cbn [Go.Join] in E. subst e'.
      now rewrite occursIn_app, append_cons, occursIn_head, orb_true_r in He'.
    + rewrite !append_cons, !append_nil_l in E.
      apply append_split_unique in E as [-> E]; [| assumption ..].
      f_equal. now apply IH.
Qed.

Lemma writeRow_Join rowv : writeRow rowv = Go.Join (slotText <$> rowv) ",".
Proof.
  induction rowv as [|c [|c' rest] IH]; [reflexivity | |].
  - cbn [writeRow fmap list_fmap Go.Join]. now rewrite append_nil_l, append_nil_r.
  - cbn [writeRow] in IH |- *. rewrite IH. reflexivity.
Qed.

Lemma writePyramid_Join pyramid :
  writePyramid pyramid = Go.Join (writeRow <$> pyramid) ";".
Proof.
  induction pyramid as [|r [|r' rest] IH]; [reflexivity | |].
  - cbn [writePyramid fmap list_fmap Go.Join].
    now rewrite append_nil_l, append_nil_r.
  - cbn [writePyramid] in IH |- *. rewrite IH. reflexivity.
Qed.

Lemma slotText_plain c :
  c = "" \/ plainToken c ->
  slotText c <> "" /\ occursIn "," (slotText c) = false
  /\ occursIn ";" (slotText c) = false /\ occursIn "|" (slotText c) = false.
Proof.
  unfold slotText. intros [->|(H1 & _ & H2 & H3 & H4)].
  - cbn. repeat split. discriminate.
  - destruct (String.eqb_spec c ""); [contradiction | auto].
Qed.

Lemma slotText_inj c1 c2 :
  c1 = "" \/ plainToken c1 -> c2 = "" \/ plainToken c2 ->
  slotText c1 = slotText c2 -> c1 = c2.
Proof.
  unfold slotText. intros H1 H2.
  destruct (String.eqb_spec c1 ""), (String.eqb_spec c2 ""); subst; auto.
  - intros <-. destruct H2 as [?|(_ & ? & _)]; contradiction.
  - intros ->. destruct H1 as [?|(_ & ? & _)]; contradiction.
Qed.

Lemma fmap_inj_on {A B} (f : A -> B) (P : A -> Prop) l1 : forall l2,
  (forall a b, P a -> P b -> f a = f b -> a = b) ->
  Forall P l1 -> Forall P l2 -> f <$> l1 = f <$> l2 -> l1 = l2.
Proof.
  induction l1 as [|a l1 IH]; intros [|b l2] Hf H1 H2 E; try discriminate;
    [reflexivity |].
  apply Forall_cons in H1 as [Ha H1]. apply Forall_cons in H2 as [Hb H2].
  injection E as E1 E2. f_equal; eauto.
Qed.

Lemma writeRow_plain rowv :
  rowv <> [] /\ Forall (fun c => c = "" \/ plainToken c) rowv ->
  writeRow rowv <> "" /\ occursIn ";" (writeRow rowv) = false
  /\ occursIn "|" (writeRow rowv) = false.
Proof.
  intros [Hne Hall]. rewrite writeRow_Join. repeat split.
  - intros E. apply Join_empty in E.
    + destruct rowv; [contradiction | discriminate].
    + apply Forall_fmap. eapply Forall_impl; [exact Hall |].
      intros c Hc. now apply slotText_plain.
  - apply occursIn_Join; [discriminate |]. apply Forall_fmap.
    eapply Forall_impl; [exact Hall |]. intros c Hc. now apply slotText_plain.
  - apply occursIn_Join; [discriminate |]. apply Forall_fmap.
    eapply Forall_impl; [exact Hall |]. intros c Hc. now apply slotText_plain.
Qed.

Lemma writeRow_inj r1 r2 :
  Forall (fun c => c = "" \/ plainToken c) r1 ->
  Forall (fun c => c = "" \/ plainToken c) r2 ->
  writeRow r1 = writeRow r2 -> r1 = r2.
Proof.
  intros H1 H2. rewrite !writeRow_Join. intros E.
  apply Join_inj in E.
  - eapply fmap_inj_on; [| exact H1 | exact H2 | exact E].
    intros a b. apply slotText_inj.
  - apply Forall_fmap. eapply Forall_impl; [exact H1 |].
    intros c Hc. cbn. destruct (slotText_plain c Hc) as (? & ? & _). auto.
  - apply Forall_fmap. eapply Forall_impl; [exact H2 |].
    intros c Hc. cbn. destruct (slotText_plain c Hc) as (? & ? & _). auto.
Qed.

Lemma writePyramid_inj p1 p2 :
  Forall (fun rowv => rowv <> [] /\ Forall (fun c => c = "" \/ plainToken c) rowv) p1 ->
  Forall (fun rowv => rowv <> [] /\ Forall (fun c => c = "" \/ plainToken c) rowv) p2 ->
  writePyramid p1 = writePyramid p2 -> p1 = p2.
Proof.
  intros H1 H2. rewrite !writePyramid_Join. intros E.
  apply Join_inj in E.
  - eapply fmap_inj_on; [| exact H1 | exact H2 | exact E].
    intros a b [_ Ha] [_ Hb]. now apply writeRow_inj.
  - apply Forall_fmap. eapply Forall_impl; [exact H1 |].
    intros r Hr. cbn. destruct (writeRow_plain r Hr) as (? & ? & _). auto.
  - apply Forall_fmap. eapply Forall_impl; [exact H2 |].
    intros r Hr. cbn. destruct (writeRow_plain r Hr) as (? & ? & _). auto.
Qed.

Lemma writePyramid_no_bar p :
  Forall (fun rowv => rowv <> [] /\ Forall (fun c => c = "" \/ plainToken c) rowv) p ->
  occursIn "|" (writePyramid p) = false.
Proof.
  intros H. rewrite writePyramid_Join. apply occursIn_Join; [discriminate |].
  apply Forall_fmap. eapply Forall_impl; [exact H |].
  intros r Hr. cbn. now destruct (writeRow_plain r Hr) as (_ & _ & ?).
Qed.

Lemma Join_plain_no_bar l :
  Forall plainToken l -> occursIn "|" (Go.Join l ",") = false.
Proof.
  intros H. apply occursIn_Join; [discriminate |].
  eapply Forall_impl; [exact H |]. now intros t (_ & _ & _ & _ & ?).
Qed.

Lemma Join_plain_inj l1 l2 :
  Forall plainToken l1 -> Forall plainToken l2 ->
  Go.Join l1 "," = Go.Join l2 "," -> l1 = l2.
Proof.
  intros H1 H2. apply Join_inj.
  - eapply Forall_impl; [exact H1 |]. now intros t (? & _ & ? & _).
  - eapply Forall_impl; [exact H2 |]. now intros t (? & _ & ? & _).
Qed.

Lemma serializeState_inj s1 s2 :
  plainState s1 -> plainState s2 ->
  serializeState s1 = serializeState s2 ->
  Pyramid s1 = Pyramid s2 /\ Deck s1 = Deck s2 /\ Waste s1 = Waste s2.
Proof.
  intros (Hp1 & Hd1 & Hw1) (Hp2 & Hd2 & Hw2). unfold serializeState. intros E.
  apply append_split_unique in E as [Ep E]; [| now apply writePyramid_no_bar ..].
  apply append_split_unique in E as [Ed Ew]; [| now apply Join_plain_no_bar ..].
  repeat split.
  - now apply writePyramid_inj.
  - now apply Join_plain_inj.
  - now apply Join_plain_inj.
Qed.

Lemma standardDeck_plain : forallb plainName standardDeck = true.
Proof. vm_compute. reflexivity. Qed.

Lemma standardDeck_name name :
  name ∈ standardDeck -> plainName name = true.
Proof.
  intros H. pose proof standardDeck_plain as Hall.
  rewrite forallb_forall in Hall. apply Hall. now apply list_elem_of_In.
Qed.

Lemma lowerByte_other c d :
  Go.lowerByte c = d ->
  (N_of_ascii d < 65 \/ 90 < N_of_ascii d < 97 \/ 122 < N_of_ascii d)%N ->
  c = d.
Proof.
  unfold Go.lowerByte. intros H Hd.
  destruct (_ && _)%N eqn:E; [| exact H].
  apply andb_prop in E as [E1 E2].
  apply N.leb_le in E1. apply N.leb_le in E2.
  subst d. rewrite N_ascii_embedding in Hd; lia.
Qed.

Lemma occursIn_lowerASCII sep s :
  (N_of_ascii sep < 65 \/ 90 < N_of_ascii sep < 97 \/ 122 < N_of_ascii sep)%N ->
  occursIn sep (Go.lowerASCII s) = occursIn sep s.
Proof.
  intros Hsep. induction s as [|x s IH]; [reflexivity |].
  cbn [Go.lowerASCII occursIn]. rewrite IH. f_equal.
  destruct (Ascii.eqb_spec sep x) as [<-|Hne].
  - unfold Go.lowerByte.
    destruct (_ && _)%N eqn:E; [| apply Ascii.eqb_refl].
    apply andb_prop in E as [E1 E2].
    apply N.leb_le in E1. apply N.leb_le in E2. lia.
  - destruct (Ascii.eqb_spec sep (Go.lowerByte x)) as [E|]; [| reflexivity].
    symmetry in E. apply lowerByte_other in E; [| exact Hsep]. congruence.
Qed.

Lemma ascii_name_plain t :
  Go.isASCII t = true -> Go.lowerASCII t ∈ standardDeck -> plainToken t.
Proof.
  intros Hascii Hname. apply standardDeck_name in Hname.
  unfold plainName in Hname.
  repeat (apply andb_prop in Hname as [Hname ?]).
  repeat match goal with
         | H : negb _ = true |- _ => apply negb_true_iff in H
         end.
  repeat split.
  - intros ->. discriminate.
  - intros ->. discriminate.
  - rewrite <- (occursIn_lowerASCII "," t); [assumption | vm_compute; auto].
  - rewrite <- (occursIn_lowerASCII ";" t); [assumption | vm_compute; auto].
  - rewrite <- (occursIn_lowerASCII "|" t); [assumption |].
    right. right. vm_compute. reflexivity.
Qed.

Lemma isCard_plain t : isCard t -> plainToken t.
Proof.
  intros (rank & suit & Hascii & Hlow & Hr & Hs).
  apply ascii_name_plain; [exact Hascii |].
  rewrite Hlow. now apply standardDeck_elem.
Qed.

Lemma cardState_plain state : cardState state -> plainState state.
Proof.
  intros (Hp & Hd & Hw). repeat split.
  - eapply Forall_impl; [exact Hp |]. intros rowv [Hne Hrow]. split; [exact Hne |].
    eapply Forall_impl; [exact Hrow |]. intros c [->|Hc]; [now left | right].
    now apply isCard_plain.
  - eapply Forall_impl; [exact Hd |]. apply isCard_plain.
  - eapply Forall_impl; [exact Hw |]. apply isCard_plain.
Qed.

(** C6: the key is made of the pyramid, the deck and the waste alone, so
    two states that agree on them have one key, whatever their move logs,
    and the second is cut off once the first is in the visited table;
    two states of cards with one key agree on pyramid, deck and waste. *)
Theorem serializeState_signature s1 s2 :
  (Pyramid s1 = Pyramid s2 -> Deck s1 = Deck s2 -> Waste s1 = Waste s2 ->
   serializeState s1 = serializeState s2
   /\ forall visited,
       alreadySeen (<[serializeState s1 := countRemoved (Pyramid s1)]> visited)
         (serializeState s2) (countRemoved (Pyramid s2)) = true)
  /\ (cardState s1 -> cardState s2 ->
      serializeState s1 = serializeState s2 ->
      Pyramid s1 = Pyramid s2 /\ Deck s1 = Deck s2 /\ Waste s1 = Waste s2).
Proof.
  split.
  - intros Hp Hd Hw. unfold serializeState, alreadySeen.
    rewrite Hp, Hd, Hw. split; [reflexivity |]. intros visited.
    rewrite lookup_insert_eq. apply Z.leb_refl.
  - intros H1 H2. apply serializeState_inj; now apply cardState_plain.
Qed.

(** *** The blocks of [solveState] as one loop *)

Lemma explore_app solve a b bestResult visited :
  explore solve (a ++ b) bestResult visited =
    andThen (explore solve a bestResult visited) (explore solve b).
Proof.
  revert bestResult visited.
  induction a as [|[c|] a IH]; intros bestResult visited; cbn [app explore];
    [reflexivity | | reflexivity].
  destruct (solve c visited) as [[res visited']| |]; [| reflexivity ..].
  destruct (compare res bestResult); [apply IH | reflexivity].
Qed.

Lemma expand_allMoves solve state bestResult visited children :
  allMoves state = Some children ->
  expand solve state bestResult visited =
    match explore solve children bestResult visited with
    | Done (Continue bestResult, visited)
    | Done (Return bestResult, visited) => Done (bestResult, visited)
    | Panic => Panic
    | OutOfFuel => OutOfFuel
    end.
Proof.
  unfold allMoves, expand.
  destruct (getExposedCards (Pyramid state)) as [exposed|]; [| discriminate].
  cbn [mbind option_bind].
  destruct (wasteMoves state _) as [w|]; [| discriminate].
  cbn [mbind option_bind]. intros [= <-].
  now rewrite !explore_app.
Qed.

Lemma insertBack_perm {A} (less : A -> A -> bool) x l :
  insertBack less x l ≡ₚ x :: l.
Proof.
  induction l as [|y l IH]; [reflexivity |]. cbn [insertBack].
  destruct (less x y); [| reflexivity].
  rewrite IH. apply Permutation_swap.
Qed.

Lemma sortSlice_perm {A} (less : A -> A -> bool) l : sortSlice less l ≡ₚ l.
Proof.
  unfold sortSlice. rewrite reverse_Permutation.
  assert (H : forall acc, foldl (fun sortedRev x => insertBack less x sortedRev) acc l
                            ≡ₚ l ++ acc).
  { induction l as [|x l IH]; intros acc; [reflexivity |]. cbn [foldl].
    rewrite IH, insertBack_perm. symmetry. apply Permutation_middle. }
  now rewrite H, app_nil_r.
Qed.

Lemma pairsOf_elem {A} (l : list A) a b :
  (a, b) ∈ pairsOf l -> a ∈ l /\ b ∈ l.
Proof.
  induction l as [|x l IH]; cbn [pairsOf]; [intros H; now apply elem_of_nil in H |].
  intros H. apply elem_of_app in H as [H|H].
  - apply list_elem_of_fmap in H as (y & [= -> ->] & Hy).
    split; [left | now right].
  - destruct (IH H). split; now right.
Qed.

Lemma pairsOf_NoDup {A} (l : list A) a b :
  NoDup l -> (a, b) ∈ pairsOf l -> a <> b.
Proof.
  induction l as [|x l IH]; cbn [pairsOf]; [intros _ H; now apply elem_of_nil in H |].
  intros Hnd H. apply NoDup_cons in Hnd as [Hx Hnd].
  apply elem_of_app in H as [H|H].
  - apply list_elem_of_fmap in H as (y & [= -> ->] & Hy). congruence.
  - now apply IH.
Qed.

(** *** Exposed cards of a regular pyramid *)

Lemma exposedAt_shape pyramid r c cardv o :
  exposedAt pyramid r c cardv = Some o ->
  o = [] \/ exists v, o = [mkExposed r c cardv v].
Proof.
  unfold exposedAt. destruct (String.eqb cardv ""); [intros [= <-]; now left |].
  destruct (r =? length pyramid - 1)%nat; cbn.
  - destruct (getCardValue cardv) as [v|]; [| discriminate].
    intros [= <-]. right. eauto.
  - destruct (slot pyramid (r + 1) c) as [l|]; [| discriminate]. cbn.
    destruct (String.eqb l ""); cbn; [| intros [= <-]; now left].
    destruct (slot pyramid (r + 1) (c + 1)) as [l'|]; [| discriminate]. cbn.
    destruct (String.eqb l' ""); cbn; [| intros [= <-]; now left].
    destruct (getCardValue cardv) as [v|]; [| discriminate].
    intros [= <-]. right. eauto.
Qed.

Lemma collect_NoDup {A B} (key : B -> nat) (body : nat -> A -> option (list B)) l :
  (forall i a o, body i a = Some o -> NoDup o /\ Forall (fun x => key x = i) o) ->
  forall i out,
    collect body i l = Some out ->
    NoDup out /\ Forall (fun x => (i <= key x)%nat) out.
Proof.
  intros Hbody. induction l as [|a l IH]; intros i out Hrun; cbn [collect] in Hrun.
  - injection Hrun as <-. split; constructor.
  - destruct (body i a) as [here|] eqn:Hhere; [| discriminate]. cbn in Hrun.
    destruct (collect body (S i) l) as [rest|] eqn:Hrest; [| discriminate].
    injection Hrun as <-.
    destruct (Hbody _ _ _ Hhere) as [Hnd Hkey].
    destruct (IH _ _ Hrest) as [Hnd' Hkey'].
    rewrite Forall_forall in Hkey, Hkey'. split.
    + apply NoDup_app. repeat split; [exact Hnd | | exact Hnd'].
      intros x Hx Hx'. specialize (Hkey _ Hx). specialize (Hkey' _ Hx'). lia.
    + apply Forall_app. split; apply Forall_forall; intros x Hx.
      * rewrite (Hkey _ Hx). lia.
      * specialize (Hkey' _ Hx). lia.
Qed.

Lemma getExposedCards_NoDup pyramid exposed :
  getExposedCards pyramid = Some exposed -> NoDup exposed.
Proof.
  intros Hrun. unfold getExposedCards in Hrun.
  eapply (collect_NoDup row) in Hrun; [exact (proj1 Hrun) |].
  intros r rowv o Ho. split.
  - eapply (collect_NoDup col) in Ho; [exact (proj1 Ho) |].
    intros c cardv o' Ho'. destruct (exposedAt_shape _ _ _ _ _ Ho') as [->|[v ->]].
    + split; constructor.
    + split; [apply NoDup_singleton | now repeat constructor].
  - apply Forall_forall. intros e He.
    destruct (collect_elem _ _ _ _ _ Ho He) as (c & cardv & o' & _ & Ho' & Hin).
    destruct (exposedAt_shape _ _ _ _ _ Ho') as [->|[v ->]].
    + now apply elem_of_nil in Hin.
    + now apply list_elem_of_singleton in Hin as ->.
Qed.

Lemma regular_lookup pyramid : forall r rowv next,
  regular pyramid -> pyramid !! r = Some rowv -> pyramid !! S r = Some next ->
  (length rowv < length next)%nat.
Proof.
  induction pyramid as [|r1 rest IH]; intros r rowv next Hreg Hr Hn; [discriminate |].
  destruct rest as [|r2 rest]; [destruct r; discriminate |].
  change ((length r1 < length r2)%nat /\ regular (r2 :: rest)) in Hreg.
  destruct Hreg as [Hlt Hreg].
  destruct r as [|r].
  - now injection Hr as <-; injection Hn as <-.
  - eapply IH; [exact Hreg | exact Hr | exact Hn].
Qed.

Lemma getCardValue_is_Some cardv : cardv <> "" -> is_Some (getCardValue cardv).
Proof. intros H. destruct (getCardValue_total _ H) as (v & -> & _). eauto. Qed.

Lemma exposedAt_total pyramid r c rowv cardv :
  regular pyramid -> pyramid !! r = Some rowv -> rowv !! c = Some cardv ->
  is_Some (exposedAt pyramid r c cardv).
Proof.
  intros Hreg Hr Hc. unfold exposedAt.
  destruct (String.eqb_spec cardv "") as [|Hne]; [eauto |].
  destruct (getCardValue_is_Some _ Hne) as [v Hv].
  destruct (Nat.eqb_spec r (length pyramid - 1)) as [|Hlast]; cbn.
  { rewrite Hv. cbn. eauto. }
  assert (Hlt : (S r < length pyramid)%nat).
  { apply lookup_lt_Some in Hr. lia. }
  apply lookup_lt_is_Some in Hlt as [next Hnext].
  pose proof (regular_lookup _ _ _ _ Hreg Hr Hnext) as Hlen.
  apply lookup_lt_Some in Hc.
  assert (Hl : is_Some (next !! c)) by (apply lookup_lt_is_Some; lia).
  assert (Hl' : is_Some (next !! (c + 1)%nat)) by (apply lookup_lt_is_Some; lia).
  destruct Hl as [l Hl], Hl' as [l' Hl'].
  unfold slot. replace (r + 1)%nat with (S r) by lia.
  rewrite Hnext. cbn. rewrite Hl. cbn.
  destruct (String.eqb l ""); cbn; [| eauto].
  rewrite Hl'. cbn.
  destruct (String.eqb l' ""); cbn; [| eauto].
  rewrite Hv. cbn. eauto.
Qed.

Lemma getExposedCards_total pyramid :
  regular pyramid -> is_Some (getExposedCards pyramid).
Proof.
  intros Hreg. unfold getExposedCards. apply collect_total.
  intros r rowv Hr. cbn. apply collect_total.
  intros c cardv Hc. cbn. now apply (exposedAt_total _ _ _ rowv).
Qed.

Lemma exposedAs_elem pyramid exposed e :
  getExposedCards pyramid = Some exposed -> e ∈ exposed ->
  exposedAs pyramid (row e) (col e) = Some e
  /\ exposedSlot pyramid (row e) (col e) = true
  /\ valueAt pyramid (row e) (col e) = Some (value e).
Proof.
  intros Hrun He.
  destruct (getExposedCards_elem _ _ _ Hrun He) as (Hslot & Hexp & Hv).
  unfold exposedAs, valueAt. rewrite Hslot. cbn. rewrite Hv. cbn.
  now destruct e.
Qed.

(** *** Counting the removed cards *)

Lemma countRow_empties rowv : forall count,
  foldl (fun count cardv => if String.eqb cardv "" then count + 1 else count)
        count rowv = count + Z.of_nat (empties rowv).
Proof.
  unfold empties. induction rowv as [|c rowv IH]; intros count; cbn [foldl].
  - cbn. lia.
  - rewrite IH, filter_cons. destruct (String.eqb_spec c "") as [->|Hne].
    + rewrite decide_True by reflexivity. cbn [length]. lia.
    + now rewrite decide_False by exact Hne.
Qed.

Lemma countRemoved_empties pyramid :
  countRemoved pyramid = Z.of_nat (sum_list (empties <$> pyramid)).
Proof.
  unfold countRemoved.
  assert (H : forall count,
    foldl (fun count rowv =>
             foldl (fun count cardv => if String.eqb cardv "" then count + 1 else count)
                   count rowv) count pyramid
    = count + Z.of_nat (sum_list (empties <$> pyramid))).
  { induction pyramid as [|rowv pyramid IH]; intros count; cbn [foldl].
    - cbn. lia.
    - rewrite IH, countRow_empties. cbn. lia. }
  rewrite H. lia.
Qed.

Lemma empties_le rowv : (empties rowv <= length rowv)%nat.
Proof. apply length_filter. Qed.

Lemma empties_full rowv :
  empties rowv = length rowv <-> forallb (fun c => String.eqb c "") rowv = true.
Proof.
  unfold empties. induction rowv as [|c rowv IH]; [easy |].
  rewrite filter_cons. cbn [forallb length].
  pose proof (length_filter (fun c => c = "") rowv) as Hle.
  destruct (String.eqb_spec c "") as [->|Hne].
  - rewrite decide_True by reflexivity. cbn [length andb]. rewrite <- IH. lia.
  - rewrite decide_False by exact Hne. cbn [andb]. split; [lia | discriminate].
Qed.

Lemma countRemoved_range pyramid :
  0 <= countRemoved pyramid <= Z.of_nat (slots pyramid).
Proof.
  rewrite countRemoved_empties. split; [lia |]. apply inj_le. unfold slots.
  induction pyramid as [|rowv pyramid IH]; [reflexivity |]. cbn.
  pose proof (empties_le rowv). lia.
Qed.

Lemma countRemoved_full pyramid :
  countRemoved pyramid = Z.of_nat (slots pyramid)
  <-> isPyramidEmpty pyramid = true.
Proof.
  rewrite countRemoved_empties. unfold slots, isPyramidEmpty.
  rewrite Nat2Z.inj_iff.
  induction pyramid as [|rowv pyramid IH]; [easy |]. cbn [fmap list_fmap sum_list forallb].
  rewrite andb_true_iff, <- IH, <- empties_full.
  pose proof (empties_le rowv).
  assert (sum_list (empties <$> pyramid) <= sum_list (length <$> pyramid))%nat.
  { clear. induction pyramid as [|r p IH]; [reflexivity |]. cbn.
    pose proof (empties_le r). lia. }
  cbn. lia.
Qed.

Lemma masked_slots pyramid0 pyramid :
  masked pyramid0 pyramid -> slots pyramid = slots pyramid0.
Proof.
  unfold masked, slots. induction 1 as [|r0 r p0 p Hr _ IH]; [reflexivity |].
  cbn. apply Forall2_length in Hr. lia.
Qed.

(** *** The keys of a deal, and the measure *)

Lemma maskings_elem row0 rowv :
  Forall2 (fun c0 c => c = c0 \/ c = "") row0 rowv -> rowv ∈ maskings row0.
Proof.
  induction 1 as [|c0 c row0 rowv Hc _ IH]; cbn [maskings];
    [now apply list_elem_of_singleton |].
  apply list_elem_of_bind. exists rowv. split; [| exact IH].
  destruct Hc as [->| ->]; set_solver.
Qed.

Lemma maskedPyramids_elem pyramid0 pyramid :
  masked pyramid0 pyramid -> pyramid ∈ maskedPyramids pyramid0.
Proof.
  unfold masked. induction 1 as [|r0 r p0 p Hr _ IH]; cbn [maskedPyramids];
    [now apply list_elem_of_singleton |].
  apply list_elem_of_bind. exists r. split; [| now apply maskings_elem].
  apply list_elem_of_bind. exists p. split; [| exact IH].
  now apply list_elem_of_singleton.
Qed.

Lemma listsUpTo_elem deck0 l : forall n,
  Forall (fun c => c ∈ deck0) l -> (length l <= n)%nat -> l ∈ listsUpTo n deck0.
Proof.
  induction l as [|c l IH]; intros n Hall Hlen.
  - destruct n; cbn; [now apply list_elem_of_singleton | now left].
  - destruct n as [|n]; cbn in Hlen; [lia |]. cbn [listsUpTo].
    apply Forall_cons in Hall as [Hc Hall]. right.
    apply list_elem_of_bind. exists c. split; [| exact Hc].
    apply list_elem_of_bind. exists l. split; [| apply IH; [exact Hall | lia]].
    now apply list_elem_of_singleton.
Qed.

Lemma dealKeys_elem pyramid0 deck0 state :
  inDeal pyramid0 deck0 state -> serializeState state ∈ dealKeys pyramid0 deck0.
Proof.
  intros (Hm & Hd & Hw & Hlen). unfold dealKeys.
  apply list_elem_of_bind. exists (Pyramid state).
  split; [| now apply maskedPyramids_elem].
  apply list_elem_of_bind. exists (Deck state).
  split; [| apply listsUpTo_elem; [exact Hd | lia]].
  apply list_elem_of_bind. exists (Waste state).
  split; [| apply listsUpTo_elem; [exact Hw | lia]].
  now apply list_elem_of_singleton.
Qed.

Lemma room_mono n keys visited visited' :
  (forall key, (level visited key <= level visited' key)%nat) ->
  (room n keys visited' <= room n keys visited)%nat.
Proof.
  intros Hle. unfold room. induction keys as [|k keys IH]; [reflexivity |].
  cbn. specialize (Hle k). lia.
Qed.

Lemma room_less n keys visited visited' key :
  (forall key, (level visited key <= level visited' key)%nat) ->
  key ∈ keys ->
  (level visited key < level visited' key <= S n)%nat ->
  (room n keys visited' < room n keys visited)%nat.
Proof.
  intros Hle Hin Hkey. unfold room.
  induction keys as [|k keys IH]; [now apply elem_of_nil in Hin |].
  cbn. pose proof (room_mono n keys _ _ Hle) as Hrest. unfold room in Hrest.
  apply elem_of_cons in Hin as [<-|Hin].
  - lia.
  - specialize (IH Hin). specialize (Hle k). lia.
Qed.

Lemma insert_level visited key cur :
  countsOK visited -> 0 <= cur -> alreadySeen visited key cur = false ->
  countsOK (<[key := cur]> visited)
  /\ (forall k, (level visited k <= level (<[key := cur]> visited) k)%nat)
  /\ (level visited key < level (<[key := cur]> visited) key)%nat
  /\ level (<[key := cur]> visited) key = S (Z.to_nat cur).
Proof.
  intros Hok Hcur Hseen. unfold alreadySeen in Hseen.
  assert (Hkey : (level visited key < S (Z.to_nat cur))%nat).
  { unfold level. destruct (visited !! key) as [val|] eqn:Hval; [| lia].
    apply Z.leb_gt in Hseen. specialize (Hok _ _ Hval). cbn in Hok. lia. }
  assert (Hnew : level (<[key := cur]> visited) key = S (Z.to_nat cur)).
  { unfold level. now rewrite lookup_insert_eq. }
  repeat split.
  - now apply map_Forall_insert_2.
  - intros k. destruct (decide (key = k)) as [<-|Hne]; [lia |].
    unfold level. now rewrite lookup_insert_ne.
  - lia.
  - exact Hnew.
Qed.

(** *** Removal keeps a state in its deal *)

Lemma masked_regular pyramid0 : forall pyramid,
  masked pyramid0 pyramid -> regular pyramid0 -> regular pyramid.
Proof.
  unfold masked.
  induction pyramid0 as [|r1 rest IH]; intros pyramid Hm Hreg;
    inversion Hm as [|? r1' ? rest' H1 Hrest]; subst; [exact I |].
  destruct rest as [|r2 rest]; inversion Hrest as [|? r2' ? rest'' H2 Hrest']; subst;
    [exact I |].
  change ((length r1 < length r2)%nat /\ regular (r2 :: rest)) in Hreg.
  change ((length r1' < length r2')%nat /\ regular (r2' :: rest'')).
  destruct Hreg as [Hlt Hreg]. split.
  - apply Forall2_length in H1, H2. lia.
  - apply IH; assumption.
Qed.

Lemma Forall2_insert_r {A B} (R : A -> B -> Prop) l : forall k i y y',
  Forall2 R l k -> k !! i = Some y ->
  (forall x, l !! i = Some x -> R x y -> R x y') ->
  Forall2 R l (<[i := y']> k).
Proof.
  induction l as [|x l IH]; intros k i y y' H Hi Hy;
    inversion H as [|? z ? k' Hxz Hrest]; subst; [constructor |].
  destruct i as [|i]; cbn in Hi |- *.
  - injection Hi as ->. constructor; [now apply Hy | exact Hrest].
  - constructor; [exact Hxz |]. eapply IH; [exact Hrest | exact Hi |].
    intros x' Hx'. now apply Hy.
Qed.

Lemma removeAt_masked pyramid0 pyramid r c pyramid' :
  masked pyramid0 pyramid -> removeAt pyramid r c = Some pyramid' ->
  masked pyramid0 pyramid'.
Proof.
  intros Hm Hrm. unfold removeAt in Hrm.
  destruct (pyramid !! r) as [rowv|] eqn:Hr; [| discriminate]. cbn in Hrm.
  destruct (decide (c < length rowv)%nat) as [Hc|]; [| discriminate].
  injection Hrm as <-. unfold masked.
  eapply Forall2_insert_r; [exact Hm | exact Hr |].
  intros row0 _ Hrow. apply lookup_lt_is_Some in Hc as [cardv Hc].
  eapply Forall2_insert_r; [exact Hrow | exact Hc |]. intros; now right.
Qed.

Lemma removeAt_slot pyramid r c pyramid' r' c' :
  removeAt pyramid r c = Some pyramid' ->
  slot pyramid' r' c' =
    if decide ((r, c) = (r', c')) then Some "" else slot pyramid r' c'.
Proof.
  intros Hrm. unfold removeAt in Hrm.
  destruct (pyramid !! r) as [rowv|] eqn:Hr; [| discriminate]. cbn in Hrm.
  destruct (decide (c < length rowv)%nat) as [Hc|]; [| discriminate].
  injection Hrm as <-. unfold slot.
  destruct (decide (r = r')) as [<-|Hne].
  - rewrite list_lookup_insert_eq by now apply lookup_lt_Some in Hr.
    rewrite Hr. cbn. destruct (decide (c = c')) as [<-|Hne].
    + rewrite decide_True by reflexivity. now apply list_lookup_insert_eq.
    + rewrite decide_False by congruence. now apply list_lookup_insert_ne.
  - rewrite decide_False by congruence. now rewrite list_lookup_insert_ne.
Qed.

Lemma removeAt_is_Some pyramid r c :
  is_Some (slot pyramid r c) -> is_Some (removeAt pyramid r c).
Proof.
  intros [cardv H]. destruct (removeAt_Some _ _ _ _ H) as (? & _ & _ & ->). eauto.
Qed.

Section Deal.

Variable pyramid0 : list (list string).
Variable deck0 : list string.
Hypothesis regular0 : regular pyramid0.
Hypothesis deck0_cards : Forall (fun c => c <> "") deck0.

Local Abbreviation dealt := (inDeal pyramid0 deck0).

Lemma deck0_value c : c ∈ deck0 -> is_Some (getCardValue c).
Proof.
  intros Hc. apply getCardValue_is_Some.
  rewrite Forall_forall in deck0_cards. now apply deck0_cards.
Qed.

Lemma applyMove_dealt state m child :
  dealt state -> applyMove state m = Some child -> dealt child.
Proof.
  intros (Hm & Hd & Hw & Hlen) Happ.
  destruct m as [r c|r1 c1 r2 c2|r c| |]; cbn [applyMove] in Happ.
  - destruct (exposedAs _ r c) as [e|]; [| discriminate]. cbn in Happ.
    unfold kingChild in Happ. rewrite cloneState_id in Happ.
    destruct (removeAt _ _ _) as [p|] eqn:Hrm; [| discriminate].
    injection Happ as <-. repeat split; try assumption.
    eapply removeAt_masked; eassumption.
  - destruct (exposedAs _ r1 c1) as [a|]; [| discriminate]. cbn in Happ.
    destruct (exposedAs _ r2 c2) as [b|]; [| discriminate]. cbn in Happ.
    unfold pairChild in Happ. rewrite cloneState_id in Happ. cbn in Happ.
    destruct (removeAt _ (row a) _) as [p|] eqn:Hrm; [| discriminate]. cbn in Happ.
    destruct (removeAt p _ _) as [p'|] eqn:Hrm'; [| discriminate].
    injection Happ as <-. repeat split; try assumption.
    eapply removeAt_masked; [| exact Hrm'].
    eapply removeAt_masked; eassumption.
  - destruct (last (Waste state)) as [top|]; [| discriminate]. cbn in Happ.
    destruct (exposedAs _ r c) as [e|]; [| discriminate]. cbn in Happ.
    unfold wasteChild in Happ. rewrite cloneState_id in Happ.
    destruct (removeAt _ _ _) as [p|] eqn:Hrm; [| discriminate].
    injection Happ as <-. repeat split; cbn.
    + eapply removeAt_masked; eassumption.
    + assumption.
    + now apply Forall_take.
    + rewrite length_take. lia.
  - destruct (Deck state) as [|drawn rest] eqn:Hdeck; [discriminate |].
    unfold drawChild in Happ. rewrite cloneState_id in Happ.
    destruct (getCardValue drawn) as [v|]; [| discriminate]. cbn in Happ.
    apply Forall_cons in Hd as [Hdrawn Hrest]. cbn in Hlen.
    destruct (v =? 13); injection Happ as <-; repeat split; cbn; try assumption.
    + lia.
    + apply Forall_app. split; [assumption | now constructor].
    + rewrite length_app. cbn. lia.
  - injection Happ as <-. unfold recycleChild. rewrite cloneState_id.
    repeat split; cbn; try assumption.
    + now apply Forall_reverse.
    + constructor.
    + rewrite length_reverse. lia.
Qed.

Lemma replayMove_dealt state m child :
  dealt state -> replayMove state m = Some child -> dealt child.
Proof.
  unfold replayMove. destruct (legal state m); [| discriminate].
  apply applyMove_dealt.
Qed.

Lemma kingMoves_replayed state exposed0 exposed :
  getExposedCards (Pyramid state) = Some exposed0 ->
  (forall e, e ∈ exposed -> e ∈ exposed0) ->
  Forall (replayed state) (kingMoves state exposed).
Proof.
  intros Hrun Hsub. unfold kingMoves. apply Forall_fmap, Forall_forall.
  intros e He. apply list_elem_of_filter in He as [Hv He]. cbn.
  destruct (exposedAs_elem _ _ _ Hrun (Hsub _ He)) as (Has & Hexp & Hval).
  assert (Hc : is_Some (kingChild state e)).
  { unfold kingChild. rewrite cloneState_id.
    destruct (removeAt_is_Some (Pyramid state) (row e) (col e)) as [p ->];
      [| cbn; eauto].
    unfold valueAt in Hval. destruct (slot _ _ _); [eauto | discriminate]. }
  destruct Hc as [c Hc]. exists c, (RemoveKing (row e) (col e)).
  split; [exact Hc |]. unfold replayMove. cbn [legal applyMove].
  rewrite Hexp, Hval, Hv, bool_decide_eq_true_2 by reflexivity.
  cbn. now rewrite Has.
Qed.

Lemma pairMoves_replayed state exposed0 exposed :
  getExposedCards (Pyramid state) = Some exposed0 ->
  exposed ≡ₚ exposed0 ->
  Forall (replayed state) (pairMoves state exposed).
Proof.
  intros Hrun Hperm. unfold pairMoves. apply Forall_fmap, Forall_forall.
  intros [a b] Hab. apply list_elem_of_filter in Hab as [Hv Hab]. cbn in Hv |- *.
  assert (Hne : a <> b).
  { eapply pairsOf_NoDup; [| exact Hab]. rewrite Hperm.
    eapply getExposedCards_NoDup, Hrun. }
  apply pairsOf_elem in Hab as [Ha Hb].
  rewrite Hperm in Ha, Hb.
  destruct (exposedAs_elem _ _ _ Hrun Ha) as (Hasa & Hexpa & Hvala).
  destruct (exposedAs_elem _ _ _ Hrun Hb) as (Hasb & Hexpb & Hvalb).
  assert (Hpos : (row a, col a) <> (row b, col b)).
  { intros [= Hr Hc]. rewrite Hr, Hc in Hasa. congruence. }
  assert (Hc : is_Some (pairChild state (a, b))).
  { unfold pairChild. rewrite cloneState_id. cbn [fst snd].
    destruct (removeAt_is_Some (Pyramid state) (row a) (col a)) as [p Hp].
    { unfold valueAt in Hvala. destruct (slot _ _ _); [eauto | discriminate]. }
    rewrite Hp. cbn.
    destruct (removeAt_is_Some p (row b) (col b)) as [p' ->]; [| cbn; eauto].
    rewrite (removeAt_slot _ _ _ _ _ _ Hp).
    destruct (decide _); [eauto |].
    unfold valueAt in Hvalb. destruct (slot _ _ _); [eauto | discriminate]. }
  destruct Hc as [c Hc].
  exists c, (RemovePair (row a) (col a) (row b) (col b)).
  split; [exact Hc |]. unfold replayMove. cbn [legal applyMove].
  rewrite Hexpa, Hexpb, Hvala, Hvalb, bool_decide_eq_true_2 by exact Hpos.
  cbn [sumsTo13 andb]. rewrite (proj2 (Z.eqb_eq _ _) Hv).
  rewrite Hasa. cbn. rewrite Hasb. cbn. exact Hc.
Qed.

Lemma wasteMoves_replayed state exposed0 exposed :
  dealt state ->
  getExposedCards (Pyramid state) = Some exposed0 ->
  (forall e, e ∈ exposed -> e ∈ exposed0) ->
  exists children,
    wasteMoves state exposed = Some children
    /\ Forall (replayed state) children.
Proof.
  intros (_ & _ & Hw & _) Hrun Hsub. unfold wasteMoves.
  destruct (last (Waste state)) as [top|] eqn:Hlast; [| eauto].
  assert (Htop : top ∈ deck0).
  { rewrite Forall_forall in Hw. apply Hw.
    apply last_Some in Hlast as [l' ->]. set_solver. }
  destruct (deck0_value _ Htop) as [wv Hwv]. rewrite Hwv. cbn.
  eexists. split; [reflexivity |]. apply Forall_fmap, Forall_forall.
  intros e He. apply list_elem_of_filter in He as [Hv He]. cbn.
  destruct (exposedAs_elem _ _ _ Hrun (Hsub _ He)) as (Has & Hexp & Hval).
  assert (Hc : is_Some (wasteChild state top e)).
  { unfold wasteChild. rewrite cloneState_id.
    destruct (removeAt_is_Some (Pyramid state) (row e) (col e)) as [p ->];
      [| cbn; eauto].
    unfold valueAt in Hval. destruct (slot _ _ _); [eauto | discriminate]. }
  destruct Hc as [c Hc]. exists c, (RemoveWaste (row e) (col e)).
  split; [exact Hc |]. unfold replayMove. cbn [legal applyMove].
  rewrite Hexp, Hval, Hlast. cbn [mbind option_bind]. rewrite Hwv.
  cbn [sumsTo13 andb]. rewrite (proj2 (Z.eqb_eq _ _) Hv).
  cbn. now rewrite Has.
Qed.

Lemma drawMoves_replayed state :
  dealt state -> Forall (replayed state) (drawMoves state).
Proof.
  intros (_ & Hd & _ & _). unfold drawMoves.
  destruct (Deck state) as [|drawn rest] eqn:Hdeck; constructor; [| constructor].
  apply Forall_cons in Hd as [Hdrawn _].
  assert (Hc : is_Some (drawChild state drawn rest)).
  { unfold drawChild. destruct (deck0_value _ Hdrawn) as [v ->]. cbn.
    destruct (v =? 13); eauto. }
  destruct Hc as [c Hc]. exists c, DrawCard. split; [exact Hc |].
  unfold replayMove. cbn [legal applyMove]. rewrite Hdeck.
  rewrite bool_decide_eq_true_2 by discriminate. exact Hc.
Qed.

Lemma recycleMoves_replayed state :
  Forall (replayed state) (recycleMoves state).
Proof.
  unfold recycleMoves.
  destruct (Deck state) eqn:Hdeck, (Waste state) eqn:Hwaste; repeat constructor.
  exists (recycleChild state), Recycle. split; [reflexivity |].
  unfold replayMove. cbn [legal applyMove]. rewrite Hdeck, Hwaste.
  rewrite bool_decide_eq_true_2; [reflexivity | split; congruence].
Qed.

Lemma allMoves_replayed state :
  dealt state ->
  exists children,
    allMoves state = Some children /\ Forall (replayed state) children.
Proof.
  intros Hdealt. unfold allMoves.
  destruct (getExposedCards_total (Pyramid state)) as [exposed0 Hrun].
  { eapply masked_regular; [apply Hdealt | exact regular0]. }
  rewrite Hrun. cbn [mbind option_bind].
  pose proof (sortSlice_perm lowerRowFirst exposed0) as Hperm.
  assert (Hsub : forall e, e ∈ sortSlice lowerRowFirst exposed0 -> e ∈ exposed0).
  { intros e. now rewrite Hperm. }
  destruct (wasteMoves_replayed _ _ _ Hdealt Hrun Hsub) as (w & -> & Hw).
  cbn [mbind option_bind]. eexists. split; [reflexivity |].
  repeat (apply Forall_app; split).
  - eapply kingMoves_replayed; eassumption.
  - eapply pairMoves_replayed; eassumption.
  - exact Hw.
  - now apply drawMoves_replayed.
  - apply recycleMoves_replayed.
Qed.

Lemma step_replayMove state child :
  dealt state -> step state child ->
  exists m, replayMove state m = Some child.
Proof.
  intros Hdealt (children & Hall & Hin).
  destruct (allMoves_replayed _ Hdealt) as (children' & Hall' & Hrep).
  rewrite Hall in Hall'. injection Hall' as <-.
  rewrite Forall_forall in Hrep.
  destruct (Hrep _ Hin) as (c & m & [= <-] & Hm). eauto.
Qed.

Lemma step_dealt state child : dealt state -> step state child -> dealt child.
Proof.
  intros Hdealt Hstep. destruct (step_replayMove _ _ Hdealt Hstep) as [m Hm].
  eapply replayMove_dealt; eassumption.
Qed.

Lemma reachable_dealt state final :
  reachable state final -> dealt state -> dealt final.
Proof. induction 1; eauto using step_dealt. Qed.

(** The children of a state of the deal: no panic, and states of the
    deal again. *)
Lemma allMoves_children state :
  dealt state ->
  exists children,
    allMoves state = Some (Some <$> children)
    /\ Forall dealt children
    /\ (forall c, c ∈ children <-> step state c).
Proof.
  intros Hdealt. destruct (allMoves_replayed _ Hdealt) as (l & Hall & Hrep).
  assert (Hsome : exists children, l = Some <$> children).
  { clear Hall. induction Hrep as [|oc l (c & m & -> & _) _ (cs & ->)].
    - now exists [].
    - now exists (c :: cs). }
  destruct Hsome as (children & ->). exists children.
  split; [exact Hall |].
  assert (Hiff : forall c, c ∈ children <-> step state c).
  { intros c. split.
    - intros Hc. exists (Some <$> children). split; [exact Hall |].
      now apply list_elem_of_fmap_2.
    - intros (l & Hl & Hc). rewrite Hall in Hl. injection Hl as <-.
      apply list_elem_of_fmap in Hc as (c' & [= <-] & Hc). exact Hc. }
  split; [| exact Hiff].
  apply Forall_forall. intros c Hc. eapply step_dealt; [exact Hdealt |].
  now apply Hiff.
Qed.

(** *** What every run of [solveState] satisfies *)

Lemma explore_Loop Q solve cs :
  (forall c visited res visited',
      dealt c -> solve c visited = Done (res, visited') ->
      Q c visited res visited') ->
  Forall dealt cs ->
  forall bestResult visited f visited',
    explore solve (Some <$> cs) bestResult visited = Done (f, visited') ->
    Loop Q cs bestResult visited f visited'.
Proof.
  intros Hsolve. induction cs as [|c cs IH]; intros Hcs b v f v' Hrun;
    cbn [fmap list_fmap explore] in Hrun.
  - injection Hrun as <- <-. constructor.
  - apply Forall_cons in Hcs as [Hc Hcs].
    destruct (solve c v) as [[res v1]| |] eqn:Hcall; [| discriminate ..].
    destruct (compare res b) as [b'|b'] eqn:Hcmp.
    + eapply Loop_continue; eauto.
    + injection Hrun as <- <-. eapply Loop_return; eauto.
Qed.

Lemma expand_Loop Q solve state bestResult visited res visited' :
  (forall c visited res visited',
      dealt c -> solve c visited = Done (res, visited') ->
      Q c visited res visited') ->
  dealt state ->
  expand solve state bestResult visited = Done (res, visited') ->
  exists cs f,
    Forall dealt cs /\ (forall c, c ∈ cs <-> step state c)
    /\ Loop Q cs bestResult visited f visited' /\ res = flowResult f.
Proof.
  intros Hsolve Hdealt Hrun.
  destruct (allMoves_children _ Hdealt) as (cs & Hall & Hcs & Hstep).
  rewrite (expand_allMoves _ _ _ _ _ Hall) in Hrun.
  destruct (explore solve _ _ _) as [[f v1]| |] eqn:Hloop; [| discriminate ..].
  exists cs, f. repeat split; [exact Hcs | apply Hstep | apply Hstep | |].
  - eapply explore_Loop in Hloop; [| exact Hsolve | exact Hcs].
    now destruct f; injection Hrun as <- <-.
  - now destruct f; injection Hrun as <- <-.
Qed.

(** The proof rule of the search: a property of runs that holds where
    the search returns at once, and holds after the blocks when it holds
    of every recursive call, holds of every run. *)
Lemma solveState_rule
    (Q : GameState -> gmap string Z -> Result -> gmap string Z -> Prop) :
  (forall state visited,
      dealt state -> isPyramidEmpty (Pyramid state) = true ->
      Q state visited (best state) visited) ->
  (forall state visited,
      dealt state -> isPyramidEmpty (Pyramid state) = false ->
      alreadySeen visited (serializeState state)
        (countRemoved (Pyramid state)) = true ->
      Q state visited (best state) visited) ->
  (forall state visited cs f visited',
      dealt state -> isPyramidEmpty (Pyramid state) = false ->
      alreadySeen visited (serializeState state)
        (countRemoved (Pyramid state)) = false ->
      Forall dealt cs -> (forall c, c ∈ cs <-> step state c) ->
      Loop Q cs (best state)
        (<[serializeState state := countRemoved (Pyramid state)]> visited)
        f visited' ->
      Q state visited (flowResult f) visited') ->
  forall fuel state visited res visited',
    dealt state -> solveState fuel state visited = Done (res, visited') ->
    Q state visited res visited'.
Proof.
  intros Hclear Hseen Hexpand.
  induction fuel as [|fuel IH]; intros state visited res visited' Hdealt Hrun;
    [discriminate |].
  cbn [solveState] in Hrun.
  destruct (isPyramidEmpty (Pyramid state)) eqn:Hempty.
  { injection Hrun as <- <-. now apply Hclear. }
  destruct (alreadySeen visited _ _) eqn:Hs.
  { injection Hrun as <- <-. now apply Hseen. }
  eapply (expand_Loop Q) in Hrun as (cs & f & Hcs & Hstep & Hloop & ->);
    [| intros; eapply IH; eassumption | exact Hdealt].
  eapply Hexpand; eassumption.
Qed.

Lemma solveStateUnpruned_rule
    (Q : GameState -> gmap string Z -> Result -> gmap string Z -> Prop) :
  (forall state visited,
      dealt state -> isPyramidEmpty (Pyramid state) = true ->
      Q state visited (best state) visited) ->
  (forall state visited cs f visited',
      dealt state -> isPyramidEmpty (Pyramid state) = false ->
      Forall dealt cs -> (forall c, c ∈ cs <-> step state c) ->
      Loop Q cs (best state)
        (<[serializeState state := countRemoved (Pyramid state)]> visited)
        f visited' ->
      Q state visited (flowResult f) visited') ->
  forall fuel state visited res visited',
    dealt state ->
    solveStateUnpruned fuel state visited = Done (res, visited') ->
    Q state visited res visited'.
Proof.
  intros Hclear Hexpand.
  induction fuel as [|fuel IH]; intros state visited res visited' Hdealt Hrun;
    [discriminate |].
  cbn [solveStateUnpruned] in Hrun.
  destruct (isPyramidEmpty (Pyramid state)) eqn:Hempty.
  { injection Hrun as <- <-. now apply Hclear. }
  eapply (expand_Loop Q) in Hrun as (cs & f & Hcs & Hstep & Hloop & ->);
    [| intros; eapply IH; eassumption | exact Hdealt].
  eapply Hexpand; eassumption.
Qed.

Lemma compare_cases res bestResult f :
  compare res bestResult = f ->
  (flowResult f = res /\ RemovedCount bestResult < RemovedCount res
   \/ flowResult f = bestResult /\ RemovedCount res <= RemovedCount bestResult)
  /\ (forall b, f = Return b -> RemovedCount b = 28)
  /\ (forall b, f = Continue b -> RemovedCount b <> 28).
Proof.
  unfold compare. intros <-.
  destruct (Z.ltb_spec (RemovedCount bestResult) (RemovedCount res)) as [Hlt|Hle].
  - destruct (Z.eqb_spec (RemovedCount res) 28); cbn.
    + split; [left; auto |]. split; [intros b [= <-]; assumption | discriminate].
    + split; [left; auto |]. split; [discriminate | intros b [= <-]; assumption].
  - destruct (Z.eqb_spec (RemovedCount bestResult) 28); cbn.
    + split; [right; auto |]. split; [intros b [= <-]; assumption | discriminate].
    + split; [right; auto |]. split; [discriminate | intros b [= <-]; assumption].
Qed.

Lemma Loop_fromReachable state cs bestResult visited f visited' :
  (forall c, c ∈ cs -> step state c) ->
  Loop fromReachable cs bestResult visited f visited' ->
  (exists final, reachable state final /\ bestResult = best final) ->
  exists final, reachable state final /\ flowResult f = best final.
Proof.
  intros Hstep Hloop. induction Hloop as
    [b v|c cs b v res v1 b' (t & Ht & ->) Hcmp
    |c cs b v res v1 b' f v2 (t & Ht & ->) Hcmp _ IH]; intros (t0 & Ht0 & ->).
  - eauto.
  - assert (Hc : step state c) by (apply Hstep; now left).
    destruct (compare_cases _ _ _ Hcmp) as ([[E _]|[E _]] & _); cbn in E; subst b'.
    + exists t. split; [| reflexivity]. eapply rtc_l; eassumption.
    + eauto.
  - assert (Hc : step state c) by (apply Hstep; now left).
    apply IH; [intros c' Hc'; apply Hstep; now right |].
    destruct (compare_cases _ _ _ Hcmp) as ([[E _]|[E _]] & _); cbn in E; subst b'.
    + exists t. split; [| reflexivity]. eapply rtc_l; eassumption.
    + eauto.
Qed.

Lemma solveState_fromReachable fuel state visited res visited' :
  dealt state -> solveState fuel state visited = Done (res, visited') ->
  exists final, reachable state final /\ res = best final.
Proof.
  apply (solveState_rule fromReachable).
  - intros s v _ _. exists s. split; [apply rtc_refl | reflexivity].
  - intros s v _ _ _. exists s. split; [apply rtc_refl | reflexivity].
  - intros s v cs f v' _ _ _ _ Hstep Hloop.
    eapply Loop_fromReachable; [intros c; apply Hstep | exact Hloop |].
    exists s. split; [apply rtc_refl | reflexivity].
Qed.

(** *** Termination *)

Lemma dealt_count state :
  dealt state -> 0 <= countRemoved (Pyramid state) <= Z.of_nat (slots pyramid0).
Proof.
  intros (Hm & _). rewrite <- (masked_slots _ _ Hm). apply countRemoved_range.
Qed.

Lemma Loop_climbs cs bestResult visited f visited' :
  Loop climbs cs bestResult visited f visited' ->
  countsOK visited ->
  countsOK visited' /\ forall key, (level visited key <= level visited' key)%nat.
Proof.
  induction 1 as [b v|c cs b v res v1 b' Hc _|c cs b v res v1 b' f v2 Hc _ _ IH];
    intros Hok.
  - split; [exact Hok | reflexivity].
  - now apply Hc.
  - destruct (Hc Hok) as [Hok1 Hle1]. destruct (IH Hok1) as [Hok2 Hle2].
    split; [exact Hok2 |]. intros key. specialize (Hle1 key).
    specialize (Hle2 key). lia.
Qed.

Lemma solveState_climbs fuel state visited res visited' :
  dealt state -> solveState fuel state visited = Done (res, visited') ->
  countsOK visited ->
  countsOK visited' /\ forall key, (level visited key <= level visited' key)%nat.
Proof.
  apply (solveState_rule climbs).
  - intros s v _ _ Hok. split; [exact Hok | reflexivity].
  - intros s v _ _ _ Hok. split; [exact Hok | reflexivity].
  - intros s v cs f v' Hs _ Hseen _ _ Hloop Hok.
    destruct (insert_level _ _ _ Hok (proj1 (dealt_count _ Hs)) Hseen)
      as (Hok1 & Hle1 & _).
    destruct (Loop_climbs _ _ _ _ _ Hloop Hok1) as [Hok2 Hle2].
    split; [exact Hok2 |]. intros key. specialize (Hle1 key).
    specialize (Hle2 key). lia.
Qed.

Local Abbreviation roomLeft := (room (slots pyramid0) (dealKeys pyramid0 deck0)).

Lemma explore_terminates fuel cs :
  (forall state visited,
      dealt state -> countsOK visited -> (roomLeft visited < fuel)%nat ->
      exists res visited', solveState fuel state visited = Done (res, visited')) ->
  Forall dealt cs ->
  forall bestResult visited,
    countsOK visited -> (roomLeft visited < fuel)%nat ->
    exists f visited',
      explore (solveState fuel) (Some <$> cs) bestResult visited
      = Done (f, visited').
Proof.
  intros IH. induction cs as [|c cs IHcs]; intros Hcs b v Hok Hroom;
    cbn [fmap list_fmap explore]; [eauto |].
  apply Forall_cons in Hcs as [Hc Hcs].
  destruct (IH c v Hc Hok Hroom) as (res & v1 & Hcall). rewrite Hcall.
  destruct (compare res b); [| eauto].
  destruct (solveState_climbs _ _ _ _ _ Hc Hcall Hok) as [Hok1 Hle1].
  apply IHcs; [exact Hcs | exact Hok1 |].
  pose proof (room_mono (slots pyramid0) (dealKeys pyramid0 deck0) _ _ Hle1). lia.
Qed.

(** The recursion ends: with more fuel than the visited table has room
    left, [solveState] returns. *)
Lemma solveState_terminates fuel : forall state visited,
  dealt state -> countsOK visited -> (roomLeft visited < fuel)%nat ->
  exists res visited', solveState fuel state visited = Done (res, visited').
Proof.
  induction fuel as [|fuel IH]; intros state visited Hs Hok Hroom; [lia |].
  cbn [solveState].
  destruct (isPyramidEmpty (Pyramid state)); [eauto |].
  destruct (alreadySeen visited _ _) eqn:Hseen; [eauto |].
  destruct (insert_level _ _ _ Hok (proj1 (dealt_count _ Hs)) Hseen)
    as (Hok1 & Hle1 & Hlt & Hnew).
  destruct (allMoves_children _ Hs) as (cs & Hall & Hcs & _).
  rewrite (expand_allMoves _ _ _ _ _ Hall).
  change (mkResult (Moves state) (countRemoved (Pyramid state)))
    with (best state).
  destruct (explore_terminates fuel cs IH Hcs (best state) _ Hok1)
    as (f & v' & ->).
  - eapply Nat.lt_le_trans; [eapply room_less; [exact Hle1 | |] |].
    + apply dealKeys_elem, Hs.
    + split; [exact Hlt |]. rewrite Hnew.
      pose proof (dealt_count _ Hs). lia.
    + lia.
  - destruct f; eauto.
Qed.

End Deal.

(** More fuel does not change an answer. *)
Lemma explore_more solve solve' children :
  (forall state visited x, solve state visited = Done x ->
                           solve' state visited = Done x) ->
  forall bestResult visited x,
    explore solve children bestResult visited = Done x ->
    explore solve' children bestResult visited = Done x.
Proof.
  intros Hmore. induction children as [|[c|] cs IH]; intros b v x Hrun;
    cbn [explore] in Hrun |- *; [exact Hrun | | discriminate].
  destruct (solve c v) as [[res v1]| |] eqn:Hcall; [| discriminate ..].
  rewrite (Hmore _ _ _ Hcall). destruct (compare res b); [now apply IH | exact Hrun].
Qed.

Lemma andThen_more before before' block block' x :
  (forall y, before = Done y -> before' = Done y) ->
  (forall b v y, block b v = Done y -> block' b v = Done y) ->
  andThen before block = Done x -> andThen before' block' = Done x.
Proof.
  intros Hb Hk. unfold andThen.
  destruct before as [[[b|b] v]| |]; try discriminate;
    rewrite (Hb _ eq_refl); [apply Hk | trivial].
Qed.

Lemma expand_more solve solve' state bestResult visited x :
  (forall state visited x, solve state visited = Done x ->
                           solve' state visited = Done x) ->
  expand solve state bestResult visited = Done x ->
  expand solve' state bestResult visited = Done x.
Proof.
  intros Hmore. unfold expand.
  destruct (getExposedCards (Pyramid state)) as [exposed|]; [| discriminate].
  cbv zeta.
  match goal with
  | |- match ?a with _ => _ end = _ -> match ?a' with _ => _ end = _ =>
      assert (H : forall y, a = Done y -> a' = Done y)
  end.
  { intros y. repeat (apply andThen_more; [intros ? |]);
      try (intros ? ?); try apply explore_more; try exact Hmore.
    intros y'. destruct (wasteMoves state _); [| discriminate].
    apply explore_more; exact Hmore. }
  match goal with
  | |- match ?a with _ => _ end = _ -> _ =>
      destruct a as [[[b|b] v]| |]; try discriminate;
        intros E; rewrite (H _ eq_refl); exact E
  end.
Qed.

Lemma solveState_more fuel : forall state visited x,
  solveState fuel state visited = Done x ->
  solveState (S fuel) state visited = Done x.
Proof.
  induction fuel as [|fuel IH]; intros state visited x Hrun; [discriminate |].
  cbn [solveState] in Hrun. remember (S fuel) as fuel'. cbn [solveState].
  destruct (isPyramidEmpty (Pyramid state)); [exact Hrun |].
  destruct (alreadySeen visited _ _); [exact Hrun |].
  subst fuel'. eapply expand_more; [| exact Hrun]. exact IH.
Qed.

Lemma solveState_more_le fuel fuel' state visited x :
  (fuel <= fuel')%nat ->
  solveState fuel state visited = Done x ->
  solveState fuel' state visited = Done x.
Proof. induction 1; [trivial | intros; now apply solveState_more; auto]. Qed.

(** *** Valid decks *)

Lemma standardDeck_NoDup : NoDup standardDeck.
Proof. apply (bool_decide_unpack _). vm_compute. exact I. Qed.

Lemma checkDeck_Permutation cards :
  checkDeck cards = NilError -> ToLower <$> cards ≡ₚ standardDeck.
Proof.
  intros Hok. apply checkDeck_nil_spec in Hok as [Hlen Hocc].
  symmetry. apply submseteq_length_Permutation.
  - apply NoDup_submseteq; [apply standardDeck_NoDup |].
    intros name Hname. specialize (Hocc name Hname). unfold occurrences in Hocc.
    destruct (filter _ _) as [|x l] eqn:Hf; [discriminate |].
    assert (Hx : x ∈ filter (fun c => c = name) (ToLower <$> cards))
      by (rewrite Hf; now left).
    now apply list_elem_of_filter in Hx as [-> Hx].
  - rewrite length_fmap, Hlen. vm_compute. lia.
Qed.

Lemma checkDeck_names cards c :
  checkDeck cards = NilError -> c ∈ cards -> ToLower c ∈ standardDeck.
Proof.
  intros Hok Hc. rewrite <- (checkDeck_Permutation _ Hok).
  now apply list_elem_of_fmap_2.
Qed.

Lemma checkDeck_nonempty cards :
  checkDeck cards = NilError -> Forall (fun c => c <> "") cards.
Proof.
  intros Hok. apply Forall_forall. intros c Hc ->.
  apply (checkDeck_names _ _ Hok), standardDeck_name in Hc. discriminate.
Qed.

Lemma checkDeck_length cards : checkDeck cards = NilError -> length cards = 52%nat.
Proof. intros Hok. now apply checkDeck_nil_spec in Hok as [? _]. Qed.

Lemma mapM_lookup_seq (cards : list string) index n : forall a,
  (index + a + n <= length cards)%nat ->
  mapM (fun colIx => cards !! (index + colIx)%nat) (seq a n)
  = Some (take n (drop (index + a) cards)).
Proof.
  induction n as [|n IH]; intros a Hlen; [reflexivity |].
  cbn [seq mapM].
  destruct (lookup_lt_is_Some_2 cards (index + a)) as [x Hx]; [lia |].
  rewrite Hx. cbn [mbind option_bind]. rewrite IH by lia.
  cbn [mbind option_bind mret option_ret].
  rewrite (drop_S _ _ _ Hx). cbn [take]. now rewrite Nat.add_succ_r.
Qed.

Lemma buildRow_take cards index rowIx :
  (index + S rowIx <= length cards)%nat ->
  buildRow cards index rowIx = Some (take (S rowIx) (drop index cards)).
Proof.
  intros Hlen. unfold buildRow. rewrite (mapM_lookup_seq cards index (S rowIx) 0) by lia.
  now rewrite Nat.add_0_r.
Qed.

Lemma buildPyramid_rows cards :
  (28 <= length cards)%nat ->
  buildPyramid cards =
    Some [take 1 cards; take 2 (drop 1 cards); take 3 (drop 3 cards);
          take 4 (drop 6 cards); take 5 (drop 10 cards);
          take 6 (drop 15 cards); take 7 (drop 21 cards)].
Proof.
  intros Hlen. unfold buildPyramid. cbn [buildRows Nat.add].
  rewrite !buildRow_take by lia. reflexivity.
Qed.

Lemma take_drop_cards (cards : list string) index n :
  (index + n <= length cards)%nat -> (0 < n)%nat ->
  take n (drop index cards) <> []
  /\ Forall (fun c => c ∈ cards) (take n (drop index cards)).
Proof.
  intros Hlen Hn. split.
  - intros E. apply (f_equal length) in E.
    rewrite length_take, length_drop in E. cbn [length] in E. lia.
  - apply Forall_forall. intros c Hc.
    apply list_elem_of_lookup in Hc as [i Hi].
    apply lookup_take_Some in Hi as [Hi _]. rewrite lookup_drop in Hi.
    eapply list_elem_of_lookup_2. exact Hi.
Qed.

Lemma buildPyramid_shape cards pyramid :
  (28 <= length cards)%nat -> buildPyramid cards = Some pyramid ->
  regular pyramid /\ slots pyramid = 28%nat
  /\ Forall (fun rowv => rowv <> [] /\ Forall (fun c => c ∈ cards) rowv) pyramid.
Proof.
  intros Hlen. rewrite (buildPyramid_rows _ Hlen). intros [= <-].
  split; [| split].
  - cbn [regular]. rewrite !length_take, !length_drop. lia.
  - unfold slots. cbn. rewrite !length_take, !length_drop. lia.
  - change (take 1 cards) with (take 1 (drop 0 cards)).
    repeat constructor; try (apply take_drop_cards; lia);
      apply (take_drop_cards cards _ (S _)); lia.
Qed.

Lemma masked_refl pyramid : masked pyramid pyramid.
Proof.
  unfold masked. apply Forall_Forall2_diag, Forall_forall. intros rowv _.
  apply Forall_Forall2_diag, Forall_forall. intros c _. now left.
Qed.

(** A valid deck deals a regular pyramid of 28 slots and a deck of cards
    with a value; the first state is a state of that deal. *)
Lemma checkDeck_deal cards :
  checkDeck cards = NilError ->
  exists pyramid0,
    buildPyramid cards = Some pyramid0
    /\ regular pyramid0 /\ slots pyramid0 = 28%nat
    /\ Forall (fun c => c <> "") (drop 28 cards)
    /\ inDeal pyramid0 (drop 28 cards) (mkState pyramid0 (drop 28 cards) [] []).
Proof.
  intros Hok. pose proof (checkDeck_length _ Hok) as Hlen.
  assert (H28 : (28 <= length cards)%nat) by lia.
  eexists. split; [apply (buildPyramid_rows _ H28) |].
  destruct (buildPyramid_shape _ _ H28 (buildPyramid_rows _ H28)) as (Hreg & Hslots & _).
  split; [exact Hreg | split; [exact Hslots |]]. split.
  - apply Forall_drop, checkDeck_nonempty, Hok.
  - repeat split; cbn.
    + apply masked_refl.
    + apply Forall_forall. auto.
    + constructor.
    + lia.
Qed.

Lemma reachable_replay pyramid0 deck0 state final :
  regular pyramid0 -> Forall (fun c => c <> "") deck0 ->
  reachable state final -> inDeal pyramid0 deck0 state ->
  exists ms, replay state ms = Some final.
Proof.
  intros Hreg Hdeck. induction 1 as [s|s c t Hstep _ IH]; intros Hs.
  - now exists [].
  - destruct (step_replayMove _ _ Hreg Hdeck _ _ Hs Hstep) as [m Hm].
    destruct IH as [ms Hms]; [eapply step_dealt; eassumption |].
    exists (m :: ms). cbn [replay]. rewrite Hm. exact Hms.
Qed.

(** What the replay of a move has checked. *)
Lemma replayMove_legal state m child :
  replayMove state m = Some child ->
  match m with
  | RemoveKing r c =>
      occupied (Pyramid state) r c = true
      /\ exposedSlot (Pyramid state) r c = true
      /\ valueAt (Pyramid state) r c = Some 13
  | RemovePair r1 c1 r2 c2 =>
      occupied (Pyramid state) r1 c1 = true
      /\ exposedSlot (Pyramid state) r1 c1 = true
      /\ occupied (Pyramid state) r2 c2 = true
      /\ exposedSlot (Pyramid state) r2 c2 = true
      /\ (r1, c1) <> (r2, c2)
      /\ exists v1 v2, valueAt (Pyramid state) r1 c1 = Some v1
                       /\ valueAt (Pyramid state) r2 c2 = Some v2
                       /\ v1 + v2 = 13
  | RemoveWaste r c =>
      occupied (Pyramid state) r c = true
      /\ exposedSlot (Pyramid state) r c = true
      /\ exists top w v, last (Waste state) = Some top
                         /\ getCardValue top = Some w
                         /\ valueAt (Pyramid state) r c = Some v
                         /\ w + v = 13
  | DrawCard => Deck state <> []
  | Recycle => Deck state = [] /\ Waste state <> []
  end.
Proof.
  unfold replayMove. destruct (legal state m) eqn:Hlegal; [intros _ | discriminate].
  assert (Hocc : forall r c, exposedSlot (Pyramid state) r c = true ->
                             occupied (Pyramid state) r c = true).
  { intros r c H. unfold exposedSlot in H. now apply andb_prop in H as [? _]. }
  assert (Hsum : forall a b, sumsTo13 a b = true ->
                             exists x y, a = Some x /\ b = Some y /\ x + y = 13).
  { intros [x|] [y|] H; try discriminate. apply Z.eqb_eq in H. eauto. }
  destruct m as [r c|r1 c1 r2 c2|r c| |]; cbn [legal] in Hlegal.
  - apply andb_prop in Hlegal as [He Hv]. apply bool_decide_eq_true in Hv. auto.
  - apply andb_prop in Hlegal as [Hlegal Hv]. apply andb_prop in Hlegal as [Hlegal Hne].
    apply andb_prop in Hlegal as [H1 H2]. apply bool_decide_eq_true in Hne.
    apply Hsum in Hv. auto 10.
  - apply andb_prop in Hlegal as [He Hv].
    apply Hsum in Hv as (w & v & Hw & Hv & E).
    destruct (last (Waste state)) as [top|]; [| discriminate]. cbn in Hw.
    split; [auto | split; [auto |]]. exists top, w, v. auto.
  - now apply bool_decide_eq_true in Hlegal.
  - now apply bool_decide_eq_true in Hlegal.
Qed.

Lemma applyMove_line state m child :
  applyMove state m = Some child -> exists line, Moves child = Moves state ++ [line].
Proof.
  destruct m as [r c|r1 c1 r2 c2|r c| |]; cbn [applyMove].
  - destruct (exposedAs _ r c) as [e|]; [| discriminate]. cbn.
    unfold kingChild. rewrite cloneState_id.
    destruct (removeAt _ _ _); [| discriminate]. intros [= <-]. cbn. eauto.
  - destruct (exposedAs _ r1 c1) as [a|]; [| discriminate]. cbn.
    destruct (exposedAs _ r2 c2) as [b|]; [| discriminate]. cbn.
    unfold pairChild. rewrite cloneState_id. cbn.
    destruct (removeAt _ (row a) _) as [p|]; [| discriminate]. cbn.
    destruct (removeAt p _ _); [| discriminate]. intros [= <-]. cbn. eauto.
  - destruct (last (Waste state)) as [top|]; [| discriminate]. cbn.
    destruct (exposedAs _ r c) as [e|]; [| discriminate]. cbn.
    unfold wasteChild. rewrite cloneState_id.
    destruct (removeAt _ _ _); [| discriminate]. intros [= <-]. cbn. eauto.
  - destruct (Deck state) as [|drawn rest]; [discriminate |].
    unfold drawChild. rewrite cloneState_id.
    destruct (getCardValue drawn) as [v|]; [| discriminate]. cbn.
    destruct (v =? 13); intros [= <-]; cbn; eauto.
  - intros [= <-]. unfold recycleChild. rewrite cloneState_id. cbn. eauto.
Qed.

Lemma replay_lines ms : forall state final,
  replay state ms = Some final ->
  length (Moves final) = (length (Moves state) + length ms)%nat.
Proof.
  induction ms as [|m ms IH]; intros state final Hrun; cbn [replay] in Hrun.
  - injection Hrun as <-. cbn. lia.
  - destruct (replayMove state m) as [child|] eqn:Hm; [| discriminate].
    cbn in Hrun. rewrite (IH _ _ Hrun). unfold replayMove in Hm.
    destruct (legal state m); [| discriminate].
    destruct (applyMove_line _ _ _ Hm) as [line ->].
    rewrite length_app. cbn. lia.
Qed.

Lemma solvePyramidSolitaire_solveState fuel cards pyramid0 :
  buildPyramid cards = Some pyramid0 ->
  forall res,
    solvePyramidSolitaire fuel cards = Done res <->
    exists visited,
      solveState fuel (mkState pyramid0 (drop 28 cards) [] []) ∅
      = Done (res, visited).
Proof.
  intros Hb res. unfold solvePyramidSolitaire. rewrite Hb.
  destruct (solveState fuel _ ∅) as [[res' v]| |].
  - split; [intros [= <-]; eauto | intros (v' & [= <- _]); reflexivity].
  - split; [discriminate | intros (? & ?); discriminate].
  - split; [discriminate | intros (? & ?); discriminate].
Qed.

(** What the search returns on a valid deck: the counts and the log of a
    state that a replay of legal moves reaches from the first state. *)
Lemma solvePyramidSolitaire_replay cards fuel res :
  checkDeck cards = NilError -> solvePyramidSolitaire fuel cards = Done res ->
  exists start ms final,
    initialState cards = Some start
    /\ replay start ms = Some final
    /\ res = best final
    /\ 0 <= RemovedCount res <= 28
    /\ (RemovedCount res = 28 -> isPyramidEmpty (Pyramid final) = true).
Proof.
  intros Hok Hrun.
  destruct (checkDeck_deal _ Hok) as (p0 & Hb & Hreg & Hslots & Hdeck & Hstart).
  destruct (proj1 (solvePyramidSolitaire_solveState fuel cards p0 Hb res) Hrun)
    as (v & Hrun').
  destruct (solveState_fromReachable _ _ Hreg Hdeck _ _ _ _ _ Hstart Hrun')
    as (final & Hreach & ->).
  destruct (reachable_replay _ _ _ _ Hreg Hdeck Hreach Hstart) as [ms Hms].
  pose proof (reachable_dealt _ _ Hreg Hdeck _ _ Hreach Hstart) as Hfinal.
  pose proof (dealt_count _ _ _ Hfinal) as Hcount. rewrite Hslots in Hcount.
  eexists _, ms, final. unfold initialState. rewrite Hb. cbn [mbind option_bind].
  split; [reflexivity |]. split; [exact Hms |]. split; [reflexivity |].
  split; [exact Hcount |]. cbn. intros H28.
  apply countRemoved_full. destruct Hfinal as (Hm & _).
  rewrite (masked_slots _ _ Hm), Hslots. exact H28.
Qed.

Lemma solvePyramidSolitaire_returns cards :
  checkDeck cards = NilError ->
  exists fuel res,
    forall fuel', (fuel <= fuel')%nat ->
                  solvePyramidSolitaire fuel' cards = Done res.
Proof.
  intros Hok.
  destruct (checkDeck_deal _ Hok) as (p0 & Hb & Hreg & Hslots & Hdeck & Hstart).
  set (fuel := S (room (slots p0) (dealKeys p0 (drop 28 cards)) ∅)).
  destruct (solveState_terminates _ _ Hreg Hdeck fuel _ ∅ Hstart) as (res & v & Hrun).
  { apply map_Forall_empty. }
  { unfold fuel. lia. }
  exists fuel, res. intros fuel' Hle.
  apply (solvePyramidSolitaire_solveState _ _ _ Hb).
  exists v. eapply solveState_more_le; eassumption.
Qed.

(** C1: on a valid deck the recursion of [solveState] ends, so the solver
    returns a result (with any larger fuel, the same one), and the count
    it returns is between 0 and 28. *)
Theorem solvePyramidSolitaire_terminates cards :
  checkDeck cards = NilError ->
  exists fuel res,
    (forall fuel', (fuel <= fuel')%nat ->
                   solvePyramidSolitaire fuel' cards = Done res)
    /\ 0 <= RemovedCount res <= 28.
Proof.
  intros Hok.
  destruct (solvePyramidSolitaire_returns _ Hok) as (fuel & res & Hrun).
  exists fuel, res. split; [exact Hrun |].
  destruct (solvePyramidSolitaire_replay _ _ _ Hok (Hrun fuel (Nat.le_refl _)))
    as (? & ? & ? & _ & _ & _ & Hrange & _).
  exact Hrange.
Qed.

(** C2: on a valid deck the solver returns, and the log of whatever it
    returns is, line by line, the log of a replay from the first state in
    which every move passes [legal] (a removal takes occupied, exposed
    slots; a pair and a pairing with the waste top sum to 13); the replay
    ends with as many slots emptied as the result counts, and with the
    pyramid empty when that count is 28. *)
Theorem moves_replay_legally cards :
  checkDeck cards = NilError ->
  exists start,
    initialState cards = Some start
    /\ (exists fuel res, solvePyramidSolitaire fuel cards = Done res)
    /\ forall fuel res,
        solvePyramidSolitaire fuel cards = Done res ->
        exists ms final,
          replay start ms = Some final
          /\ Moves final = ResultMoves res
          /\ length (ResultMoves res) = length ms
          /\ countRemoved (Pyramid final) = RemovedCount res
          /\ (RemovedCount res = 28 -> isPyramidEmpty (Pyramid final) = true).
Proof.
  intros Hok.
  destruct (checkDeck_deal _ Hok) as (p0 & Hb & _).
  exists (mkState p0 (drop 28 cards) [] []). split.
  { unfold initialState. now rewrite Hb. }
  split.
  { destruct (solvePyramidSolitaire_returns _ Hok) as (fuel & res & Hrun).
    exists fuel, res. now apply Hrun. }
  intros fuel res Hrun.
  destruct (solvePyramidSolitaire_replay _ _ _ Hok Hrun)
    as (start & ms & final & Hstart & Hms & -> & _ & Hfull).
  unfold initialState in Hstart. rewrite Hb in Hstart. injection Hstart as <-.
  exists ms, final. split; [exact Hms |]. split; [reflexivity |].
  split; [| split; [reflexivity | exact Hfull]].
  cbn. now rewrite (replay_lines _ _ _ Hms).
Qed.

(** *** The children of a state depend on its board alone *)

Lemma sameBoard_key s t : sameBoard s t -> serializeState s = serializeState t.
Proof. intros (Hp & Hd & Hw). unfold serializeState. now rewrite Hp, Hd, Hw. Qed.

Lemma kingChild_sameBoard s t e :
  sameBoard s t -> sameChild (kingChild s e) (kingChild t e).
Proof.
  intros (Hp & Hd & Hw). unfold kingChild. rewrite !cloneState_id, Hp.
  destruct (removeAt _ _ _); constructor. repeat split; assumption.
Qed.

Lemma pairChild_sameBoard s t ab :
  sameBoard s t -> sameChild (pairChild s ab) (pairChild t ab).
Proof.
  intros (Hp & Hd & Hw). unfold pairChild. rewrite !cloneState_id, Hp.
  destruct (removeAt _ _ _) as [p|]; [| constructor]. cbn.
  destruct (removeAt p _ _); constructor. repeat split; assumption.
Qed.

Lemma wasteChild_sameBoard s t top e :
  sameBoard s t -> sameChild (wasteChild s top e) (wasteChild t top e).
Proof.
  intros (Hp & Hd & Hw). unfold wasteChild. rewrite !cloneState_id, Hp, Hw.
  destruct (removeAt _ _ _); constructor. repeat split; assumption.
Qed.

Lemma Forall2_same_fmap {A} (f g : A -> option GameState) l :
  (forall x, sameChild (f x) (g x)) -> Forall2 sameChild (f <$> l) (g <$> l).
Proof.
  intros H. apply Forall2_fmap, Forall_Forall2_diag, Forall_forall. auto.
Qed.

Lemma allMoves_sameBoard s t :
  sameBoard s t ->
  option_Forall2 (Forall2 sameChild) (allMoves s) (allMoves t).
Proof.
  intros Hst. pose proof Hst as (Hp & Hd & Hw). unfold allMoves. rewrite <- Hp.
  destruct (getExposedCards (Pyramid s)) as [exposed|]; [| constructor].
  cbn [mbind option_bind]. unfold wasteMoves. rewrite <- Hw.
  assert (Hrest : forall w w',
    Forall2 sameChild w w' ->
    Forall2 sameChild
      ((((kingMoves s (sortSlice lowerRowFirst exposed)
            ++ pairMoves s (sortSlice lowerRowFirst exposed)) ++ w)
          ++ drawMoves s) ++ recycleMoves s)
      ((((kingMoves t (sortSlice lowerRowFirst exposed)
            ++ pairMoves t (sortSlice lowerRowFirst exposed)) ++ w')
          ++ drawMoves t) ++ recycleMoves t)).
  { intros w w' Hww. repeat apply Forall2_app.
    - apply Forall2_same_fmap. intros e. now apply kingChild_sameBoard.
    - apply Forall2_same_fmap. intros e. now apply pairChild_sameBoard.
    - exact Hww.
    - unfold drawMoves. rewrite <- Hd.
      destruct (Deck s) as [|drawn rest]; repeat constructor.
      unfold drawChild. rewrite !cloneState_id.
      destruct (getCardValue drawn) as [v|]; [| constructor]. cbn.
      destruct (v =? 13); constructor; repeat split; cbn; congruence.
    - unfold recycleMoves. rewrite <- Hd, <- Hw.
      destruct (Deck s), (Waste s) eqn:E; repeat constructor; cbn;
        rewrite ?clonePyramid_id; congruence. }
  destruct (last (Waste s)) as [top|]; cbn [mbind option_bind].
  - destruct (getCardValue top) as [wv|]; cbn [mbind option_bind]; constructor.
    apply Hrest, Forall2_same_fmap. intros e. now apply wasteChild_sameBoard.
  - constructor. apply Hrest. constructor.
Qed.

Lemma step_sameBoard s t c :
  sameBoard s t -> step s c -> exists c', step t c' /\ sameBoard c c'.
Proof.
  intros Hst (cs & Hall & Hc).
  pose proof (allMoves_sameBoard _ _ Hst) as Hrel. rewrite Hall in Hrel.
  destruct (allMoves t) as [cs'|] eqn:Hall'; [| inversion Hrel].
  assert (Hcs : Forall2 sameChild cs cs') by now inversion Hrel.
  apply list_elem_of_lookup in Hc as [i Hi].
  destruct (Forall2_lookup_l _ _ _ _ _ Hcs Hi) as (oc' & Hi' & Hrel').
  destruct oc' as [c'|]; [| inversion Hrel'].
  assert (Hcc : sameBoard c c') by now inversion Hrel'.
  exists c'. split; [| exact Hcc]. exists cs'. split; [exact Hall' |].
  eapply list_elem_of_lookup_2. exact Hi'.
Qed.

(** *** The pruned search misses no reachable state *)

Lemma masked_plain pyramid0 pyramid :
  masked pyramid0 pyramid ->
  Forall (fun rowv => rowv <> []
                      /\ Forall (fun c => c = "" \/ plainToken c) rowv) pyramid0 ->
  Forall (fun rowv => rowv <> []
                      /\ Forall (fun c => c = "" \/ plainToken c) rowv) pyramid.
Proof.
  unfold masked. induction 1 as [|r0 r p0 p Hr _ IH]; intros Hplain; [constructor |].
  apply Forall_cons in Hplain as [[Hne Hrow] Hrest].
  constructor; [| now apply IH]. split.
  - intros ->. apply Forall2_length in Hr. destruct r0; [contradiction | discriminate].
  - clear Hne. induction Hr as [|c0 c r0 r Hc _ IHr]; [constructor |].
    apply Forall_cons in Hrow as [Hc0 Hrow].
    constructor; [| now apply IHr]. destruct Hc as [->| ->]; auto.
Qed.

Section Complete.

Variable pyramid0 : list (list string).
Variable deck0 : list string.
Hypothesis regular0 : regular pyramid0.
Hypothesis slots0 : (slots pyramid0 <= 28)%nat.
Hypothesis pyramid0_plain :
  Forall (fun rowv => rowv <> []
                      /\ Forall (fun c => c = "" \/ plainToken c) rowv)
         pyramid0.
Hypothesis deck0_plain : Forall plainToken deck0.

Local Abbreviation dealt := (inDeal pyramid0 deck0).

Lemma deck0_nonempty : Forall (fun c => c <> "") deck0.
Proof. eapply Forall_impl; [exact deck0_plain |]. now intros c (? & _). Qed.

Lemma dealt_plainState state : dealt state -> plainState state.
Proof.
  intros (Hm & Hd & Hw & _). repeat split.
  - eapply masked_plain; eassumption.
  - rewrite Forall_forall in deck0_plain. eapply Forall_impl; [exact Hd |]. auto.
  - rewrite Forall_forall in deck0_plain. eapply Forall_impl; [exact Hw |]. auto.
Qed.

Lemma dealt_same_key s t :
  dealt s -> dealt t -> serializeState s = serializeState t -> sameBoard s t.
Proof.
  intros Hs Ht. apply serializeState_inj; now apply dealt_plainState.
Qed.

Lemma dealt_clear state :
  dealt state -> isPyramidEmpty (Pyramid state) = true ->
  countRemoved (Pyramid state) = Z.of_nat (slots pyramid0).
Proof.
  intros (Hm & _) Hempty. rewrite <- (masked_slots _ _ Hm).
  now apply countRemoved_full.
Qed.

Lemma seen_insert visited key val state :
  seen (<[key := val]> visited) state <->
  serializeState state = key \/ seen visited state.
Proof.
  unfold seen. destruct (decide (key = serializeState state)) as [->|Hne].
  - rewrite lookup_insert_eq. split; [now left | eauto].
  - rewrite lookup_insert_ne by exact Hne. split; [now right |].
    intros [E|H]; [congruence | exact H].
Qed.

Lemma Loop_covers cs bestResult visited f visited' :
  Loop (covers pyramid0 deck0) cs bestResult visited f visited' ->
  (forall t, seen visited t -> seen visited' t)
  /\ RemovedCount bestResult <= RemovedCount (flowResult f)
  /\ (Z.of_nat (slots pyramid0) <= RemovedCount (flowResult f)
      \/ ((forall c, c ∈ cs -> seen visited' c)
          /\ forall t, dealt t -> seen visited' t -> ~ seen visited t ->
                       countRemoved (Pyramid t) <= RemovedCount (flowResult f)
                       /\ forall c, step t c -> seen visited' c)).
Proof.
  induction 1 as
    [b v
    |c cs b v res v1 b' (Hmono & Hc & Hcov) Hcmp
    |c cs b v res v1 b' f v2 (Hmono & Hc & Hcov) Hcmp _ (Hmono' & Hb' & IH)].
  - split; [auto | split; [reflexivity |]]. right. split.
    + intros c Hc. now apply elem_of_nil in Hc.
    + intros t _ Hin Hout. contradiction.
  - destruct (compare_cases _ _ _ Hcmp) as (Hmax & Hret & _).
    specialize (Hret _ eq_refl). cbn [flowResult] in *.
    split; [exact Hmono |]. split; [destruct Hmax as [[-> ?]|[-> ?]]; lia |].
    left. lia.
  - destruct (compare_cases _ _ _ Hcmp) as (Hmax & _). cbn [flowResult] in Hmax.
    assert (Hres : RemovedCount res <= RemovedCount b'
                   /\ RemovedCount b <= RemovedCount b')
      by (destruct Hmax as [[-> ?]|[-> ?]]; lia).
    split; [auto |]. split; [lia |].
    destruct IH as [Hfull|[Hcs Hnew]]; [now left |].
    destruct Hcov as [Hfull|[Hseen Hnew1]]; [left; lia |].
    right. split.
    + intros c' Hc'. apply elem_of_cons in Hc' as [->|Hc']; auto.
    + intros t Ht Hin Hout.
      destruct (decide (is_Some (v1 !! serializeState t))) as [Hin1|Hout1].
      * destruct (Hnew1 t Ht Hin1 Hout) as [Hcount Hchildren].
        split; [lia |]. auto.
      * now apply Hnew.
Qed.

Lemma solveState_covers fuel state visited res visited' :
  dealt state -> solveState fuel state visited = Done (res, visited') ->
  covers pyramid0 deck0 state visited res visited'.
Proof.
  apply (solveState_rule pyramid0 deck0 regular0 deck0_nonempty).
  - intros s v Hs Hempty. split; [auto |]. split; [reflexivity |].
    left. cbn. now rewrite (dealt_clear _ Hs Hempty).
  - intros s v Hs _ Hseen. split; [auto |]. split; [reflexivity |].
    right. split.
    + unfold alreadySeen in Hseen. unfold seen.
      destruct (v !! serializeState s); [eauto | discriminate].
    + intros t _ Hin Hout. contradiction.
  - intros s v cs f v' Hs _ _ Hcs Hstep Hloop.
    apply Loop_covers in Hloop as (Hmono & Hcount & Hcov).
    split; [| split; [exact Hcount |]].
    { intros t Ht. apply Hmono, seen_insert. now right. }
    destruct Hcov as [Hfull|[Hchildren Hnew]]; [now left |].
    right. split.
    { apply Hmono, seen_insert. now left. }
    intros t Ht Hin Hout.
    destruct (decide (serializeState t = serializeState s)) as [Hkey|Hkey].
    + pose proof (dealt_same_key _ _ Ht Hs Hkey) as Hboard.
      split.
      * destruct Hboard as (-> & _). exact Hcount.
      * intros c Hc.
        destruct (step_sameBoard _ _ _ Hboard Hc) as (c' & Hc' & Hcc).
        unfold seen. rewrite (sameBoard_key _ _ Hcc).
        apply Hchildren, Hstep, Hc'.
    + apply Hnew; [exact Ht | exact Hin |].
      intros Hin1. apply seen_insert in Hin1 as [E|Hin1]; contradiction.
Qed.

(** No state the moves reach has more cards removed than the result
    counts. *)
Lemma solveState_optimal fuel state res visited' :
  dealt state -> solveState fuel state ∅ = Done (res, visited') ->
  forall t, reachable state t ->
            countRemoved (Pyramid t) <= RemovedCount res.
Proof.
  intros Hs Hrun.
  destruct (solveState_covers _ _ _ _ _ Hs Hrun) as (_ & _ & [Hfull|[Hseen Hnew]]).
  - intros t Ht.
    pose proof (reachable_dealt _ _ regular0 deck0_nonempty _ _ Ht Hs) as Hdealt.
    pose proof (dealt_count _ _ _ Hdealt). lia.
  - assert (Hfresh : forall t, ~ seen ∅ t).
    { intros t [x Hx]. now rewrite lookup_empty in Hx. }
    assert (H : forall s t, reachable s t -> dealt s -> seen visited' s ->
                            seen visited' t
                            /\ countRemoved (Pyramid t) <= RemovedCount res).
    { induction 1 as [s|s c t Hstep _ IH]; intros Hd Hin.
      - split; [exact Hin |]. now apply (Hnew s Hd Hin (Hfresh s)).
      - apply IH.
        + eapply step_dealt; [exact regular0 | exact deck0_nonempty | |]; eassumption.
        + now apply (Hnew s Hd Hin (Hfresh s)). }
    intros t Ht. now apply (H state t Ht Hs Hseen).
Qed.

Lemma Loop_exhausts cs bestResult visited f visited' :
  Loop (exhausts pyramid0) cs bestResult visited f visited' ->
  RemovedCount bestResult <= RemovedCount (flowResult f)
  /\ (Z.of_nat (slots pyramid0) <= RemovedCount (flowResult f)
      \/ forall c t, c ∈ cs -> reachable c t ->
                     countRemoved (Pyramid t) <= RemovedCount (flowResult f)).
Proof.
  induction 1 as
    [b v
    |c cs b v res v1 b' (Hc & Hcov) Hcmp
    |c cs b v res v1 b' f v2 (Hc & Hcov) Hcmp _ (Hb' & IH)].
  - split; [reflexivity |]. right. intros c t Hc. now apply elem_of_nil in Hc.
  - destruct (compare_cases _ _ _ Hcmp) as (Hmax & Hret & _).
    specialize (Hret _ eq_refl). cbn [flowResult] in *.
    split; [destruct Hmax as [[-> ?]|[-> ?]]; lia |]. left. lia.
  - destruct (compare_cases _ _ _ Hcmp) as (Hmax & _). cbn [flowResult] in Hmax.
    assert (Hres : RemovedCount res <= RemovedCount b'
                   /\ RemovedCount b <= RemovedCount b')
      by (destruct Hmax as [[-> ?]|[-> ?]]; lia).
    split; [lia |].
    destruct IH as [Hfull|Hrest]; [now left |].
    destruct Hcov as [Hfull|Hall]; [left; lia |].
    right. intros c' t Hc' Ht. apply elem_of_cons in Hc' as [->|Hc'].
    + specialize (Hall t Ht). lia.
    + eauto.
Qed.

Lemma solveStateUnpruned_exhausts fuel state visited res visited' :
  dealt state -> solveStateUnpruned fuel state visited = Done (res, visited') ->
  exhausts pyramid0 state visited res visited'.
Proof.
  apply (solveStateUnpruned_rule pyramid0 deck0 regular0 deck0_nonempty).
  - intros s v Hs Hempty. split; [reflexivity |]. left.
    cbn. now rewrite (dealt_clear _ Hs Hempty).
  - intros s v cs f v' Hs _ Hcs Hstep Hloop.
    apply Loop_exhausts in Hloop as (Hcount & Hcov).
    split; [exact Hcount |].
    destruct Hcov as [Hfull|Hall]; [now left |]. right.
    intros t Ht. apply rtc_inv in Ht as [<-|(c & Hc & Ht)]; [exact Hcount |].
    eapply Hall; [apply Hstep, Hc | exact Ht].
Qed.

Lemma solveStateUnpruned_fromReachable fuel state visited res visited' :
  dealt state -> solveStateUnpruned fuel state visited = Done (res, visited') ->
  exists final, reachable state final /\ res = best final.
Proof.
  apply (solveStateUnpruned_rule pyramid0 deck0 regular0 deck0_nonempty fromReachable).
  - intros s v _ _. exists s. split; [apply rtc_refl | reflexivity].
  - intros s v cs f v' _ _ _ Hstep Hloop.
    eapply Loop_fromReachable; [intros c; apply Hstep | exact Hloop |].
    exists s. split; [apply rtc_refl | reflexivity].
Qed.

(** Whenever the unpruned search returns, it returns the count of the
    pruned search. *)
Lemma unpruned_agrees fuel fuel' state res res' visited visited' :
  dealt state ->
  solveState fuel state ∅ = Done (res, visited) ->
  solveStateUnpruned fuel' state ∅ = Done (res', visited') ->
  RemovedCount res' = RemovedCount res.
Proof.
  intros Hs Hrun Hrun'.
  pose proof (solveState_optimal _ _ _ _ Hs Hrun) as Hopt.
  destruct (solveState_fromReachable _ _ regular0 deck0_nonempty _ _ _ _ _ Hs Hrun)
    as (final & Hfinal & ->).
  destruct (solveStateUnpruned_fromReachable _ _ _ _ _ Hs Hrun')
    as (final' & Hfinal' & ->).
  destruct (solveStateUnpruned_exhausts _ _ _ _ _ Hs Hrun') as (_ & [Hfull|Hopt']).
  - pose proof (Hopt _ Hfinal') as H1. cbn in *.
    pose proof (reachable_dealt _ _ regular0 deck0_nonempty _ _ Hfinal Hs) as Hd.
    pose proof (dealt_count _ _ _ Hd). lia.
  - pose proof (Hopt _ Hfinal'). pose proof (Hopt' _ Hfinal). cbn in *. lia.
Qed.

End Complete.

(** *** The unpruned search can run forever *)

Lemma expand_children solve state bestResult visited children c rest :
  allMoves state = Some children -> children = Some c :: rest ->
  solve c visited = OutOfFuel ->
  expand solve state bestResult visited = OutOfFuel.
Proof.
  intros Hall -> Hc. rewrite (expand_allMoves _ _ _ _ _ Hall).
  cbn [explore]. now rewrite Hc.
Qed.

(** A pyramid on which no removal is ever possible, whatever card of
    [deck0] tops the waste: from a state that still has a card to draw or
    recycle other than a King, the unpruned search only draws and
    recycles, and no fuel suffices. *)
Lemma solveStateUnpruned_loops pyramid0 deck0 exposed0 :
  isPyramidEmpty pyramid0 = false ->
  getExposedCards pyramid0 = Some exposed0 ->
  filter (fun exp => value exp = 13) (sortSlice lowerRowFirst exposed0) = [] ->
  filter (fun ab : ExposedCard * ExposedCard => value ab.1 + value ab.2 = 13)
    (pairsOf (sortSlice lowerRowFirst exposed0)) = [] ->
  Forall (fun c => exists wv,
              getCardValue c = Some wv
              /\ filter (fun exp => wv + value exp = 13)
                   (sortSlice lowerRowFirst exposed0) = []) deck0 ->
  forall fuel state visited,
    Pyramid state = pyramid0 ->
    Forall (fun c => c ∈ deck0) (Deck state) ->
    Forall (fun c => c ∈ deck0) (Waste state) ->
    Exists staysInWaste (Deck state ++ Waste state) ->
    solveStateUnpruned fuel state visited = OutOfFuel.
Proof.
  intros Hempty Hexposed Hkings Hpairs Hdeck0. rewrite Forall_forall in Hdeck0.
  induction fuel as [|fuel IH]; intros state visited Hp Hd Hw Hcard; [reflexivity |].
  cbn [solveStateUnpruned]. rewrite Hp, Hempty.
  assert (Hall : allMoves state = Some (drawMoves state ++ recycleMoves state)).
  { unfold allMoves. rewrite Hp, Hexposed. cbn [mbind option_bind].
    unfold kingMoves, pairMoves, wasteMoves. rewrite Hkings, Hpairs.
    destruct (last (Waste state)) as [top|] eqn:Hlast; [| reflexivity].
    assert (Htop : top ∈ deck0).
    { rewrite Forall_forall in Hw. apply Hw.
      apply last_Some in Hlast as [l' ->]. set_solver. }
    destruct (Hdeck0 _ Htop) as (wv & Hwv & Hf). rewrite Hwv.
    cbn [mbind option_bind]. rewrite Hf. reflexivity. }
  destruct (Deck state) as [|drawn rest] eqn:Hdeck.
  - (* recycle *)
    destruct (Waste state) as [|w ws] eqn:Hwaste.
    { cbn in Hcard. now apply Exists_nil in Hcard. }
    eapply expand_children; [exact Hall | |].
    + unfold drawMoves, recycleMoves. rewrite Hdeck, Hwaste. reflexivity.
    + apply IH; unfold recycleChild; rewrite cloneState_id; cbn.
      * exact Hp.
      * rewrite Hwaste. now apply Forall_reverse.
      * constructor.
      * rewrite app_nil_r, Hwaste. apply Exists_exists.
        apply Exists_exists in Hcard as (x & Hx & Hstay).
        exists x. split; [| exact Hstay]. now rewrite reverse_Permutation.
  - (* draw *)
    apply Forall_cons in Hd as [Hdrawn Hrest].
    destruct (Hdeck0 _ Hdrawn) as (v & Hv & _).
    assert (Hdraw : exists c,
               drawMoves state = [Some c] /\ Pyramid c = pyramid0
               /\ Forall (fun c => c ∈ deck0) (Deck c)
               /\ Forall (fun c => c ∈ deck0) (Waste c)
               /\ Exists staysInWaste (Deck c ++ Waste c)).
    { unfold drawMoves, drawChild. rewrite Hdeck, Hv, cloneState_id.
      cbn [mbind option_bind].
      destruct (Z.eqb_spec v 13) as [->|Hne]; eexists;
        (split; [reflexivity |]); cbn; (split; [exact Hp |]);
        (split; [exact Hrest |]).
      - split; [exact Hw |].
        apply Exists_cons in Hcard as [(v' & Hv' & Hne')|Hcard];
          [congruence | exact Hcard].
      - split; [apply Forall_app; split; [exact Hw | now constructor] |].
        apply Exists_exists. apply Exists_exists in Hcard as (x & Hx & Hstay).
        exists x. split; [| exact Hstay]. cbn in Hx.
        rewrite elem_of_cons, elem_of_app in Hx.
        rewrite !elem_of_app, list_elem_of_singleton. tauto. }
    destruct Hdraw as (c & Hc & Hcp & Hcd & Hcw & Hcc).
    eapply expand_children; [exact Hall | rewrite Hc; reflexivity |].
    now apply IH.
Qed.

(** ** Further properties of the code *)

(** *** Card values and names *)

(** X1: the value is 10 exactly for the inputs that begin with "10", and,
    for an input whose first byte is an ASCII byte, it is 13 exactly when
    that byte is [k] or [K]. *)
Theorem getCardValue_ten_and_king :
  (forall cardv, getCardValue cardv = Some 10 <-> Go.HasPrefix cardv "10" = true)
  /\ (forall c rest,
        Go.isASCIIByte c = true ->
        (getCardValue (String c rest) = Some 13 <-> c = "k"%char \/ c = "K"%char)).
Proof.
  split.
  - intros [|c rest]; [split; discriminate |].
    rewrite getCardValue_cons. destruct (Go.HasPrefix _ _); [tauto |].
    split; [| discriminate]. intros [= H]. exfalso. revert H. unfold rankValue.
    repeat match goal with |- context [if ?b then _ else _] => destruct b end;
      discriminate.
  - intros c rest Hc. rewrite getCardValue_cons.
    destruct (Go.HasPrefix _ _) eqn:Hp.
    + apply HasPrefix_10_head in Hp as ->.
      split; [discriminate | intros [H|H]; discriminate].
    + rewrite (ToLower_ascii_byte _ Hc). split.
      * intros [= H].
        assert (Hk : Go.lowerByte c = "k"%char).
        { revert H. unfold rankValue.
          repeat match goal with
            | |- context [String.eqb ?a ?b] => destruct (String.eqb_spec a b)
            end; try discriminate. congruence. }
        unfold Go.lowerByte in Hk. destruct (_ && _)%N eqn:E; [right | now left].
        rewrite <- (ascii_N_embedding c).
        assert (N_of_ascii c = 75%N) as ->; [| reflexivity].
        apply andb_prop in E as [E1 E2].
        apply N.leb_le in E1. apply N.leb_le in E2.
        apply (f_equal N_of_ascii) in Hk. rewrite N_ascii_embedding in Hk by lia.
        cbn in Hk. lia.
      * intros [-> | ->]; reflexivity.
Qed.

Lemma lowerByte_cases c d :
  Go.lowerByte c = d -> c = d \/ c = ascii_of_N (N_of_ascii d - 32).
Proof.
  unfold Go.lowerByte. destruct (_ && _)%N eqn:E; [| now left].
  intros <-. right. apply andb_prop in E as [E1 E2].
  apply N.leb_le in E1. apply N.leb_le in E2.
  rewrite N_ascii_embedding by lia.
  replace (N_of_ascii c + 32 - 32)%N with (N_of_ascii c) by lia.
  now rewrite ascii_N_embedding.
Qed.

Ltac lowered_bytes :=
  repeat match goal with
    | H : Go.lowerByte ?c = _ |- _ =>
        let E := fresh "E" in
        destruct (lowerByte_cases _ _ H) as [E|E]; vm_compute in E; subst c;
        vm_compute in H; try discriminate H; clear H
    end.

Ltac lowered_card cardv H :=
  destruct cardv as [|?c0 [|?c1 [|?c2 [|?c3 ?rest]]]];
  cbn [Go.lowerASCII] in H; try discriminate H;
  injection H as ?; subst; lowered_bytes.

Lemma formatCard_lowered cardv :
  Go.lowerASCII cardv ∈ standardDeck ->
  formatCard cardv = formatCard (Go.lowerASCII cardv).
Proof.
  intros Hin. apply list_elem_of_In in Hin.
  remember (Go.lowerASCII cardv) as name eqn:Hname.
  symmetry in Hname. revert cardv Hname. vm_compute in Hin.
  repeat (destruct Hin as [<-|Hin];
          [intros cardv Hname; lowered_card cardv Hname; vm_compute; reflexivity |]).
  contradiction.
Qed.

Lemma formatCard_names_NoDup : NoDup (formatCard <$> standardDeck).
Proof. apply (bool_decide_unpack _). vm_compute. exact I. Qed.

(** X2: the name of a card: for a card token of rank [rank] and suit [suit],
    in either case, [formatCard] gives the full name of the rank, " of ", and
    the full name of the suit; two card tokens have one name exactly when
    they are one card up to case. *)
Theorem formatCard_identifies_card :
  (forall cardv rank suit,
      cardToken cardv rank suit ->
      formatCard cardv = rankName rank +:+ " of " +:+ suitName suit)
  /\ (forall c1 c2,
        isCard c1 -> isCard c2 ->
        (formatCard c1 = formatCard c2 <-> Go.lowerASCII c1 = Go.lowerASCII c2)).
Proof.
  split.
  - intros cardv rank suit (_ & Hlow & Hr & Hs).
    rewrite formatCard_lowered by (rewrite Hlow; now apply standardDeck_elem).
    rewrite Hlow. clear Hlow.
    unfold ranks in Hr. unfold suits in Hs.
    repeat (apply elem_of_cons in Hr as [->|Hr]);
      try (now apply elem_of_nil in Hr);
      repeat (apply elem_of_cons in Hs as [->|Hs]);
      try (now apply elem_of_nil in Hs); vm_compute; reflexivity.
  - intros c1 c2 (r1 & s1 & _ & Hl1 & Hr1 & Hs1) (r2 & s2 & _ & Hl2 & Hr2 & Hs2).
    assert (H1 : Go.lowerASCII c1 ∈ standardDeck)
      by (rewrite Hl1; now apply standardDeck_elem).
    assert (H2 : Go.lowerASCII c2 ∈ standardDeck)
      by (rewrite Hl2; now apply standardDeck_elem).
    rewrite (formatCard_lowered _ H1), (formatCard_lowered _ H2).
    split; [| now intros ->]. intros E.
    apply list_elem_of_lookup in H1 as [i Hi].
    apply list_elem_of_lookup in H2 as [j Hj].
    assert (i = j) as ->; [| congruence].
    eapply NoDup_lookup; [apply formatCard_names_NoDup | |];
      rewrite list_lookup_fmap; [rewrite Hi | rewrite Hj]; cbn;
      [rewrite E |]; reflexivity.
Qed.

(** X3: [formatCard] answers "Empty" for the empty card and for the text
    "XX" of an empty slot, and for no other input. *)
Theorem formatCard_Empty_iff cardv :
  formatCard cardv = "Empty" <-> cardv = "" \/ cardv = "XX".
Proof.
  split.
  - unfold formatCard.
    destruct (String.eqb_spec cardv ""); [now left |].
    destruct (String.eqb_spec cardv "XX"); [now right |]. cbn [orb].
    destruct (if Go.HasPrefix cardv "10" then _ else _) as [rank suitChar].
    intros E. apply (f_equal (occursIn " ")) in E.
    rewrite !occursIn_app in E. cbn in E.
    rewrite orb_true_r in E. discriminate.
  - intros [-> | ->]; reflexivity.
Qed.

(** *** The deck check reads the lowered cards as a multiset *)

Lemma occurrences_Permutation name cards cards' :
  ToLower <$> cards ≡ₚ ToLower <$> cards' ->
  occurrences name cards = occurrences name cards'.
Proof. intros H. unfold occurrences. now rewrite H. Qed.

Lemma countCards_Permutation cards cards' :
  ToLower <$> cards ≡ₚ ToLower <$> cards' -> countCards cards = countCards cards'.
Proof.
  intros H. apply map_eq. intros name. rewrite !countCards_lookup.
  now rewrite (occurrences_Permutation name _ _ H).
Qed.

Lemma lowerByte_idemp c : Go.lowerByte (Go.lowerByte c) = Go.lowerByte c.
Proof. destruct c as [[] [] [] [] [] [] [] []]; reflexivity. Qed.

Lemma isASCIIByte_lowerByte c :
  Go.isASCIIByte (Go.lowerByte c) = Go.isASCIIByte c.
Proof. destruct c as [[] [] [] [] [] [] [] []]; reflexivity. Qed.

Lemma lowerASCII_idemp s : Go.lowerASCII (Go.lowerASCII s) = Go.lowerASCII s.
Proof.
  induction s as [|c s IH]; [reflexivity |].
  cbn [Go.lowerASCII]. now rewrite lowerByte_idemp, IH.
Qed.

Lemma isASCII_lowerASCII s : Go.isASCII (Go.lowerASCII s) = Go.isASCII s.
Proof.
  induction s as [|c s IH]; [reflexivity |].
  cbn [Go.lowerASCII Go.isASCII]. now rewrite isASCIIByte_lowerByte, IH.
Qed.

Lemma ToLower_lowerASCII s :
  Go.isASCII s = true -> ToLower (Go.lowerASCII s) = ToLower s.
Proof.
  intros H. unfold ToLower. rewrite isASCII_lowerASCII, H.
  apply lowerASCII_idemp.
Qed.

(** X4: [checkDeck] reads its input through the multiset of the lowered
    cards only: two decks whose lowered cards are a permutation of one
    another get the same answer, error text included.  So the order of the
    cards does not matter, and neither does the case of a deck of ASCII
    cards. *)
Theorem checkDeck_order_and_case cards :
  (forall cards',
      ToLower <$> cards ≡ₚ ToLower <$> cards' ->
      checkDeck cards = checkDeck cards')
  /\ (forall cards', cards ≡ₚ cards' -> checkDeck cards = checkDeck cards')
  /\ (Forall (fun c => Go.isASCII c = true) cards ->
      checkDeck (Go.lowerASCII <$> cards) = checkDeck cards).
Proof.
  assert (Hperm : forall cards',
             ToLower <$> cards ≡ₚ ToLower <$> cards' ->
             checkDeck cards = checkDeck cards').
  { intros cards' H. unfold checkDeck.
    assert (Hlen : length cards = length cards').
    { rewrite <- (length_fmap ToLower cards), <- (length_fmap ToLower cards').
      now rewrite H. }
    now rewrite Hlen, (countCards_Permutation _ _ H). }
  split; [exact Hperm | split].
  - intros cards' H. apply Hperm. now rewrite H.
  - intros Hascii. symmetry. apply Hperm.
    rewrite <- list_fmap_compose.
    erewrite (list_fmap_ext _ (ToLower ∘ Go.lowerASCII)); [reflexivity |].
    intros i c Hc. cbn. symmetry. apply ToLower_lowerASCII.
    rewrite Forall_forall in Hascii. eapply Hascii, list_elem_of_lookup_2, Hc.
Qed.

Lemma firstError_app {A} (body : A -> error) l1 l2 :
  firstError body (l1 ++ l2) =
    match firstError body l1 with
    | NilError => firstError body l2
    | e => e
    end.
Proof.
  induction l1 as [|x l1 IH]; cbn [firstError app]; [reflexivity |].
  destruct (body x); [exact IH | reflexivity].
Qed.

Lemma firstError_nested {A B C} (body : C -> error) (f : A -> list B)
    (g : A -> B -> C) l :
  firstError (fun a => firstError (fun b => body (g a b)) (f a)) l
  = firstError body (a ← l; b ← f a; [g a b]).
Proof.
  induction l as [|a l IH]; [reflexivity |].
  cbn [firstError]. rewrite bind_cons, firstError_app, <- IH.
  assert (E : firstError body (b ← f a; [g a b])
              = firstError (fun b => body (g a b)) (f a)).
  { induction (f a) as [|b bs IHb]; [reflexivity |].
    rewrite bind_cons. cbn [firstError app]. now rewrite IHb. }
  now rewrite E.
Qed.

(** X5: which error [checkDeck] returns for 52 cards: it walks the 52 names
    rank by rank, suit by suit, and stops at the first name that does not
    occur exactly once; that name is reported missing when it does not
    occur, and duplicate, with its count, when it occurs more than once.
    The names after it are not looked at. *)
Theorem checkDeck_first_error cards pre name post :
  length cards = 52%nat ->
  standardDeck = pre ++ name :: post ->
  Forall (fun n => occurrences n cards = 1%nat) pre ->
  occurrences name cards <> 1%nat ->
  checkDeck cards =
    if decide (occurrences name cards = 0%nat)
    then Errorf ("missing card: " +:+ formatCard name)
    else Errorf ("duplicate card: " +:+ formatCard name +:+ " (appears "
                   +:+ Go.fmtInt (Z.of_nat (occurrences name cards))
                   +:+ " times)").
Proof.
  intros Hlen Hdeck Hpre Hname. unfold checkDeck.
  rewrite Hlen. cbn [Nat.eqb negb].
  set (body := fun card : string =>
                 match countCards cards !! card with
                 | None => Errorf ("missing card: " +:+ formatCard card)
                 | Some count =>
                     if 1 <? count then
                       Errorf ("duplicate card: " +:+ formatCard card +:+ " (appears "
                                 +:+ Go.fmtInt count +:+ " times)")
                     else NilError
                 end).
  match goal with
  | |- _ = ?rhs =>
      change (firstError (fun rank => firstError (fun suit => body (rank +:+ suit)) suits)
                ranks = rhs)
  end.
  rewrite (firstError_nested body (fun _ => suits) (fun rank suit => rank +:+ suit)).
  fold standardDeck. rewrite Hdeck, firstError_app.
  assert (firstError body pre = NilError) as ->.
  { apply firstError_nil. eapply Forall_impl; [exact Hpre |].
    intros n Hn. cbn beta. unfold body. rewrite countCards_lookup.
    cbn beta in Hn. rewrite Hn. reflexivity. }
  cbn [firstError]. unfold body at 1. rewrite countCards_lookup.
  destruct (decide (occurrences name cards = 0%nat)) as [E|E]; [reflexivity |].
  destruct (Z.ltb_spec 1 (Z.of_nat (occurrences name cards))); [reflexivity | lia].
Qed.
(** *** The values of a checked deck *)

Lemma standardDeck_ranked name :
  name ∈ standardDeck ->
  exists rank suit v,
    name = rank +:+ suit /\ rank ∈ ranks /\ suit ∈ suits
    /\ (rank, v) ∈ rankTable /\ 1 <= v <= 13.
Proof.
  intros Hin. unfold standardDeck in Hin.
  apply list_elem_of_bind in Hin as (rank & Hin & Hrank).
  apply list_elem_of_bind in Hin as (suit & Hin & Hsuit).
  apply list_elem_of_singleton in Hin as ->.
  assert (Hv : exists v, (rank, v) ∈ rankTable /\ 1 <= v <= 13).
  { pose proof Hrank as Hr. unfold ranks in Hr. unfold rankTable.
    repeat (apply elem_of_cons in Hr as [->|Hr];
            [eexists; split;
             [solve [repeat first [apply list_elem_of_here
                                  | apply list_elem_of_further]]
             | lia] |]).
    now apply elem_of_nil in Hr. }
  destruct Hv as (v & Hv & Hrange). exists rank, suit, v. auto.
Qed.

Lemma ascii_card_value c :
  Go.isASCII c = true -> Go.lowerASCII c ∈ standardDeck ->
  isCard c
  /\ exists v, getCardValue c = Some v /\ 1 <= v <= 13
               /\ getCardValue (Go.lowerASCII c) = Some v.
Proof.
  intros Hascii Hin.
  destruct (standardDeck_ranked _ Hin) as (rank & suit & v & Hlow & Hr & Hs & Hv & Hrange).
  assert (Hc : cardToken c rank suit) by (repeat split; assumption).
  assert (Hc' : cardToken (Go.lowerASCII c) rank suit).
  { repeat split; try assumption.
    - now rewrite isASCII_lowerASCII.
    - now rewrite lowerASCII_idemp. }
  split; [now exists rank, suit |]. exists v.
  split; [exact (cardToken_value _ _ _ _ Hc Hv) |].
  split; [exact Hrange | exact (cardToken_value _ _ _ _ Hc' Hv)].
Qed.

Lemma length_filter_fmap {A B} (f : A -> B) (P : A -> Prop) (Q : B -> Prop)
    `{!forall x, Decision (P x)} `{!forall y, Decision (Q y)} l :
  (forall x, x ∈ l -> P x <-> Q (f x)) ->
  length (filter P l) = length (filter Q (f <$> l)).
Proof.
  induction l as [|x l IH]; intros Hiff; [reflexivity |].
  rewrite fmap_cons, !filter_cons.
  assert (Hx : P x <-> Q (f x)) by (apply Hiff; now left).
  assert (Hl : length (filter P l) = length (filter Q (f <$> l)))
    by (apply IH; intros y Hy; apply Hiff; now right).
  destruct (decide (P x)), (decide (Q (f x))); cbn [length]; tauto || lia.
Qed.

(** X20: what [checkDeck] promises the search, for a deck of ASCII cards:
    every card of a deck it accepts is a rank and a suit, [getCardValue]
    gives it a value between 1 and 13, and each of the thirteen values is
    the value of exactly four cards. *)
Theorem checkDeck_values cards :
  checkDeck cards = NilError ->
  Forall (fun c => Go.isASCII c = true) cards ->
  Forall (fun c => isCard c
                   /\ exists v, getCardValue c = Some v /\ 1 <= v <= 13) cards
  /\ forall v, 1 <= v <= 13 ->
               length (filter (fun c => getCardValue c = Some v) cards) = 4%nat.
Proof.
  intros Hok Hascii.
  assert (Hcard : forall c, c ∈ cards ->
             Go.isASCII c = true /\ ToLower c = Go.lowerASCII c
             /\ Go.lowerASCII c ∈ standardDeck).
  { intros c Hc. rewrite Forall_forall in Hascii. pose proof (Hascii c Hc) as Ha.
    pose proof (checkDeck_names _ _ Hok Hc) as Hn. unfold ToLower in Hn |- *.
    rewrite Ha in Hn |- *. auto. }
  split.
  - apply Forall_forall. intros c Hc. destruct (Hcard c Hc) as (Ha & _ & Hn).
    destruct (ascii_card_value c Ha Hn) as (Hisc & v & Hv & Hrange & _). eauto.
  - intros v Hrange.
    rewrite (length_filter_fmap ToLower (fun c => getCardValue c = Some v)
               (fun name => getCardValue name = Some v)).
    + rewrite (checkDeck_Permutation _ Hok).
      assert (Hcases : v = 1 \/ v = 2 \/ v = 3 \/ v = 4 \/ v = 5 \/ v = 6 \/ v = 7
                       \/ v = 8 \/ v = 9 \/ v = 10 \/ v = 11 \/ v = 12 \/ v = 13)
        by lia.
      repeat (destruct Hcases as [->|Hcases]; [vm_compute; reflexivity |]).
      subst v. vm_compute. reflexivity.
    + intros c Hc. destruct (Hcard c Hc) as (Ha & -> & Hn).
      destruct (ascii_card_value c Ha Hn) as (_ & w & Hw & _ & Hw').
      now rewrite Hw, Hw'.
Qed.
(** *** Dealing the cards *)

Lemma buildRow_Some cards index rowIx r :
  buildRow cards index rowIx = Some r -> (index + rowIx < length cards)%nat.
Proof.
  unfold buildRow. intros H. apply mapM_Some in H.
  assert (Hin : rowIx ∈ seq 0 (S rowIx)) by (apply elem_of_seq; lia).
  apply list_elem_of_lookup in Hin as [i Hi].
  destruct (Forall2_lookup_l _ _ _ _ _ H Hi) as (y & _ & Hy).
  now apply lookup_lt_Some in Hy.
Qed.

Lemma buildPyramid_Some cards pyramid :
  buildPyramid cards = Some pyramid -> (28 <= length cards)%nat.
Proof.
  unfold buildPyramid. cbn [buildRows]. intros H.
  repeat match type of H with
    | context [buildRow ?c ?i ?r] =>
        let E := fresh "E" in
        destruct (buildRow c i r) eqn:E; cbn [mbind option_bind] in H;
        [apply buildRow_Some in E | discriminate H]
    end.
  lia.
Qed.

(** X6: [buildPyramid] panics exactly on fewer than 28 cards; otherwise it
    deals seven rows of 1 to 7 slots, slot [(r, c)] taking card number
    [r (r + 1) / 2 + c]: the rows one after the other are the first 28
    cards, and together with [cards[28:]], the deck of the first state, they
    are all the cards, in order. *)
Theorem buildPyramid_deals cards :
  (buildPyramid cards = None <-> (length cards < 28)%nat)
  /\ forall pyramid,
      buildPyramid cards = Some pyramid ->
      length <$> pyramid = [1; 2; 3; 4; 5; 6; 7]%nat
      /\ concat pyramid ++ drop 28 cards = cards
      /\ forall r c, (c <= r < 7)%nat ->
                     slot pyramid r c = cards !! (r * (r + 1) / 2 + c)%nat.
Proof.
  split.
  - split.
    + intros Hnone. destruct (Nat.lt_ge_cases (length cards) 28) as [H|H]; [exact H |].
      rewrite (buildPyramid_rows _ H) in Hnone. discriminate.
    + intros Hlt. destruct (buildPyramid cards) as [p|] eqn:E; [| reflexivity].
      apply buildPyramid_Some in E. lia.
  - intros pyramid Hb. pose proof (buildPyramid_Some _ _ Hb) as H28.
    rewrite (buildPyramid_rows _ H28) in Hb. injection Hb as <-.
    split; [| split].
    + cbn [fmap list_fmap]. rewrite !length_take, !length_drop.
      repeat f_equal; lia.
    + assert (E : concat [take 1 cards; take 2 (drop 1 cards); take 3 (drop 3 cards);
                          take 4 (drop 6 cards); take 5 (drop 10 cards);
                          take 6 (drop 15 cards); take 7 (drop 21 cards)]
                  = take 28 cards).
      { cbn [concat]. rewrite app_nil_r, !app_assoc.
        rewrite (take_take_drop cards 1 2). cbn [Nat.add].
        rewrite (take_take_drop cards 3 3). cbn [Nat.add].
        rewrite (take_take_drop cards 6 4). cbn [Nat.add].
        rewrite (take_take_drop cards 10 5). cbn [Nat.add].
        rewrite (take_take_drop cards 15 6). cbn [Nat.add].
        rewrite (take_take_drop cards 21 7). reflexivity. }
      rewrite E. apply take_drop.
    + intros r c Hrc. unfold slot.
      destruct r as [|[|[|[|[|[|[|r]]]]]]]; try lia; cbn [lookup list_lookup mbind option_bind];
        rewrite lookup_take_lt by lia; rewrite ?lookup_drop; f_equal.
Qed.

(** X7: [solvePyramidSolitaire] on any list of cards, checked or not: with
    fewer than 28 cards it panics; with 28 or more, none of those after the
    28th being the empty string, it returns (with any larger fuel, the same
    result), and the count of the result is between 0 and 28. *)
Theorem solvePyramidSolitaire_any_cards cards :
  ((length cards < 28)%nat ->
   forall fuel, solvePyramidSolitaire fuel cards = Panic)
  /\ ((28 <= length cards)%nat ->
      Forall (fun c => c <> "") (drop 28 cards) ->
      exists fuel res,
        (forall fuel', (fuel <= fuel')%nat ->
                       solvePyramidSolitaire fuel' cards = Done res)
        /\ 0 <= RemovedCount res <= 28).
Proof.
  split.
  - intros Hlt fuel. unfold solvePyramidSolitaire.
    destruct (buildPyramid cards) as [p|] eqn:E; [| reflexivity].
    apply buildPyramid_Some in E. lia.
  - intros H28 Hdeck.
    pose proof (buildPyramid_rows _ H28) as Hb.
    destruct (buildPyramid_shape _ _ H28 Hb) as (Hreg & Hslots & _).
    set (p0 := [take 1 cards; take 2 (drop 1 cards); take 3 (drop 3 cards);
                take 4 (drop 6 cards); take 5 (drop 10 cards);
                take 6 (drop 15 cards); take 7 (drop 21 cards)]) in *.
    assert (Hstart : inDeal p0 (drop 28 cards) (mkState p0 (drop 28 cards) [] [])).
    { repeat split; cbn.
      - apply masked_refl.
      - apply Forall_forall. auto.
      - constructor.
      - lia. }
    set (fuel := S (room (slots p0) (dealKeys p0 (drop 28 cards)) ∅)).
    destruct (solveState_terminates _ _ Hreg Hdeck fuel _ ∅ Hstart) as (res & v & Hrun).
    { apply map_Forall_empty. }
    { unfold fuel. lia. }
    exists fuel, res. split.
    + intros fuel' Hle. apply (solvePyramidSolitaire_solveState _ _ _ Hb).
      exists v. eapply solveState_more_le; eassumption.
    + destruct (solveState_fromReachable _ _ Hreg Hdeck _ _ _ _ _ Hstart Hrun)
        as (final & Hreach & ->).
      pose proof (reachable_dealt _ _ Hreg Hdeck _ _ Hreach Hstart) as Hfinal.
      pose proof (dealt_count _ _ _ Hfinal) as Hcount. rewrite Hslots in Hcount.
      exact Hcount.
Qed.
(** *** The exposed cards *)

Lemma collect_lookup {A B} (body : nat -> A -> option (list B)) l :
  forall i out j a,
    collect body i l = Some out -> l !! j = Some a ->
    exists o, body (i + j)%nat a = Some o /\ forall x, x ∈ o -> x ∈ out.
Proof.
  induction l as [|y l IH]; intros i out j a Hrun Hj; [discriminate |].
  cbn [collect] in Hrun.
  destruct (body i y) as [here|] eqn:Hhere; [| discriminate].
  destruct (collect body (S i) l) as [rest|] eqn:Hrest; [| discriminate].
  cbn in Hrun. injection Hrun as <-.
  destruct j as [|j]; cbn in Hj.
  - injection Hj as ->. exists here. rewrite Nat.add_0_r.
    split; [exact Hhere |]. intros x Hx. apply elem_of_app. now left.
  - destruct (IH _ _ _ _ Hrest Hj) as (o & Ho & Hsub).
    exists o. replace (i + S j)%nat with (S i + j)%nat by lia.
    split; [exact Ho |]. intros x Hx. apply elem_of_app. right. auto.
Qed.

Lemma collect_nil {A B} (body : nat -> A -> option (list B)) l :
  forall i,
    (forall j a, l !! j = Some a -> body (i + j)%nat a = Some []) ->
    collect body i l = Some [].
Proof.
  induction l as [|y l IH]; intros i H; [reflexivity |].
  cbn [collect]. rewrite <- (Nat.add_0_r i) at 1. rewrite (H 0%nat y eq_refl).
  rewrite IH; [reflexivity |].
  intros j a Hj. replace (S i + j)%nat with (i + S j)%nat by lia. now apply H.
Qed.

Lemma exposedAt_exposed pyramid r c cardv v :
  slot pyramid r c = Some cardv -> exposedSlot pyramid r c = true ->
  getCardValue cardv = Some v ->
  exposedAt pyramid r c cardv = Some [mkExposed r c cardv v].
Proof.
  intros Hslot Hexp Hv. unfold exposedSlot, occupied, emptySlot in Hexp.
  rewrite Hslot in Hexp. apply andb_prop in Hexp as [Hocc Hbelow].
  unfold exposedAt. destruct (String.eqb cardv ""); [discriminate |].
  destruct (r =? length pyramid - 1)%nat.
  - cbn. now rewrite Hv.
  - cbn [orb] in Hbelow. apply andb_prop in Hbelow as [H1 H2].
    destruct (slot pyramid (r + 1) c) as [b1|]; [| discriminate].
    destruct (slot pyramid (r + 1) (c + 1)) as [b2|]; [| discriminate].
    cbn. rewrite H1. cbn. rewrite H2. cbn. now rewrite Hv.
Qed.

Lemma getExposedCards_exposed pyramid exposed e :
  getExposedCards pyramid = Some exposed ->
  exposedSlot pyramid (row e) (col e) = true ->
  exposedAs pyramid (row e) (col e) = Some e ->
  e ∈ exposed.
Proof.
  intros Hrun Hexp Has. unfold exposedAs in Has.
  destruct (slot pyramid (row e) (col e)) as [cardv|] eqn:Hslot; [| discriminate].
  cbn in Has. destruct (getCardValue cardv) as [v|] eqn:Hv; [| discriminate].
  cbn in Has. injection Has as He.
  pose proof Hslot as Hslot'. unfold slot in Hslot'.
  destruct (pyramid !! row e) as [rowv|] eqn:Hrow; [| discriminate].
  cbn in Hslot'.
  destruct (collect_lookup _ _ _ _ _ _ Hrun Hrow) as (o & Ho & Hsub).
  apply Hsub. cbn in Ho.
  destruct (collect_lookup _ _ _ _ _ _ Ho Hslot') as (o' & Ho' & Hsub').
  apply Hsub'. cbn in Ho'.
  rewrite (exposedAt_exposed _ _ _ _ _ Hslot Hexp Hv) in Ho'.
  injection Ho' as <-. rewrite He. now apply list_elem_of_singleton.
Qed.

(** X8: what [getExposedCards] returns: on a pyramid whose rows grow it
    does not panic, and whenever it returns, the slice holds each exposed
    slot once, with its position, card and value, and nothing else.  A slot
    is exposed when it holds a card and is on the last row or has both
    slots beneath it empty. *)
Theorem getExposedCards_exact pyramid :
  (regular pyramid -> is_Some (getExposedCards pyramid))
  /\ forall exposed,
      getExposedCards pyramid = Some exposed ->
      NoDup exposed
      /\ forall e, e ∈ exposed <->
                   exposedSlot pyramid (row e) (col e) = true
                   /\ exposedAs pyramid (row e) (col e) = Some e.
Proof.
  split; [apply getExposedCards_total |].
  intros exposed Hrun. split; [exact (getExposedCards_NoDup _ _ Hrun) |].
  intros e. split.
  - intros He. destruct (exposedAs_elem _ _ _ Hrun He) as (Has & Hexp & _).
    now split.
  - intros [Hexp Has]. exact (getExposedCards_exposed _ _ _ Hrun Hexp Has).
Qed.

Lemma forallb_false_lookup {A} (f : A -> bool) l :
  forallb f l = false -> exists i x, l !! i = Some x /\ f x = false.
Proof.
  induction l as [|y l IH]; cbn [forallb]; [discriminate |].
  destruct (f y) eqn:E; cbn [andb].
  - intros H. destruct (IH H) as (i & x & Hi & Hx). now exists (S i), x.
  - intros _. now exists 0%nat, y.
Qed.

Lemma occupied_exposed_below pyramid :
  regular pyramid ->
  forall k r c cardv,
    (r + k = length pyramid - 1)%nat ->
    slot pyramid r c = Some cardv -> cardv <> "" ->
    exists r' c', exposedSlot pyramid r' c' = true.
Proof.
  intros Hreg. induction k as [|k IH]; intros r c cardv Hr Hslot Hne.
  - exists r, c. unfold exposedSlot, occupied. rewrite Hslot.
    apply String.eqb_neq in Hne. rewrite Hne. cbn.
    replace (length pyramid - 1)%nat with r by lia. now rewrite Nat.eqb_refl.
  - pose proof Hslot as Hslot'. unfold slot in Hslot'.
    destruct (pyramid !! r) as [rowv|] eqn:Hrow; [| discriminate].
    cbn in Hslot'.
    destruct (lookup_lt_is_Some_2 pyramid (S r)) as [next Hnext]; [lia |].
    pose proof (regular_lookup _ _ _ _ Hreg Hrow Hnext) as Hlen.
    apply lookup_lt_Some in Hslot' as Hc.
    destruct (lookup_lt_is_Some_2 next c) as [b1 Hb1]; [lia |].
    destruct (lookup_lt_is_Some_2 next (c + 1)) as [b2 Hb2]; [lia |].
    assert (H1 : slot pyramid (r + 1) c = Some b1).
    { unfold slot. rewrite Nat.add_1_r, Hnext. exact Hb1. }
    assert (H2 : slot pyramid (r + 1) (c + 1) = Some b2).
    { unfold slot. rewrite (Nat.add_1_r r), Hnext. exact Hb2. }
    destruct (String.eqb_spec b1 "") as [E1|E1].
    + destruct (String.eqb_spec b2 "") as [E2|E2].
      * exists r, c. unfold exposedSlot, occupied, emptySlot.
        rewrite Hslot, H1, H2, E1, E2.
        apply String.eqb_neq in Hne. rewrite Hne. cbn. apply orb_true_r.
      * apply (IH (r + 1)%nat (c + 1)%nat b2); [lia | exact H2 | exact E2].
    + apply (IH (r + 1)%nat c b1); [lia | exact H1 | exact E1].
Qed.

(** X9: as long as a pyramid whose rows grow holds a card, a card is
    exposed: [getExposedCards] returns the empty slice exactly when
    [isPyramidEmpty] holds.  (A card of the lowest row that still holds
    one is on the last row or has nothing beneath it.) *)
Theorem getExposedCards_nil_iff pyramid :
  regular pyramid ->
  (getExposedCards pyramid = Some [] <-> isPyramidEmpty pyramid = true).
Proof.
  intros Hreg. split.
  - intros Hrun. destruct (isPyramidEmpty pyramid) eqn:Hemp; [reflexivity |].
    exfalso. unfold isPyramidEmpty in Hemp.
    apply forallb_false_lookup in Hemp as (r & rowv & Hrow & Hemp).
    apply forallb_false_lookup in Hemp as (c & cardv & Hc & Hne).
    apply String.eqb_neq in Hne.
    assert (Hslot : slot pyramid r c = Some cardv).
    { unfold slot. rewrite Hrow. exact Hc. }
    apply lookup_lt_Some in Hrow as Hr.
    destruct (occupied_exposed_below _ Hreg (length pyramid - 1 - r) r c cardv)
      as (r' & c' & Hexp); [lia | exact Hslot | exact Hne |].
    pose proof Hexp as Hocc. unfold exposedSlot in Hocc.
    apply andb_prop in Hocc as [Hocc _].
    apply occupied_slot in Hocc as (card' & Hslot' & Hne').
    destruct (getCardValue_is_Some _ Hne') as [v Hv].
    assert (Hin : mkExposed r' c' card' v ∈ ([] : list ExposedCard)).
    { apply (getExposedCards_exposed _ _ _ Hrun); cbn; [exact Hexp |].
      unfold exposedAs. rewrite Hslot'. cbn. rewrite Hv. reflexivity. }
    now apply elem_of_nil in Hin.
  - intros Hemp. unfold getExposedCards. apply collect_nil.
    intros r rowv Hrow. cbn. apply collect_nil. intros c cardv Hc. cbn.
    unfold isPyramidEmpty in Hemp. rewrite forallb_forall in Hemp.
    assert (Hrowv : forallb (fun cardv => String.eqb cardv "") rowv = true).
    { apply Hemp. apply list_elem_of_In. eapply list_elem_of_lookup_2, Hrow. }
    rewrite forallb_forall in Hrowv.
    assert (E : String.eqb cardv "" = true).
    { apply Hrowv. apply list_elem_of_In. eapply list_elem_of_lookup_2, Hc. }
    unfold exposedAt. now rewrite E.
Qed.

(** *** The order of the exposed cards *)

Lemma insertBack_sorted x sortedRev :
  StronglySorted (fun a b => (row a <= row b)%nat) sortedRev ->
  StronglySorted (fun a b => (row a <= row b)%nat)
    (insertBack lowerRowFirst x sortedRev).
Proof.
  induction 1 as [|y ys Hys IH Hall]; cbn [insertBack].
  - repeat constructor.
  - unfold lowerRowFirst at 1. destruct (Nat.ltb_spec (row y) (row x)) as [Hlt|Hge].
    + constructor; [exact IH |].
      rewrite insertBack_perm. constructor; [lia | exact Hall].
    + constructor; [now constructor |].
      constructor; [exact Hge |].
      eapply Forall_impl; [exact Hall |]. intros z Hz. cbn in Hz |- *. lia.
Qed.

Lemma StronglySorted_snoc {A} (R : A -> A -> Prop) l x :
  StronglySorted R l -> Forall (fun y => R y x) l -> StronglySorted R (l ++ [x]).
Proof.
  induction 1 as [|y ys Hys IH Hall]; intros Hx; cbn [app].
  - repeat constructor.
  - apply Forall_cons in Hx as [Hyx Hx].
    constructor; [now apply IH |].
    apply Forall_app. split; [exact Hall | now constructor].
Qed.

Lemma StronglySorted_reverse {A} (R : A -> A -> Prop) l :
  StronglySorted R l -> StronglySorted (fun a b => R b a) (reverse l).
Proof.
  induction 1 as [|y ys Hys IH Hall]; [constructor |].
  rewrite reverse_cons. apply StronglySorted_snoc; [exact IH |].
  now rewrite Forall_reverse.
Qed.

(** X10: the sort before the blocks: [sortSlice] with the comparison
    [exposed[i].row > exposed[j].row] rearranges the slice (nothing is lost
    or added) so that the rows never increase: the cards of the lowest
    rows are tried first. *)
Theorem sortSlice_lowerRowFirst exposed :
  sortSlice lowerRowFirst exposed ≡ₚ exposed
  /\ StronglySorted (fun a b => (row b <= row a)%nat)
       (sortSlice lowerRowFirst exposed).
Proof.
  split; [apply sortSlice_perm |].
  unfold sortSlice.
  apply (StronglySorted_reverse (fun a b => (row a <= row b)%nat)).
  assert (H : forall l acc,
             StronglySorted (fun a b => (row a <= row b)%nat) acc ->
             StronglySorted (fun a b => (row a <= row b)%nat)
               (foldl (fun sortedRev x => insertBack lowerRowFirst x sortedRev) acc l)).
  { induction l as [|x l IH]; intros acc Hacc; [exact Hacc |].
    cbn [foldl]. apply IH, insertBack_sorted, Hacc. }
  apply H. constructor.
Qed.
(** *** What a move does to the count and to the log *)

Lemma empties_insert rowv : forall c cardv,
  rowv !! c = Some cardv -> cardv <> "" ->
  empties (<[c := ""]> rowv) = S (empties rowv).
Proof.
  unfold empties. induction rowv as [|x rowv IH]; intros c cardv Hc Hne;
    [discriminate |].
  destruct c as [|c]; cbn in Hc.
  - injection Hc as ->. change (<[0%nat := ""]> (cardv :: rowv)) with ("" :: rowv).
    rewrite !filter_cons.
    rewrite decide_True by reflexivity. now rewrite decide_False by exact Hne.
  - change (<[S c := ""]> (x :: rowv)) with (x :: <[c := ""]> rowv).
    rewrite !filter_cons. destruct (decide (x = "")); cbn [length];
      now rewrite (IH _ _ Hc Hne).
Qed.

Lemma sum_list_insert l : forall i x y,
  l !! i = Some x -> (sum_list (<[i := y]> l) + x = sum_list l + y)%nat.
Proof.
  induction l as [|z l IH]; intros i x y Hi; [discriminate |].
  destruct i as [|i]; cbn in Hi.
  - injection Hi as ->. change (<[0%nat := y]> (x :: l)) with (y :: l).
    cbn [sum_list_with]. unfold id. lia.
  - change (<[S i := y]> (z :: l)) with (z :: <[i := y]> l).
    specialize (IH _ _ y Hi). cbn [sum_list_with]. unfold id in *. lia.
Qed.

Lemma removeAt_count pyramid r c cardv pyramid' :
  slot pyramid r c = Some cardv -> cardv <> "" ->
  removeAt pyramid r c = Some pyramid' ->
  countRemoved pyramid' = countRemoved pyramid + 1.
Proof.
  intros Hslot Hne Hrem.
  destruct (removeAt_Some _ _ _ _ Hslot) as (rowv & Hrow & Hc & Hrem').
  rewrite Hrem' in Hrem. injection Hrem as <-.
  rewrite !countRemoved_empties, list_fmap_insert.
  assert (Hrow' : (empties <$> pyramid) !! r = Some (empties rowv))
    by now rewrite list_lookup_fmap, Hrow.
  pose proof (sum_list_insert _ _ _ (empties (<[c := ""]> rowv)) Hrow') as Hsum.
  rewrite (empties_insert _ _ _ Hc Hne) in Hsum |- *. lia.
Qed.

Lemma occupied_removeAt pyramid r c :
  occupied pyramid r c = true ->
  exists pyramid', removeAt pyramid r c = Some pyramid'
                   /\ countRemoved pyramid' = countRemoved pyramid + 1.
Proof.
  intros Hocc. apply occupied_slot in Hocc as (cardv & Hslot & Hne).
  destruct (removeAt_is_Some pyramid r c) as [p Hp]; [now rewrite Hslot |].
  exists p. split; [exact Hp |]. exact (removeAt_count _ _ _ _ _ Hslot Hne Hp).
Qed.

Lemma replayMove_removedBy state m child :
  replayMove state m = Some child ->
  countRemoved (Pyramid child) = countRemoved (Pyramid state) + removedBy m.
Proof.
  intros Hrun. pose proof (replayMove_legal _ _ _ Hrun) as Hlegal.
  unfold replayMove in Hrun. destruct (legal state m); [| discriminate].
  destruct m as [r c|r1 c1 r2 c2|r c| |]; cbn [applyMove removedBy] in *.
  - destruct Hlegal as (Hocc & _).
    destruct (exposedAs (Pyramid state) r c) as [e|] eqn:He; [| discriminate].
    cbn in Hrun. unfold exposedAs in He.
    destruct (slot (Pyramid state) r c); [| discriminate]. cbn in He.
    destruct (getCardValue s); [| discriminate]. injection He as <-.
    unfold kingChild in Hrun. rewrite cloneState_id in Hrun. cbn in Hrun.
    destruct (occupied_removeAt _ _ _ Hocc) as (p & Hp & Hcount).
    rewrite Hp in Hrun. injection Hrun as <-. exact Hcount.
  - destruct Hlegal as (Hocc1 & _ & Hocc2 & _ & Hne & _).
    destruct (exposedAs (Pyramid state) r1 c1) as [a|] eqn:Ha; [| discriminate].
    destruct (exposedAs (Pyramid state) r2 c2) as [b|] eqn:Hb; [| discriminate].
    cbn in Hrun. unfold exposedAs in Ha, Hb.
    destruct (slot (Pyramid state) r1 c1); [| discriminate]. cbn in Ha.
    destruct (getCardValue s); [| discriminate]. injection Ha as <-.
    destruct (slot (Pyramid state) r2 c2) eqn:Hs2; [| discriminate]. cbn in Hb.
    destruct (getCardValue s0); [| discriminate]. injection Hb as <-.
    unfold pairChild in Hrun. rewrite cloneState_id in Hrun. cbn in Hrun.
    destruct (occupied_removeAt _ _ _ Hocc1) as (p & Hp & Hcount).
    rewrite Hp in Hrun. cbn in Hrun.
    assert (Hocc2' : occupied p r2 c2 = true).
    { unfold occupied in Hocc2 |- *. rewrite (removeAt_slot _ _ _ _ r2 c2 Hp).
      rewrite decide_False by exact Hne. exact Hocc2. }
    destruct (occupied_removeAt _ _ _ Hocc2') as (p' & Hp' & Hcount').
    rewrite Hp' in Hrun. injection Hrun as <-. cbn [Pyramid]. lia.
  - destruct Hlegal as (Hocc & _).
    destruct (last (Waste state)) as [top|]; [| discriminate]. cbn in Hrun.
    destruct (exposedAs (Pyramid state) r c) as [e|] eqn:He; [| discriminate].
    cbn in Hrun. unfold exposedAs in He.
    destruct (slot (Pyramid state) r c); [| discriminate]. cbn in He.
    destruct (getCardValue s); [| discriminate]. injection He as <-.
    unfold wasteChild in Hrun. rewrite cloneState_id in Hrun. cbn in Hrun.
    destruct (occupied_removeAt _ _ _ Hocc) as (p & Hp & Hcount).
    rewrite Hp in Hrun. injection Hrun as <-. exact Hcount.
  - destruct (Deck state) as [|drawn rest]; [discriminate |].
    unfold drawChild in Hrun. rewrite cloneState_id in Hrun.
    destruct (getCardValue drawn) as [v|]; [| discriminate]. cbn in Hrun.
    destruct (v =? 13); injection Hrun as <-; cbn [Pyramid]; lia.
  - injection Hrun as <-. unfold recycleChild. rewrite cloneState_id.
    cbn [Pyramid]. lia.
Qed.

Lemma removedBy_range m : 0 <= removedBy m <= 2.
Proof. destruct m; cbn; lia. Qed.

Lemma reachable_extends pyramid0 deck0 state final :
  regular pyramid0 -> Forall (fun c => c <> "") deck0 ->
  reachable state final -> inDeal pyramid0 deck0 state ->
  exists lines,
    Moves final = Moves state ++ lines
    /\ countRemoved (Pyramid state) <= countRemoved (Pyramid final)
       <= countRemoved (Pyramid state) + 2 * Z.of_nat (length lines).
Proof.
  intros Hreg Hdeck Hreach. induction Hreach as [s|s c t Hstep Hreach IH]; intros Hs.
  - exists []. rewrite app_nil_r. cbn. split; [reflexivity | lia].
  - destruct (step_replayMove _ _ Hreg Hdeck _ _ Hs Hstep) as [m Hm].
    pose proof (replayMove_removedBy _ _ _ Hm) as Hcount.
    pose proof (removedBy_range m) as Hrange.
    assert (Hline : exists line, Moves c = Moves s ++ [line]).
    { unfold replayMove in Hm. destruct (legal s m); [| discriminate].
      exact (applyMove_line _ _ _ Hm). }
    destruct Hline as [line Hline].
    destruct (IH (step_dealt _ _ Hreg Hdeck _ _ Hs Hstep)) as (lines & Hlines & Hbound).
    exists (line :: lines). rewrite Hlines, Hline, <- app_assoc.
    split; [reflexivity |]. cbn [length]. lia.
Qed.

(** X11: what a move of the game does to the count: a replayed move removes
    one pyramid card when it takes a King or pairs a card with the waste
    top, two when it takes a pair, and none when it draws or recycles; and
    it adds one line to the log.  So every child [solveState] recurses into,
    from a state of a deal, has the count of its parent or one or two
    more, and the log of its parent with one more line. *)
Theorem moves_remove_cards :
  (forall state m child,
      replayMove state m = Some child ->
      countRemoved (Pyramid child) = countRemoved (Pyramid state) + removedBy m
      /\ exists line, Moves child = Moves state ++ [line])
  /\ (forall pyramid0 deck0 state child,
        regular pyramid0 -> Forall (fun c => c <> "") deck0 ->
        inDeal pyramid0 deck0 state -> step state child ->
        countRemoved (Pyramid state) <= countRemoved (Pyramid child)
          <= countRemoved (Pyramid state) + 2
        /\ exists line, Moves child = Moves state ++ [line]).
Proof.
  assert (Hmove : forall state m child,
             replayMove state m = Some child ->
             countRemoved (Pyramid child)
             = countRemoved (Pyramid state) + removedBy m
             /\ exists line, Moves child = Moves state ++ [line]).
  { intros state m child Hm. split; [exact (replayMove_removedBy _ _ _ Hm) |].
    unfold replayMove in Hm. destruct (legal state m); [| discriminate].
    exact (applyMove_line _ _ _ Hm). }
  split; [exact Hmove |].
  intros pyramid0 deck0 state child Hreg Hdeck Hs Hstep.
  destruct (step_replayMove _ _ Hreg Hdeck _ _ Hs Hstep) as [m Hm].
  destruct (Hmove _ _ _ Hm) as [Hcount Hline].
  pose proof (removedBy_range m). split; [lia | exact Hline].
Qed.

(** X12: what [solveState] returns from a state of a deal: the log of the
    result is the log of the state with lines added, and the count of the
    result is at least the count of the state and exceeds it by at most
    two for every line added; it is at most the number of slots. *)
Theorem solveState_result_extends pyramid0 deck0 fuel state visited res visited' :
  regular pyramid0 -> Forall (fun c => c <> "") deck0 ->
  inDeal pyramid0 deck0 state ->
  solveState fuel state visited = Done (res, visited') ->
  exists lines,
    ResultMoves res = Moves state ++ lines
    /\ countRemoved (Pyramid state) <= RemovedCount res
       <= countRemoved (Pyramid state) + 2 * Z.of_nat (length lines)
    /\ RemovedCount res <= Z.of_nat (slots pyramid0).
Proof.
  intros Hreg Hdeck Hs Hrun.
  destruct (solveState_fromReachable _ _ Hreg Hdeck _ _ _ _ _ Hs Hrun)
    as (final & Hreach & ->).
  destruct (reachable_extends _ _ _ _ Hreg Hdeck Hreach Hs) as (lines & Hlines & Hbound).
  exists lines. cbn. split; [exact Hlines |]. split; [exact Hbound |].
  pose proof (reachable_dealt _ _ Hreg Hdeck _ _ Hreach Hs) as Hfinal.
  apply (dealt_count _ _ _ Hfinal).
Qed.
(** *** The visited table *)

Lemma Loop_impl (Q Q' : GameState -> gmap string Z -> Result -> gmap string Z -> Prop)
    cs bestResult visited f visited' :
  (forall c v r v', Q c v r v' -> Q' c v r v') ->
  Loop Q cs bestResult visited f visited' ->
  Loop Q' cs bestResult visited f visited'.
Proof.
  intros HQ. induction 1.
  - constructor.
  - eapply Loop_return; eauto.
  - eapply Loop_continue; eauto.
Qed.

Lemma solveState_records pyramid0 deck0 fuel state visited res visited' :
  regular pyramid0 -> Forall (fun c => c <> "") deck0 ->
  inDeal pyramid0 deck0 state ->
  solveState fuel state visited = Done (res, visited') ->
  records state visited res visited'.
Proof.
  intros Hreg Hdeck. revert fuel state visited res visited'.
  apply (solveState_rule _ _ Hreg Hdeck records).
  - intros state visited _ Hemp Hok. split; [exact Hok |].
    split; [auto |]. congruence.
  - intros state visited _ _ Hseen Hok. split; [exact Hok |].
    split; [auto |]. intros _. unfold alreadySeen in Hseen. unfold level.
    destruct (visited !! serializeState state) as [val|]; [| discriminate].
    apply Z.leb_le in Hseen. lia.
  - intros state visited cs f visited' Hs _ Hseen _ _ Hloop Hok.
    pose proof (dealt_count _ _ _ Hs) as [Hcur _].
    destruct (insert_level _ _ _ Hok Hcur Hseen) as (Hok' & Hup & _ & Hkey).
    assert (Hclimb : Loop climbs cs (best state)
                       (<[serializeState state := countRemoved (Pyramid state)]> visited)
                       f visited').
    { eapply Loop_impl; [| exact Hloop].
      intros c v r v' Hrec Hv. destruct (Hrec Hv) as (H1 & H2 & _). now split. }
    destruct (Loop_climbs _ _ _ _ _ Hclimb Hok') as [Hok'' Hup'].
    split; [exact Hok'' |]. split.
    + intros key. etransitivity; [apply Hup | apply Hup'].
    + intros _. specialize (Hup' (serializeState state)). rewrite Hkey in Hup'. lia.
Qed.

(** X13: what a run of [solveState] from a state of a deal does to the
    visited table, the counts in it being non-negative before: they are
    non-negative after, no entry is dropped or lowered, and the key of the
    state, unless its pyramid is empty, has an entry of at least the count
    of the state. *)
Theorem solveState_visited_table pyramid0 deck0 fuel state visited res visited' :
  regular pyramid0 -> Forall (fun c => c <> "") deck0 ->
  inDeal pyramid0 deck0 state -> countsOK visited ->
  solveState fuel state visited = Done (res, visited') ->
  countsOK visited'
  /\ (forall key val,
        visited !! key = Some val ->
        exists val', visited' !! key = Some val' /\ val <= val')
  /\ (isPyramidEmpty (Pyramid state) = false ->
      exists val, visited' !! serializeState state = Some val
                  /\ countRemoved (Pyramid state) <= val).
Proof.
  intros Hreg Hdeck Hs Hok Hrun.
  destruct (solveState_records _ _ _ _ _ _ _ Hreg Hdeck Hs Hrun Hok)
    as (Hok' & Hup & Hkey).
  split; [exact Hok' | split].
  - intros key val Hval. specialize (Hup key). unfold level in Hup.
    rewrite Hval in Hup.
    destruct (visited' !! key) as [val'|] eqn:Hval'; [| lia].
    exists val'. split; [reflexivity |].
    pose proof (Hok _ _ Hval). pose proof (Hok' _ _ Hval'). cbn in *. lia.
  - intros Hemp. specialize (Hkey Hemp). unfold level in Hkey.
    destruct (visited' !! serializeState state) as [val|] eqn:Hval; [| lia].
    exists val. split; [reflexivity |].
    pose proof (Hok' _ _ Hval). cbn in *. lia.
Qed.

(** *** No panic on the states of a deal *)

Lemma explore_no_panic (dealt : GameState -> Prop)
    (solve : GameState -> gmap string Z -> outcome (Result * gmap string Z)) cs :
  (forall c visited, dealt c -> solve c visited <> Panic) ->
  Forall dealt cs ->
  forall bestResult visited,
    explore solve (Some <$> cs) bestResult visited <> Panic.
Proof.
  intros Hsolve. induction 1 as [|c cs Hc Hcs IH]; intros bestResult visited;
    cbn [fmap list_fmap explore]; [discriminate |].
  specialize (Hsolve c visited Hc).
  destruct (solve c visited) as [[res v]| |]; [| contradiction | discriminate].
  destruct (compare res bestResult); [apply IH | discriminate].
Qed.

(** X14: from a state of a deal (a pyramid whose rows grow, with slots
    emptied; deck and waste of non-empty cards) [solveState] never panics:
    no index is out of range in [getExposedCards], in a removal, or in
    [getCardValue], at any depth of the recursion.  With any fuel the run
    ends in a result or is out of fuel. *)
Theorem solveState_never_panics pyramid0 deck0 :
  regular pyramid0 -> Forall (fun c => c <> "") deck0 ->
  forall fuel state visited,
    inDeal pyramid0 deck0 state -> solveState fuel state visited <> Panic.
Proof.
  intros Hreg Hdeck. induction fuel as [|fuel IH]; intros state visited Hs;
    cbn [solveState]; [discriminate |].
  destruct (isPyramidEmpty (Pyramid state)); [discriminate |].
  destruct (alreadySeen _ _ _); [discriminate |].
  destruct (allMoves_children _ _ Hreg Hdeck _ Hs) as (cs & Hmoves & Hcs & _).
  rewrite (expand_allMoves _ _ _ _ _ Hmoves).
  pose proof (explore_no_panic (inDeal pyramid0 deck0) (solveState fuel) cs
                (fun c v Hc => IH c v Hc) Hcs
                (mkResult (Moves state) (countRemoved (Pyramid state)))
                (<[serializeState state := countRemoved (Pyramid state)]> visited))
    as Hnp.
  destruct (explore _ _ _ _) as [[[b|b] v]| |]; [discriminate | discriminate | | discriminate].
  contradiction.
Qed.
(** *** What a step does to the cards *)

Lemma step_boards state child :
  step state child ->
  (forall p0, masked p0 (Pyramid state) -> masked p0 (Pyramid child))
  /\ ((Deck child = Deck state /\ Waste child = Waste state)
      \/ (Deck child = Deck state
          /\ exists top, Waste state = Waste child ++ [top])
      \/ (exists drawn v,
             Deck state = drawn :: Deck child
             /\ getCardValue drawn = Some v
             /\ (v = 13 /\ Waste child = Waste state
                 \/ v <> 13 /\ Waste child = Waste state ++ [drawn]))
      \/ (Deck state = [] /\ Deck child = reverse (Waste state)
          /\ Waste child = [])).
Proof.
  intros (children & Hall & Hin). unfold allMoves in Hall.
  destruct (getExposedCards (Pyramid state)) as [exposed0|]; [| discriminate].
  cbn in Hall.
  destruct (wasteMoves state (sortSlice lowerRowFirst exposed0)) as [wc|] eqn:Hw;
    [| discriminate].
  cbn in Hall. injection Hall as <-.
  rewrite !elem_of_app in Hin. destruct Hin as [[[[Hk|Hp]|Hw']|Hd]|Hr].
  - unfold kingMoves in Hk. apply list_elem_of_fmap in Hk as (e & Hc & _).
    symmetry in Hc. unfold kingChild in Hc. rewrite cloneState_id in Hc.
    destruct (removeAt (Pyramid state) (row e) (col e)) as [p|] eqn:Hp;
      [| discriminate].
    cbn in Hc. injection Hc as <-. cbn. split; [| now left].
    intros p0 Hm. exact (removeAt_masked _ _ _ _ _ Hm Hp).
  - unfold pairMoves in Hp. apply list_elem_of_fmap in Hp as (ab & Hc & _).
    symmetry in Hc. unfold pairChild in Hc. rewrite cloneState_id in Hc.
    destruct (removeAt (Pyramid state) (row ab.1) (col ab.1)) as [p|] eqn:Hp;
      [| discriminate].
    cbn in Hc.
    destruct (removeAt p (row ab.2) (col ab.2)) as [p'|] eqn:Hp'; [| discriminate].
    cbn in Hc. injection Hc as <-. cbn. split; [| now left].
    intros p0 Hm.
    exact (removeAt_masked _ _ _ _ _ (removeAt_masked _ _ _ _ _ Hm Hp) Hp').
  - unfold wasteMoves in Hw.
    destruct (last (Waste state)) as [top|] eqn:Hlast.
    2: { injection Hw as <-. now apply elem_of_nil in Hw'. }
    destruct (getCardValue top) as [wv|]; [| discriminate].
    cbn in Hw. injection Hw as <-.
    apply list_elem_of_fmap in Hw' as (e & Hc & _).
    symmetry in Hc. unfold wasteChild in Hc. rewrite cloneState_id in Hc.
    destruct (removeAt (Pyramid state) (row e) (col e)) as [p|] eqn:Hp;
      [| discriminate].
    cbn in Hc. injection Hc as <-. cbn. split.
    + intros p0 Hm. exact (removeAt_masked _ _ _ _ _ Hm Hp).
    + right. left. split; [reflexivity |]. exists top.
      apply last_Some in Hlast as [l' ->].
      rewrite length_app. cbn [length].
      replace (length l' + 1 - 1)%nat with (length l') by lia.
      now rewrite take_app_length.
  - unfold drawMoves in Hd. destruct (Deck state) as [|drawn rest] eqn:Hdeck;
      [now apply elem_of_nil in Hd |].
    apply list_elem_of_singleton in Hd. symmetry in Hd.
    unfold drawChild in Hd. rewrite cloneState_id in Hd.
    destruct (getCardValue drawn) as [v|] eqn:Hv; [| discriminate].
    cbn in Hd. destruct (Z.eqb_spec v 13) as [E|E]; injection Hd as <-; cbn;
      (split; [auto |]); right; right; left; exists drawn, v;
      (split; [reflexivity |]); (split; [exact Hv |]); [left | right];
      (split; [exact E | reflexivity]).
  - unfold recycleMoves in Hr.
    destruct (Deck state) as [|d ds] eqn:Hdeck; [| now apply elem_of_nil in Hr].
    destruct (Waste state) as [|w ws] eqn:Hwaste; [now apply elem_of_nil in Hr |].
    apply list_elem_of_singleton in Hr. injection Hr as ->.
    unfold recycleChild. rewrite cloneState_id. cbn [Pyramid Deck Waste].
    rewrite ?Hdeck, ?Hwaste. split; [auto |]. right. right. right.
    split; [reflexivity | split; reflexivity].
Qed.

(** X15: no King ever lies on the waste: a King drawn from the deck is
    dropped, not put on the waste, and no other move adds to the waste.  A
    waste without Kings stays so along every path of the search; from the
    first state, whose waste is empty, no state is reached with a King on
    the waste. *)
Theorem waste_never_holds_king :
  (forall state final,
      reachable state final ->
      Forall (fun c => getCardValue c <> Some 13) (Waste state) ->
      Forall (fun c => getCardValue c <> Some 13) (Waste final))
  /\ (forall cards start final,
        initialState cards = Some start -> reachable start final ->
        Forall (fun c => getCardValue c <> Some 13) (Waste final)).
Proof.
  assert (Hinv : forall state final,
             reachable state final ->
             Forall (fun c => getCardValue c <> Some 13) (Waste state) ->
             Forall (fun c => getCardValue c <> Some 13) (Waste final)).
  { intros state final Hreach.
    induction Hreach as [s|s c t Hstep Hreach IH]; intros Hs; [exact Hs |].
    apply IH. destruct (step_boards _ _ Hstep) as [_ Hcase].
    destruct Hcase as [(_ & ->)|[(_ & top & Hw)|[(drawn & v & _ & Hv & Hw)|(_ & _ & ->)]]].
    - exact Hs.
    - rewrite Hw in Hs. now apply Forall_app in Hs as [Hs _].
    - destruct Hw as [(_ & ->)|(Hne & ->)]; [exact Hs |].
      apply Forall_app. split; [exact Hs |]. constructor; [| constructor].
      rewrite Hv. congruence.
    - constructor. }
  split; [exact Hinv |].
  intros cards start final Hstart Hreach. apply (Hinv _ _ Hreach).
  unfold initialState in Hstart. destruct (buildPyramid cards); [| discriminate].
  injection Hstart as <-. constructor.
Qed.

Lemma step_conserves p0 d0 state child :
  step state child ->
  masked p0 (Pyramid state) /\ Deck state ++ Waste state ⊆+ d0 ->
  masked p0 (Pyramid child) /\ Deck child ++ Waste child ⊆+ d0.
Proof.
  intros Hstep [Hm Hsub]. destruct (step_boards _ _ Hstep) as [Hmask Hcase].
  split; [auto |]. etransitivity; [| exact Hsub].
  destruct Hcase as [(-> & ->)|[(-> & top & ->)|[(drawn & v & -> & _ & Hw)|(-> & -> & ->)]]].
  - reflexivity.
  - apply submseteq_app; [reflexivity |]. now apply submseteq_inserts_r.
  - destruct Hw as [(_ & ->)|(_ & ->)].
    + now apply submseteq_cons.
    + apply Permutation_submseteq.
      rewrite app_assoc, <- Permutation_cons_append. reflexivity.
  - rewrite app_nil_r. cbn [app]. apply Permutation_submseteq, reverse_Permutation.
Qed.

(** X16: no move brings a card into play: along every path of the search
    the pyramid is the pyramid of the start with slots emptied, and the
    cards of deck and waste together are, counted with multiplicity, among
    those the deck and waste of the start held. *)
Theorem cards_conserved state final :
  reachable state final ->
  masked (Pyramid state) (Pyramid final)
  /\ Deck final ++ Waste final ⊆+ Deck state ++ Waste state.
Proof.
  intros Hreach.
  assert (H : forall p0 d0,
             masked p0 (Pyramid state) /\ Deck state ++ Waste state ⊆+ d0 ->
             masked p0 (Pyramid final) /\ Deck final ++ Waste final ⊆+ d0).
  { intros p0 d0. induction Hreach as [s|s c t Hstep Hreach IH]; [tauto |].
    intros Hs. apply IH. exact (step_conserves _ _ _ _ Hstep Hs). }
  apply H. split; [apply masked_refl | reflexivity].
Qed.

(** *** The key and the count of removed cards *)

Lemma slotText_insert rowv c :
  rowv !! c = Some "XX" -> writeRow (<[c := ""]> rowv) = writeRow rowv.
Proof.
  intros Hc. rewrite !writeRow_Join, list_fmap_insert. f_equal.
  apply list_insert_id. now rewrite list_lookup_fmap, Hc.
Qed.

(** X17: the key cannot tell an empty slot from a card spelled "XX", the
    text it writes for an empty slot: emptying a slot that holds "XX"
    changes the pyramid and raises the count of removed cards by one, and
    leaves the key as it was. *)
Theorem serializeState_XX_slot pyramid r c pyramid' deck waste moves moves' :
  slot pyramid r c = Some "XX" -> removeAt pyramid r c = Some pyramid' ->
  serializeState (mkState pyramid' deck waste moves')
  = serializeState (mkState pyramid deck waste moves)
  /\ pyramid' <> pyramid
  /\ countRemoved pyramid' = countRemoved pyramid + 1.
Proof.
  intros Hslot Hrem.
  assert (Hcount : countRemoved pyramid' = countRemoved pyramid + 1)
    by (apply (removeAt_count _ _ _ _ _ Hslot); [discriminate | exact Hrem]).
  split; [| split; [| exact Hcount]].
  - destruct (removeAt_Some _ _ _ _ Hslot) as (rowv & Hrow & Hc & Hrem').
    rewrite Hrem' in Hrem. injection Hrem as <-.
    unfold serializeState. cbn [Pyramid Deck Waste]. f_equal.
    rewrite !writePyramid_Join, list_fmap_insert. f_equal.
    apply list_insert_id. rewrite list_lookup_fmap, Hrow. cbn.
    now rewrite (slotText_insert _ _ Hc).
  - intros ->. lia.
Qed.

(** X18: the two tests for a cleared pyramid agree on every pyramid dealt by
    [buildPyramid] with slots emptied: the count of removed cards is
    between 0 and 28, and it is 28, the value the search compares
    [RemovedCount] with, exactly when [isPyramidEmpty] holds. *)
Theorem countRemoved_28_iff_empty cards pyramid0 pyramid :
  buildPyramid cards = Some pyramid0 -> masked pyramid0 pyramid ->
  0 <= countRemoved pyramid <= 28
  /\ (countRemoved pyramid = 28 <-> isPyramidEmpty pyramid = true).
Proof.
  intros Hb Hm. pose proof (buildPyramid_Some _ _ Hb) as H28.
  destruct (buildPyramid_shape _ _ H28 Hb) as (_ & Hslots & _).
  pose proof (masked_slots _ _ Hm) as Hs. rewrite Hslots in Hs.
  pose proof (countRemoved_range pyramid) as Hrange.
  pose proof (countRemoved_full pyramid) as Hfull.
  rewrite Hs in Hrange, Hfull. split; [exact Hrange | exact Hfull].
Qed.
(** *** The log does not steer the search *)

Lemma kingChild_relog pre state e :
  kingChild (relog pre state) e = relog pre <$> kingChild state e.
Proof.
  unfold kingChild. rewrite !cloneState_id. cbn [relog Pyramid Deck Waste Moves].
  destruct (removeAt _ _ _); [| reflexivity]. cbn.
  unfold relog. cbn. now rewrite app_assoc.
Qed.

Lemma pairChild_relog pre state ab :
  pairChild (relog pre state) ab = relog pre <$> pairChild state ab.
Proof.
  unfold pairChild. rewrite !cloneState_id. cbn [relog Pyramid Deck Waste Moves].
  destruct (removeAt _ _ _) as [p|]; [| reflexivity]. cbn.
  destruct (removeAt p _ _); [| reflexivity]. cbn.
  unfold relog. cbn. now rewrite app_assoc.
Qed.

Lemma wasteChild_relog pre state top e :
  wasteChild (relog pre state) top e = relog pre <$> wasteChild state top e.
Proof.
  unfold wasteChild. rewrite !cloneState_id. cbn [relog Pyramid Deck Waste Moves].
  destruct (removeAt _ _ _); [| reflexivity]. cbn.
  unfold relog. cbn. now rewrite app_assoc.
Qed.

Lemma drawChild_relog pre state drawn rest :
  drawChild (relog pre state) drawn rest = relog pre <$> drawChild state drawn rest.
Proof.
  unfold drawChild. rewrite !cloneState_id. cbn [relog Pyramid Deck Waste Moves].
  destruct (getCardValue drawn) as [v|]; [| reflexivity]. cbn.
  destruct (v =? 13); cbn; unfold relog; cbn; now rewrite app_assoc.
Qed.

Lemma recycleChild_relog pre state :
  recycleChild (relog pre state) = relog pre (recycleChild state).
Proof.
  unfold recycleChild. rewrite !cloneState_id. unfold relog. cbn.
  now rewrite app_assoc.
Qed.

Lemma kingMoves_relog pre state exposed :
  kingMoves (relog pre state) exposed
  = map (fmap (relog pre)) (kingMoves state exposed).
Proof.
  unfold kingMoves. rewrite map_map. apply map_ext. intros e.
  apply kingChild_relog.
Qed.

Lemma pairMoves_relog pre state exposed :
  pairMoves (relog pre state) exposed
  = map (fmap (relog pre)) (pairMoves state exposed).
Proof.
  unfold pairMoves. rewrite map_map. apply map_ext. intros ab.
  apply pairChild_relog.
Qed.

Lemma wasteMoves_relog pre state exposed :
  wasteMoves (relog pre state) exposed
  = map (fmap (M := option) (relog pre)) <$> wasteMoves state exposed.
Proof.
  unfold wasteMoves. cbn [relog Waste].
  destruct (last (Waste state)) as [top|]; [| reflexivity].
  destruct (getCardValue top); [| reflexivity]. cbn. f_equal.
  rewrite map_map. apply map_ext. intros e. apply wasteChild_relog.
Qed.

Lemma drawMoves_relog pre state :
  drawMoves (relog pre state) = map (fmap (relog pre)) (drawMoves state).
Proof.
  unfold drawMoves. cbn [relog Deck].
  destruct (Deck state); [reflexivity |]. cbn [map]. f_equal.
  apply drawChild_relog.
Qed.

Lemma recycleMoves_relog pre state :
  recycleMoves (relog pre state) = map (fmap (relog pre)) (recycleMoves state).
Proof.
  unfold recycleMoves. cbn [relog Deck Waste].
  destruct (Deck state); [| reflexivity].
  destruct (Waste state); [reflexivity |].
  cbn [map fmap option_fmap option_map]. do 2 f_equal.
  apply recycleChild_relog.
Qed.

Lemma compare_relog pre res bestResult :
  compare (relogResult pre res) (relogResult pre bestResult)
  = relogFlow pre (compare res bestResult).
Proof.
  unfold compare. cbn [relogResult RemovedCount].
  destruct (RemovedCount bestResult <? RemovedCount res); cbn [RemovedCount];
    destruct (_ =? 28); reflexivity.
Qed.

Lemma explore_relog pre solve solve' children :
  (forall c visited,
      solve' (relog pre c) visited = relogRun (relogResult pre) (solve c visited)) ->
  forall bestResult visited,
    explore solve' (map (fmap (relog pre)) children)
      (relogResult pre bestResult) visited
    = relogRun (relogFlow pre) (explore solve children bestResult visited).
Proof.
  intros Hsolve. induction children as [|[c|] children IH];
    intros bestResult visited; cbn [map fmap option_fmap option_map explore];
    [reflexivity | | reflexivity].
  rewrite Hsolve. destruct (solve c visited) as [[res v]| |]; cbn [relogRun];
    [| reflexivity | reflexivity].
  rewrite compare_relog. destruct (compare res bestResult); cbn [relogFlow relogRun];
    [apply IH | reflexivity].
Qed.

Lemma andThen_relog pre before block block' :
  (forall bestResult visited,
      block' (relogResult pre bestResult) visited
      = relogRun (relogFlow pre) (block bestResult visited)) ->
  andThen (relogRun (relogFlow pre) before) block'
  = relogRun (relogFlow pre) (andThen before block).
Proof.
  intros Hblock. destruct before as [[[b|b] v]| |]; cbn; [apply Hblock | | |];
    reflexivity.
Qed.

Lemma expand_relog pre solve solve' state bestResult visited :
  (forall c visited,
      solve' (relog pre c) visited = relogRun (relogResult pre) (solve c visited)) ->
  expand solve' (relog pre state) (relogResult pre bestResult) visited
  = relogRun (relogResult pre) (expand solve state bestResult visited).
Proof.
  intros Hsolve. unfold expand. cbn [relog Pyramid].
  destruct (getExposedCards (Pyramid state)) as [exposed|]; [| reflexivity].
  cbn zeta.
  change (mkState (Pyramid state) (Deck state) (Waste state) (pre ++ Moves state))
    with (relog pre state).
  rewrite kingMoves_relog, pairMoves_relog, wasteMoves_relog, drawMoves_relog,
    recycleMoves_relog.
  rewrite (explore_relog pre solve solve' _ Hsolve).
  rewrite (andThen_relog pre _
             (explore solve (pairMoves state (sortSlice lowerRowFirst exposed))));
    [| apply (explore_relog pre solve solve' _ Hsolve)].
  rewrite (andThen_relog pre _
             (fun bestResult visited =>
                match wasteMoves state (sortSlice lowerRowFirst exposed) with
                | None => Panic
                | Some children => explore solve children bestResult visited
                end)).
  2: { intros b v. destruct (wasteMoves state _); [| reflexivity].
       apply (explore_relog pre solve solve' _ Hsolve). }
  rewrite (andThen_relog pre _ (explore solve (drawMoves state)));
    [| apply (explore_relog pre solve solve' _ Hsolve)].
  rewrite (andThen_relog pre _ (explore solve (recycleMoves state)));
    [| apply (explore_relog pre solve solve' _ Hsolve)].
  destruct (andThen _ _) as [[[b|b] v]| |]; reflexivity.
Qed.

(** X19: the log does not steer the search: [solveState] on a state whose
    log has the lines [pre] before it does what it does without them, step
    for step: the same visited table, the same count, and the same log
    with [pre] before it (or the same panic, or the same lack of fuel).  The
    moves a result reports from a state are those of the board alone. *)
Theorem solveState_relog pre fuel state visited :
  solveState fuel (relog pre state) visited
  = relogRun (relogResult pre) (solveState fuel state visited).
Proof.
  revert state visited. induction fuel as [|fuel IH]; intros state visited;
    [reflexivity |].
  cbn [solveState]. cbn [relog Pyramid Moves].
  change (serializeState (mkState (Pyramid state) (Deck state) (Waste state)
                            (pre ++ Moves state)))
    with (serializeState state).
  change (mkResult (pre ++ Moves state) (countRemoved (Pyramid state)))
    with (relogResult pre (mkResult (Moves state) (countRemoved (Pyramid state)))).
  destruct (isPyramidEmpty (Pyramid state)); [reflexivity |].
  destruct (alreadySeen _ _ _); [reflexivity |].
  change (mkState (Pyramid state) (Deck state) (Waste state) (pre ++ Moves state))
    with (relog pre state).
  apply expand_relog. exact IH.
Qed.

(** *** The pruned search finds the best count *)

(** Go's [unicode.ToLower] maps a character to one character and the
    three separators of the key to themselves: a separator in a string is
    in its lowered form. *)
Hypothesis unicodeLower_separators :
  forall s sep,
    sep ∈ [","; ";"; "|"]%char ->
    occursIn sep s = true -> occursIn sep (unicodeLower s) = true.

Lemma checkDeck_plain cards c :
  checkDeck cards = NilError -> c ∈ cards -> plainToken c.
Proof.
  intros Hok Hc. pose proof (checkDeck_names _ _ Hok Hc) as Hname.
  unfold ToLower in Hname. destruct (Go.isASCII c) eqn:Hascii.
  { now apply ascii_name_plain. }
  apply standardDeck_name in Hname. unfold plainName in Hname.
  repeat (apply andb_prop in Hname as [Hname ?]).
  repeat match goal with
         | H : negb _ = true |- _ => apply negb_true_iff in H
         end.
  assert (Hsep : forall sep, sep ∈ [","; ";"; "|"]%char ->
                             occursIn sep (unicodeLower c) = false ->
                             occursIn sep c = false).
  { intros sep Hin Hout. destruct (occursIn sep c) eqn:E; [| reflexivity].
    rewrite (unicodeLower_separators _ _ Hin E) in Hout. discriminate. }
  repeat split.
  - intros ->. discriminate.
  - intros ->. discriminate.
  - apply Hsep; [set_solver | assumption].
  - apply Hsep; [set_solver | assumption].
  - apply Hsep; [set_solver | assumption].
Qed.

(** C3 (amended): on a valid deck the pruned search returns the largest
    count of removed cards of any state the moves can reach, and whenever
    the search without the pruning returns, it returns that count. *)
Theorem pruned_search_optimal cards :
  checkDeck cards = NilError ->
  exists start fuel res,
    initialState cards = Some start
    /\ solvePyramidSolitaire fuel cards = Done res
    /\ (exists final, reachable start final
                      /\ countRemoved (Pyramid final) = RemovedCount res)
    /\ (forall t, reachable start t ->
                  countRemoved (Pyramid t) <= RemovedCount res)
    /\ (forall fuel' res',
           solvePyramidSolitaireUnpruned fuel' cards = Done res' ->
           RemovedCount res' = RemovedCount res).
Proof.
  intros Hok.
  destruct (checkDeck_deal _ Hok) as (p0 & Hb & Hreg & Hslots & Hdeck & Hstart).
  pose proof (checkDeck_length _ Hok) as Hlen.
  assert (Hplain : Forall plainToken (drop 28 cards)).
  { apply Forall_forall. intros c Hc. apply (checkDeck_plain _ _ Hok).
    apply list_elem_of_lookup in Hc as [i Hi]. rewrite lookup_drop in Hi.
    eapply list_elem_of_lookup_2, Hi. }
  assert (Hpyr : Forall (fun rowv => rowv <> []
                          /\ Forall (fun c => c = "" \/ plainToken c) rowv) p0).
  { destruct (buildPyramid_shape cards p0) as (_ & _ & Hrows); [lia | exact Hb |].
    eapply Forall_impl; [exact Hrows |]. intros rowv [Hne Hrow]. split; [exact Hne |].
    eapply Forall_impl; [exact Hrow |]. intros c Hc. right.
    now apply (checkDeck_plain _ _ Hok). }
  set (fuel := S (room (slots p0) (dealKeys p0 (drop 28 cards)) ∅)).
  destruct (solveState_terminates _ _ Hreg Hdeck fuel _ ∅ Hstart) as (res & v & Hrun).
  { apply map_Forall_empty. }
  { unfold fuel. lia. }
  exists (mkState p0 (drop 28 cards) [] []), fuel, res.
  split; [unfold initialState; now rewrite Hb |].
  split; [apply (solvePyramidSolitaire_solveState _ _ _ Hb); eauto |].
  assert (Hslots' : (slots p0 <= 28)%nat) by lia.
  split; [| split].
  - destruct (solveState_fromReachable _ _ Hreg Hdeck _ _ _ _ _ Hstart Hrun)
      as (final & Hfinal & ->). eauto.
  - eapply solveState_optimal; eassumption.
  - intros fuel' res' Hrun'. unfold solvePyramidSolitaireUnpruned in Hrun'.
    rewrite Hb in Hrun'.
    destruct (solveStateUnpruned fuel' _ ∅) as [[r v']| |] eqn:Hu; try discriminate.
    injection Hrun' as <-.
    eapply (unpruned_agrees p0 (drop 28 cards)); eassumption.
Qed.

End Solver.

(** ** The theorems at sample inputs *)

Lemma noUnicode_separators s sep :
  sep ∈ [","; ";"; "|"]%char ->
  occursIn sep s = true -> occursIn sep (noUnicode s) = true.
Proof. intros _ H. exact H. Qed.

Lemma mainDeck_valid : checkDeck noUnicode mainDeck = NilError.
Proof. vm_compute. reflexivity. Qed.

Lemma stuckDeck_valid : checkDeck noUnicode stuckDeck = NilError.
Proof. vm_compute. reflexivity. Qed.

(** The solver returns on the deal of [main]. *)
Lemma solvePyramidSolitaire_terminates_mainDeck :
  checkDeck noUnicode mainDeck = NilError
  /\ exists fuel res,
      (forall fuel', (fuel <= fuel')%nat ->
                     solvePyramidSolitaire noUnicode fuel' mainDeck = Done res)
      /\ 0 <= RemovedCount res <= 28.
Proof.
  split; [exact mainDeck_valid |].
  apply (solvePyramidSolitaire_terminates noUnicode mainDeck).
  vm_compute. reflexivity.
Defined.

(** The log of the solver replays legally on [clearDeck]. *)
Lemma moves_replay_legally_clearDeck :
  exists start,
    initialState clearDeck = Some start
    /\ (exists fuel res, solvePyramidSolitaire noUnicode fuel clearDeck = Done res)
    /\ forall fuel res,
        solvePyramidSolitaire noUnicode fuel clearDeck = Done res ->
        exists ms final,
          replay noUnicode start ms = Some final
          /\ Moves final = ResultMoves res
          /\ length (ResultMoves res) = length ms
          /\ countRemoved (Pyramid final) = RemovedCount res
          /\ (RemovedCount res = 28 -> isPyramidEmpty (Pyramid final) = true).
Proof.
  apply (moves_replay_legally noUnicode clearDeck). vm_compute. reflexivity.
Defined.

(** C3, as stated, fails on [stuckDeck]: the deck is valid and the pruned
    search returns (no card removed), but the search without the pruning
    returns nothing, whatever the fuel. *)
Lemma unpruned_never_returns :
  checkDeck noUnicode stuckDeck = NilError
  /\ (exists fuel res,
        solvePyramidSolitaire noUnicode fuel stuckDeck = Done res
        /\ RemovedCount res = 0)
  /\ forall fuel, solvePyramidSolitaireUnpruned noUnicode fuel stuckDeck = OutOfFuel.
Proof.
  split; [exact stuckDeck_valid |]. split.
  { exists 70%nat. eexists. split; vm_compute; reflexivity. }
  intros fuel. unfold solvePyramidSolitaireUnpruned.
  assert (Hb : exists p0, buildPyramid stuckDeck = Some p0
                          /\ isPyramidEmpty p0 = false
                          /\ exists exposed0,
                              getExposedCards noUnicode p0 = Some exposed0
                              /\ filter (fun exp => value exp = 13)
                                   (sortSlice lowerRowFirst exposed0) = []
                              /\ filter (fun ab : ExposedCard * ExposedCard =>
                                           value ab.1 + value ab.2 = 13)
                                   (pairsOf (sortSlice lowerRowFirst exposed0)) = []
                              /\ Forall (fun c => exists wv,
                                           getCardValue noUnicode c = Some wv
                                           /\ filter (fun exp => wv + value exp = 13)
                                                (sortSlice lowerRowFirst exposed0) = [])
                                        (drop 28 stuckDeck)).
  { eexists. split; [vm_compute; reflexivity |]. split; [vm_compute; reflexivity |].
    eexists. split; [vm_compute; reflexivity |].
    split; [vm_compute; reflexivity |]. split; [vm_compute; reflexivity |].
    repeat (constructor; [eexists; split; vm_compute; reflexivity |]).
    constructor. }
  destruct Hb as (p0 & -> & Hempty & exposed0 & Hexp & Hk & Hp & Hd).
  rewrite (solveStateUnpruned_loops noUnicode p0 (drop 28 stuckDeck) exposed0
             Hempty Hexp Hk Hp Hd); [reflexivity | reflexivity | | |].
  - apply Forall_forall. auto.
  - constructor.
  - cbn [Deck Waste]. rewrite app_nil_r. apply Exists_cons_hd.
    exists 2. split; [vm_compute; reflexivity | discriminate].
Qed.

(** The pruned search is optimal on [clearDeck], where the search without
    the pruning returns too. *)
Lemma pruned_search_optimal_clearDeck :
  exists start fuel res,
    initialState clearDeck = Some start
    /\ solvePyramidSolitaire noUnicode fuel clearDeck = Done res
    /\ (exists final, reachable noUnicode start final
                      /\ countRemoved (Pyramid final) = RemovedCount res)
    /\ (forall t, reachable noUnicode start t ->
                  countRemoved (Pyramid t) <= RemovedCount res)
    /\ (forall fuel' res',
           solvePyramidSolitaireUnpruned noUnicode fuel' clearDeck = Done res' ->
           RemovedCount res' = RemovedCount res).
Proof.
  apply (pruned_search_optimal noUnicode noUnicode_separators clearDeck).
  vm_compute. reflexivity.
Defined.

(** The King on top of the deck of [kingOnDeck] vanishes. *)
Lemma draw_king_vanishes_kingOnDeck :
  exists child,
    drawMoves noUnicode kingOnDeck = [Some child]
    /\ Deck child = ["ah"]
    /\ Waste child = ["3d"; "9c"]
    /\ Pyramid child = Pyramid kingOnDeck
    /\ countRemoved (Pyramid child) = countRemoved (Pyramid kingOnDeck)
    /\ Moves child = Moves kingOnDeck ++ [textDrawKing noUnicode "ks"].
Proof.
  apply (draw_king_vanishes noUnicode kingOnDeck "ks" ["ah"]);
    vm_compute; reflexivity.
Defined.

(** C5, as stated, fails on [toRecycle]: drawing the recycled deck back out
    gives the waste reversed, not the waste. *)
Lemma recycled_deck_draws_reversed :
  recycleMoves toRecycle = [Some (recycleChild toRecycle)]
  /\ Waste <$> drawWholeDeck noUnicode (recycleChild toRecycle) = Some ["3d"; "2c"]
  /\ Waste <$> drawWholeDeck noUnicode (recycleChild toRecycle)
     <> Some (Waste toRecycle).
Proof.
  split; [reflexivity |]. split; [vm_compute; reflexivity |].
  vm_compute. discriminate.
Qed.

Lemma toRecycle_stays : Forall (staysInWaste noUnicode) (Waste toRecycle).
Proof.
  repeat constructor; eexists; (split; [vm_compute; reflexivity | discriminate]).
Qed.

(** Recycling [toRecycle] twice gives its waste back. *)
Lemma recycle_reverses_toRecycle :
  exists once twice,
    drawWholeDeck noUnicode (recycleChild toRecycle) = Some once
    /\ Deck once = [] /\ Waste once = ["3d"; "2c"]
    /\ drawWholeDeck noUnicode (recycleChild once) = Some twice
    /\ Deck twice = [] /\ Waste twice = ["2c"; "3d"].
Proof.
  exact (proj2 (proj2 (proj2 (proj2 (recycle_reverses noUnicode toRecycle))))
           toRecycle_stays).
Defined.

Lemma isCard_lowered t :
  Go.isASCII t = true -> Go.lowerASCII t ∈ standardDeck -> isCard t.
Proof.
  intros Hascii Hin. unfold standardDeck in Hin.
  apply list_elem_of_bind in Hin as (rank & Hin & Hrank).
  apply list_elem_of_bind in Hin as (suit & Hin & Hsuit).
  apply list_elem_of_singleton in Hin. exists rank, suit. repeat split; assumption.
Qed.

Lemma kingOnDeck_cards : cardState kingOnDeck.
Proof.
  repeat split; repeat constructor; try discriminate;
    try (right; apply isCard_lowered; [reflexivity |];
         apply (bool_decide_unpack _); vm_compute; exact I);
    (apply isCard_lowered; [reflexivity |];
     apply (bool_decide_unpack _); vm_compute; exact I).
Qed.

(** [kingOnDeck] with and without its log: one key, one entry of the
    visited table, and from the one key the one board. *)
Lemma serializeState_signature_kingOnDeck :
  let relogged := mkState (Pyramid kingOnDeck) (Deck kingOnDeck)
                    (Waste kingOnDeck) [] in
  (serializeState kingOnDeck = serializeState relogged
   /\ forall visited,
       alreadySeen (<[serializeState kingOnDeck
                      := countRemoved (Pyramid kingOnDeck)]> visited)
         (serializeState relogged) (countRemoved (Pyramid relogged)) = true)
  /\ (Pyramid kingOnDeck = Pyramid relogged
      /\ Deck kingOnDeck = Deck relogged /\ Waste kingOnDeck = Waste relogged).
Proof.
  intros relogged. split.
  - exact (proj1 (serializeState_signature kingOnDeck relogged)
             eq_refl eq_refl eq_refl).
  - apply (proj2 (serializeState_signature kingOnDeck relogged)).
    + exact kingOnDeck_cards.
    + destruct kingOnDeck_cards as (Hp & Hd & Hw). repeat split; assumption.
    + reflexivity.
Defined.

(** C7, as stated, fails on ["ax"], which is no card and has value 1. *)
Lemma getCardValue_malformed_not_zero :
  ~ isCard "ax"
  /\ getCardValue noUnicode "ax" = Some 1
  /\ getCardValue noUnicode "ax" <> Some 0.
Proof.
  split; [| split; [reflexivity | discriminate]].
  intros (rank & suit & _ & Hlow & Hr & Hs).
  pose proof (standardDeck_elem rank suit Hr Hs) as Hin.
  rewrite <- Hlow in Hin. revert Hin.
  apply (bool_decide_unpack _). vm_compute. exact I.
Qed.

Lemma cardToken_Qs : cardToken "Qs" "q" "s".
Proof. repeat split; [unfold ranks | unfold suits]; set_solver. Qed.

Lemma noUnicode_latin1 b :
  Go.isASCIIByte b = false ->
  Go.isASCII (noUnicode (Go.stringOfByte b)) = false.
Proof.
  destruct b as [[] [] [] [] [] [] [] []]; intros Hb; try discriminate Hb;
    reflexivity.
Qed.

(** The Queen of spades is 12, ["zz"] is 0, and so is an input whose first
    byte is 0xC9. *)
Lemma getCardValue_by_rank_samples :
  getCardValue noUnicode "Qs" = Some 12
  /\ getCardValue noUnicode "zz" = Some 0
  /\ getCardValue noUnicode (String "201" "s") = Some 0.
Proof.
  split; [| split].
  - apply (proj1 (getCardValue_by_rank noUnicode) "Qs" "q" "s" 12 cardToken_Qs).
    unfold rankTable. set_solver.
  - apply (proj1 (proj2 (getCardValue_by_rank noUnicode)) "z"%char "z");
      vm_compute; reflexivity.
  - apply (proj1 (proj2 (proj2 (proj2 (getCardValue_by_rank noUnicode)))
                    noUnicode_latin1) "201"%char "s");
      vm_compute; reflexivity.
Defined.

(** C8, as stated, fails on [holed]: the removal at its empty slot succeeds
    and changes nothing. *)
Lemma removeAt_empty_slot_succeeds :
  slot holed 1 0 = Some "" /\ removeAt holed 1 0 = Some holed.
Proof. split; reflexivity. Qed.

(** On [holed]: out of bounds fails, the empty slot stays, the exposed card
    is occupied. *)
Lemma removeAt_fails_only_out_of_bounds_holed :
  removeAt holed 1 0 = Some holed
  /\ (removeAt holed 2 0 = None <-> slot holed 2 0 = None).
Proof.
  split.
  - apply (proj1 (proj2 (removeAt_fails_only_out_of_bounds noUnicode holed 1 0))).
    reflexivity.
  - exact (proj1 (removeAt_fails_only_out_of_bounds noUnicode holed 2 0)).
Defined.

(** [checkDeck] on the deal of [main]. *)
Lemma checkDeck_nil_iff_mainDeck :
  length mainDeck = 52%nat
  /\ forall name, name ∈ standardDeck -> occurrences noUnicode name mainDeck = 1%nat.
Proof.
  apply (proj1 (proj1 (checkDeck_nil_iff noUnicode mainDeck))).
  vm_compute. reflexivity.
Defined.

(** The deal of [main]: four cards of each value. *)
Lemma checkDeck_values_mainDeck :
  Forall (fun c => isCard c
                   /\ exists v, getCardValue noUnicode c = Some v /\ 1 <= v <= 13)
         mainDeck
  /\ forall v, 1 <= v <= 13 ->
               length (filter (fun c => getCardValue noUnicode c = Some v) mainDeck)
               = 4%nat.
Proof.
  apply (checkDeck_values noUnicode mainDeck); [exact mainDeck_valid |].
  apply (bool_decide_unpack _). vm_compute. exact I.
Defined.
(** The ten of diamonds is 10, the King of diamonds is 13. *)
Lemma getCardValue_ten_and_king_samples :
  getCardValue noUnicode "10d" = Some 10 /\ getCardValue noUnicode "Kd" = Some 13.
Proof.
  split.
  - apply (proj1 (getCardValue_ten_and_king noUnicode)). reflexivity.
  - apply (proj2 (getCardValue_ten_and_king noUnicode) "K"%char "d");
      [reflexivity | now right].
Defined.

(** The Queen of spades has one name, in either case. *)
Lemma formatCard_identifies_card_Qs :
  formatCard noUnicode "Qs" = rankName "q" +:+ " of " +:+ suitName noUnicode "s"
  /\ formatCard noUnicode "Qs" = formatCard noUnicode "qS".
Proof.
  split.
  - exact (proj1 (formatCard_identifies_card noUnicode) "Qs" "q" "s" cardToken_Qs).
  - apply (proj2 (formatCard_identifies_card noUnicode) "Qs" "qS").
    + exists "q", "s". exact cardToken_Qs.
    + apply isCard_lowered; [reflexivity |].
      apply (bool_decide_unpack _). vm_compute. exact I.
    + reflexivity.
Defined.

(** The deal of [main] read backwards, and [twoAces] in lower case. *)
Lemma checkDeck_order_and_case_mainDeck :
  checkDeck noUnicode mainDeck = checkDeck noUnicode (reverse mainDeck)
  /\ checkDeck noUnicode (Go.lowerASCII <$> twoAces) = checkDeck noUnicode twoAces.
Proof.
  split.
  - apply (proj1 (proj2 (checkDeck_order_and_case noUnicode mainDeck))).
    symmetry. apply reverse_Permutation.
  - apply (proj2 (proj2 (checkDeck_order_and_case noUnicode twoAces))).
    apply (bool_decide_unpack _). vm_compute. exact I.
Defined.

(** [twoAces] lacks the Jack of diamonds, but the Ace of clubs, which it
    has twice, comes first among the names. *)
Lemma checkDeck_first_error_twoAces :
  checkDeck noUnicode twoAces
  = Errorf "duplicate card: Ace of Clubs (appears 2 times)".
Proof.
  pose proof (checkDeck_first_error noUnicode twoAces [] "ac" (tail standardDeck)
                eq_refl eq_refl (Forall_nil_2 _)) as H.
  vm_compute in H. vm_compute. apply H. discriminate.
Defined.

(** The deal of [main], and its first 27 cards. *)
Lemma buildPyramid_deals_mainDeck :
  buildPyramid (take 27 mainDeck) = None
  /\ exists pyramid,
      buildPyramid mainDeck = Some pyramid
      /\ length <$> pyramid = [1; 2; 3; 4; 5; 6; 7]%nat
      /\ concat pyramid ++ drop 28 mainDeck = mainDeck
      /\ slot pyramid 6 6 = Some "5h".
Proof.
  split.
  - apply (proj1 (buildPyramid_deals (take 27 mainDeck))). cbn. lia.
  - exists (default [] (buildPyramid mainDeck)). split; [reflexivity |].
    destruct (proj2 (buildPyramid_deals mainDeck)
                (default [] (buildPyramid mainDeck)) eq_refl) as (H1 & H2 & H3).
    split; [exact H1 | split; [exact H2 |]].
    rewrite H3 by lia. reflexivity.
Defined.

(** Two cards are too few; [twoAces], which [checkDeck] rejects, is solved. *)
Lemma solvePyramidSolitaire_any_cards_twoAces :
  (forall fuel, solvePyramidSolitaire noUnicode fuel ["kh"; "qd"] = Panic)
  /\ exists fuel res,
      (forall fuel', (fuel <= fuel')%nat ->
                     solvePyramidSolitaire noUnicode fuel' twoAces = Done res)
      /\ 0 <= RemovedCount res <= 28.
Proof.
  split.
  - apply (proj1 (solvePyramidSolitaire_any_cards noUnicode ["kh"; "qd"])).
    cbn. lia.
  - apply (proj2 (solvePyramidSolitaire_any_cards noUnicode twoAces)).
    + cbn. lia.
    + apply (bool_decide_unpack _). vm_compute. exact I.
Defined.

(** On [holed] the Jack is exposed, and nothing else. *)
Lemma getExposedCards_exact_holed :
  is_Some (getExposedCards noUnicode holed)
  /\ NoDup [mkExposed 1 1 "jd" 11]
  /\ forall e, e ∈ [mkExposed 1 1 "jd" 11] <->
               exposedSlot holed (row e) (col e) = true
               /\ exposedAs noUnicode holed (row e) (col e) = Some e.
Proof.
  split.
  - apply (proj1 (getExposedCards_exact noUnicode holed)). cbn. lia.
  - apply (proj2 (getExposedCards_exact noUnicode holed)). reflexivity.
Defined.

(** A cleared pyramid of two rows exposes nothing. *)
Lemma getExposedCards_nil_iff_cleared :
  getExposedCards noUnicode [[""]; [""; ""]] = Some []
  <-> isPyramidEmpty [[""]; [""; ""]] = true.
Proof. apply (getExposedCards_nil_iff noUnicode). cbn. lia. Defined.

(** The pair of [twoRows] removes two cards and writes one line. *)
Lemma moves_remove_cards_twoRows :
  let child :=
    mkState [["kh"]; [""; ""]] [] []
      ["Remove pair from pyramid: 2 of Clubs at (1,0) and Jack of Diamonds at (1,1)"] in
  countRemoved (Pyramid child)
  = countRemoved (Pyramid twoRows) + removedBy (RemovePair 1 0 1 1)
  /\ exists line, Moves child = Moves twoRows ++ [line].
Proof.
  intros child.
  apply (proj1 (moves_remove_cards noUnicode) twoRows (RemovePair 1 0 1 1) child).
  vm_compute. reflexivity.
Defined.

Lemma twoRows_dealt : inDeal (Pyramid twoRows) [] twoRows.
Proof.
  repeat split; [apply masked_refl | constructor | constructor | cbn; lia].
Qed.

Lemma twoRows_run :
  solveState noUnicode 5 twoRows ∅ = Done (twoRowsResult, twoRowsVisited).
Proof. vm_compute. reflexivity. Qed.

(** The search clears [twoRows] in two lines. *)
Lemma solveState_result_extends_twoRows :
  exists lines,
    ResultMoves twoRowsResult = Moves twoRows ++ lines
    /\ countRemoved (Pyramid twoRows) <= RemovedCount twoRowsResult
       <= countRemoved (Pyramid twoRows) + 2 * Z.of_nat (length lines)
    /\ RemovedCount twoRowsResult <= Z.of_nat (slots (Pyramid twoRows)).
Proof.
  apply (solveState_result_extends noUnicode (Pyramid twoRows) [] 5 twoRows ∅
           twoRowsResult twoRowsVisited);
    [cbn; lia | constructor | exact twoRows_dealt | exact twoRows_run].
Defined.

(** The table the search from [twoRows] leaves holds the key of [twoRows]. *)
Lemma solveState_visited_table_twoRows :
  countsOK twoRowsVisited
  /\ (forall key val,
        (∅ : gmap string Z) !! key = Some val ->
        exists val', twoRowsVisited !! key = Some val' /\ val <= val')
  /\ (isPyramidEmpty (Pyramid twoRows) = false ->
      exists val, twoRowsVisited !! serializeState twoRows = Some val
                  /\ countRemoved (Pyramid twoRows) <= val).
Proof.
  apply (solveState_visited_table noUnicode (Pyramid twoRows) [] 5 twoRows ∅
           twoRowsResult twoRowsVisited);
    [cbn; lia | constructor | exact twoRows_dealt | apply map_Forall_empty
    | exact twoRows_run].
Defined.

(** No panic from [twoRows]. *)
Lemma solveState_never_panics_twoRows :
  solveState noUnicode 5 twoRows ∅ <> Panic.
Proof.
  apply (solveState_never_panics noUnicode (Pyramid twoRows) []);
    [cbn; lia | constructor | exact twoRows_dealt].
Defined.

Lemma kingOnDeck_draws : reachable noUnicode kingOnDeck kingDrawn.
Proof.
  apply rtc_once. eexists. split; [vm_compute; reflexivity |].
  apply list_elem_of_In. vm_compute. right. left. reflexivity.
Qed.

(** The King drawn from [kingOnDeck] is not on the waste. *)
Lemma waste_never_holds_king_kingOnDeck :
  Forall (fun c => getCardValue noUnicode c <> Some 13) (Waste kingDrawn).
Proof.
  apply (proj1 (waste_never_holds_king noUnicode) kingOnDeck kingDrawn
           kingOnDeck_draws).
  repeat (apply Forall_cons_2; [vm_compute; discriminate |]). apply Forall_nil_2.
Defined.

(** The draw from [kingOnDeck] brings no card into play. *)
Lemma cards_conserved_kingOnDeck :
  masked (Pyramid kingOnDeck) (Pyramid kingDrawn)
  /\ Deck kingDrawn ++ Waste kingDrawn ⊆+ Deck kingOnDeck ++ Waste kingOnDeck.
Proof. exact (cards_conserved noUnicode kingOnDeck kingDrawn kingOnDeck_draws). Defined.

(** [holed] is [spelledXX] with its card "XX" removed: one key. *)
Lemma serializeState_XX_slot_spelledXX :
  serializeState (mkState holed ["ks"] [] ["Recycle waste into deck"])
  = serializeState (mkState spelledXX ["ks"] [] [])
  /\ holed <> spelledXX
  /\ countRemoved holed = countRemoved spelledXX + 1.
Proof.
  apply (serializeState_XX_slot spelledXX 1 0 holed ["ks"] [] []
           ["Recycle waste into deck"]); reflexivity.
Defined.

(** The pyramid of the deal of [main], nothing removed. *)
Lemma countRemoved_28_iff_empty_mainDeck :
  let pyramid0 := default [] (buildPyramid mainDeck) in
  0 <= countRemoved pyramid0 <= 28
  /\ (countRemoved pyramid0 = 28 <-> isPyramidEmpty pyramid0 = true).
Proof.
  intros pyramid0.
  apply (countRemoved_28_iff_empty mainDeck pyramid0 pyramid0);
    [reflexivity | apply masked_refl].
Defined.

(** ** The model at work *)

Example getCardValue_samples :
  getCardValue noUnicode "10h" = Some 10
  /\ getCardValue noUnicode "KS" = Some 13
  /\ getCardValue noUnicode "1x" = Some 0
  /\ getCardValue noUnicode "" = None.
Proof. repeat split. Qed.

Example formatCard_samples :
  formatCard noUnicode "10c" = "10 of Clubs"
  /\ formatCard noUnicode "kh" = "King of Hearts"
  /\ formatCard noUnicode "" = "Empty".
Proof. repeat split. Qed.

Example serializeState_sample :
  serializeState (mkState holed ["ks"; "ah"] ["3d"] ["Recycle waste into deck"])
  = "kh;XX,jd|ks,ah|3d".
Proof. reflexivity. Qed.

Example getExposedCards_sample :
  getExposedCards noUnicode holed = Some [mkExposed 1 1 "jd" 11].
Proof. reflexivity. Qed.

(** A pyramid of three rows that the search clears: the pair of the bottom
    row first, then a draw for the Queen, then the row above, then the King. *)
Example solveState_sample :
  match solveState noUnicode 30
          (mkState [["kh"]; ["2c"; "jd"]; ["3d"; "10s"; "qh"]]
             ["ah"; "ks"; "3c"] [] [])
          ∅
  with
  | Done (res, visited) => Some (res, size visited)
  | _ => None
  end
  = Some (mkResult
            ["Remove pair from pyramid: 3 of Diamonds at (2,0) and 10 of Spades at (2,1)";
             "Draw card from deck: Ace of Hearts";
             "Remove waste card Ace of Hearts and pyramid card Queen of Hearts at (2,2)";
             "Remove pair from pyramid: 2 of Clubs at (1,0) and Jack of Diamonds at (1,1)";
             "Remove King of Hearts from pyramid at (0,0)"]
            6,
          28%nat).
Proof. vm_compute. reflexivity. Qed.

Example checkDeck_sample :
  checkDeck noUnicode ("kh" :: tail mainDeck)
  = Errorf "missing card: Jack of Diamonds".
Proof. vm_compute. reflexivity. Qed.

(** On [clearDeck] the search clears the pyramid along its first path, with
    the pruning and without it, and the sixteen moves of its log replay. *)
Example clearDeck_sample :
  exists res start final,
    solvePyramidSolitaire noUnicode 20 clearDeck = Done res
    /\ solvePyramidSolitaireUnpruned noUnicode 20 clearDeck = Done res
    /\ RemovedCount res = 28
    /\ initialState clearDeck = Some start
    /\ replay noUnicode start
         [RemoveKing 6 0; RemovePair 6 1 6 2; RemovePair 6 3 6 4;
          RemovePair 6 5 6 6; RemovePair 5 0 5 1; RemoveKing 4 0;
          RemovePair 5 2 5 3; RemovePair 5 4 5 5; RemovePair 4 1 4 2;
          RemovePair 4 3 4 4; RemovePair 3 0 3 1; RemoveKing 2 0;
          RemovePair 3 2 3 3; RemovePair 2 1 2 2; RemovePair 1 0 1 1;
          RemoveKing 0 0] = Some final
    /\ Moves final = ResultMoves res
    /\ isPyramidEmpty (Pyramid final) = true.
Proof.
  do 3 eexists.
  split; [vm_compute; reflexivity |]. split; [vm_compute; reflexivity |].
  split; [reflexivity |]. split; [vm_compute; reflexivity |].
  split; [vm_compute; reflexivity |]. split; vm_compute; reflexivity.
Qed.

(** Outside the states of a deal the search can panic: an empty card in the
    deck is drawn, and [getCardValue] reads its first byte. *)
Example solveState_panic_sample :
  solveState noUnicode 2 (mkState [["2c"]] [""] [] []) ∅ = Panic.
Proof. reflexivity. Qed.

(** The order in which the blocks try the exposed cards of a pyramid: the
    last row first. *)
Example sortSlice_sample :
  sortSlice lowerRowFirst
    <$> getExposedCards noUnicode [["kh"]; [""; ""]; ["3d"; "10s"; "qh"]]
  = Some [mkExposed 2 0 "3d" 3; mkExposed 2 1 "10s" 10; mkExposed 2 2 "qh" 12;
          mkExposed 0 0 "kh" 13].
Proof. reflexivity. Qed.
